(** * gox: a shallow embedding of the code builder and of the big-number builtins

    The development follows the Go sources:
    - [Builtin] embeds [internal/builtin/big.go] (the [Gop_bigint] operators);
    - [token], [types], [ast], [constant] and [internal] hold the data the
      builder works on, and the section [Builder] embeds [CodeBuilder] and its
      instructions.

    Go pointers to mutable objects ([*big.Int], [*types.Named], [*Label]) are
    locations of an explicit store; a Go [int] is an integer of [Z]; a Go
    panic is the [Panic] result. The properties come after the definitions,
    and the runs of the instructions on concrete builders at the end. *)

From Stdlib Require Import ZArith List Lia.
From stdpp Require Import base option list gmap strings pretty fin_maps.

From Stdlib Require QArith Qcanon.
Local Open Scope Z_scope.
Set Warnings "-register-all".

(** ** Results of fallible code *)

(** A Go call either returns a value or panics with a value of type [E]. *)
Inductive Res (E A : Type) : Type :=
  | Ok (a : A)
  | Panic (e : E).
Arguments Ok {E A} a.
Arguments Panic {E A} e.

Definition rbind {E A B} (r : Res E A) (k : A -> Res E B) : Res E B :=
  match r with
  | Ok a => k a
  | Panic e => Panic e
  end.

Notation "x <- r ;;; k" := (rbind r (fun x => k))
  (at level 100, r at next level, right associativity).

(** ** internal/builtin/big.go *)

Module Builtin.

(** A [*big.Int] is a location; the store maps it to the integer it holds. *)
Definition loc := positive.
Abbreviation heap := (gmap loc Z).

(** The operators panic with a run-time error message. *)
Abbreviation Result := (Res string).

(** [type Gop_bigint struct { *big.Int }]: the embedded pointer may be nil. *)
Record Gop_bigint := mkBigint { Int : option loc }.

(** [type Gop_ninteger uint] *)
Definition Gop_ninteger := N.

(** [func Gop_istmp(a interface{}) bool { return false }] *)
Definition Gop_istmp {A : Type} (a : A) : bool := false.

(** [new(big.Int)]: a location that is not in use, holding zero. *)
Definition new_Int (h : heap) : loc * heap :=
  let l := fresh (dom h) in (l, <[l := 0]> h).

Definition tmpint (a b : Gop_bigint) (h : heap) : Gop_bigint * heap :=
  if Gop_istmp a then (a, h)
  else if Gop_istmp b then (b, h)
  else let '(l, h') := new_Int h in (mkBigint (Some l), h').

Definition tmpint1 (a : Gop_bigint) (h : heap) : Gop_bigint * heap :=
  if Gop_istmp a then (a, h)
  else let '(l, h') := new_Int h in (mkBigint (Some l), h').

(** *** The methods of [math/big.Int] used by the operators

    [z.Op(x, y)] reads [x] and [y], stores the result in [z] and returns [z];
    a nil pointer is a run-time panic, and so is a zero divisor. *)

Definition deref (p : option loc) (h : heap) : Result Z :=
  match p with
  | None => Panic "invalid memory address or nil pointer dereference"
  | Some l =>
      match h !! l with
      | Some v => Ok v
      | None => Panic "invalid memory address or nil pointer dereference"
      end
  end.

Definition Int_set2 (f : Z -> Z -> Result Z) (z x y : option loc) (h : heap)
  : Result (option loc * heap) :=
  vx <- deref x h ;;;
  vy <- deref y h ;;;
  _ <- deref z h ;;;
  v <- f vx vy ;;;
  match z with
  | Some lz => Ok (z, <[lz := v]> h)
  | None => Panic "invalid memory address or nil pointer dereference"
  end.

Definition Int_set1 (f : Z -> Z) (z x : option loc) (h : heap)
  : Result (option loc * heap) :=
  vx <- deref x h ;;;
  _ <- deref z h ;;;
  match z with
  | Some lz => Ok (z, <[lz := f vx]> h)
  | None => Panic "invalid memory address or nil pointer dereference"
  end.

Definition div_by_zero : string := "division by zero".

Definition Int_Add := Int_set2 (fun x y => Ok (x + y)).
Definition Int_Sub := Int_set2 (fun x y => Ok (x - y)).
Definition Int_Mul := Int_set2 (fun x y => Ok (x * y)).
Definition Int_Quo :=
  Int_set2 (fun x y => if Z.eqb y 0 then Panic div_by_zero else Ok (Z.quot x y)).
Definition Int_Rem :=
  Int_set2 (fun x y => if Z.eqb y 0 then Panic div_by_zero else Ok (Z.rem x y)).
Definition Int_Or := Int_set2 (fun x y => Ok (Z.lor x y)).
Definition Int_Xor := Int_set2 (fun x y => Ok (Z.lxor x y)).
Definition Int_And := Int_set2 (fun x y => Ok (Z.land x y)).
Definition Int_AndNot := Int_set2 (fun x y => Ok (Z.ldiff x y)).
Definition Int_Lsh (z x : option loc) (n : N) := Int_set1 (fun v => Z.shiftl v (Z.of_N n)) z x.
Definition Int_Rsh (z x : option loc) (n : N) := Int_set1 (fun v => Z.shiftr v (Z.of_N n)) z x.
Definition Int_Neg := Int_set1 Z.opp.
Definition Int_Not := Int_set1 Z.lnot.

(** *** The operator methods of [Gop_bigint] *)

Definition wrap (r : Result (option loc * heap)) : Result (Gop_bigint * heap) :=
  ph <- r ;;; Ok (mkBigint ph.1, ph.2).

(** [return Gop_bigint{tmpint(a, b).Add(a.Int, b.Int)}] *)
Definition Gop_Add (a b : Gop_bigint) (h : heap) :=
  let '(t, h1) := tmpint a b h in wrap (Int_Add (Int t) (Int a) (Int b) h1).
Definition Gop_Sub (a b : Gop_bigint) (h : heap) :=
  let '(t, h1) := tmpint a b h in wrap (Int_Sub (Int t) (Int a) (Int b) h1).
Definition Gop_Mul (a b : Gop_bigint) (h : heap) :=
  let '(t, h1) := tmpint a b h in wrap (Int_Mul (Int t) (Int a) (Int b) h1).
Definition Gop_Quo (a b : Gop_bigint) (h : heap) :=
  let '(t, h1) := tmpint a b h in wrap (Int_Quo (Int t) (Int a) (Int b) h1).
Definition Gop_Rem (a b : Gop_bigint) (h : heap) :=
  let '(t, h1) := tmpint a b h in wrap (Int_Rem (Int t) (Int a) (Int b) h1).
Definition Gop_Or (a b : Gop_bigint) (h : heap) :=
  let '(t, h1) := tmpint a b h in wrap (Int_Or (Int t) (Int a) (Int b) h1).
Definition Gop_Xor (a b : Gop_bigint) (h : heap) :=
  let '(t, h1) := tmpint a b h in wrap (Int_Xor (Int t) (Int a) (Int b) h1).
Definition Gop_And (a b : Gop_bigint) (h : heap) :=
  let '(t, h1) := tmpint a b h in wrap (Int_And (Int t) (Int a) (Int b) h1).
Definition Gop_AndNot (a b : Gop_bigint) (h : heap) :=
  let '(t, h1) := tmpint a b h in wrap (Int_AndNot (Int t) (Int a) (Int b) h1).
(** [return Gop_bigint{tmpint1(a).Lsh(a.Int, uint(n))}] *)
Definition Gop_Lsh (a : Gop_bigint) (n : Gop_ninteger) (h : heap) :=
  let '(t, h1) := tmpint1 a h in wrap (Int_Lsh (Int t) (Int a) n h1).
Definition Gop_Rsh (a : Gop_bigint) (n : Gop_ninteger) (h : heap) :=
  let '(t, h1) := tmpint1 a h in wrap (Int_Rsh (Int t) (Int a) n h1).
Definition Gop_Neg (a : Gop_bigint) (h : heap) :=
  let '(t, h1) := tmpint1 a h in wrap (Int_Neg (Int t) (Int a) h1).
Definition Gop_Not (a : Gop_bigint) (h : heap) :=
  let '(t, h1) := tmpint1 a h in wrap (Int_Not (Int t) (Int a) h1).

(** The operators by name, to state one property for all of them. *)
Inductive binop := Add | Sub | Mul | Quo | Rem | Or | Xor | And | AndNot.
Inductive shiftop := Lsh | Rsh.
Inductive unop := Neg | Not.

Definition Gop_binary (op : binop) : Gop_bigint -> Gop_bigint -> heap -> Result (Gop_bigint * heap) :=
  match op with
  | Add => Gop_Add | Sub => Gop_Sub | Mul => Gop_Mul | Quo => Gop_Quo
  | Rem => Gop_Rem | Or => Gop_Or | Xor => Gop_Xor | And => Gop_And
  | AndNot => Gop_AndNot
  end.

Definition Gop_shift (op : shiftop) : Gop_bigint -> Gop_ninteger -> heap -> Result (Gop_bigint * heap) :=
  match op with Lsh => Gop_Lsh | Rsh => Gop_Rsh end.

Definition Gop_unary (op : unop) : Gop_bigint -> heap -> Result (Gop_bigint * heap) :=
  match op with Neg => Gop_Neg | Not => Gop_Not end.

(** The mathematical value each operator computes. *)
Definition binop_val (op : binop) (x y : Z) : Z :=
  match op with
  | Add => x + y | Sub => x - y | Mul => x * y
  | Quo => Z.quot x y | Rem => Z.rem x y
  | Or => Z.lor x y | Xor => Z.lxor x y | And => Z.land x y
  | AndNot => Z.ldiff x y
  end.

Definition shiftop_val (op : shiftop) (x : Z) (n : N) : Z :=
  match op with
  | Lsh => Z.shiftl x (Z.of_N n)
  | Rsh => Z.shiftr x (Z.of_N n)
  end.

Definition unop_val (op : unop) (x : Z) : Z :=
  match op with Neg => - x | Not => Z.lnot x end.

(** Quo and Rem need a divisor that is not zero. *)
Definition divides_ok (op : binop) (y : Z) : Prop :=
  match op with Quo | Rem => y <> 0 | _ => True end.

(** What "the result is in a new big.Int and the operands keep their
    values" means for a call that returned [r] in store [h'], started in
    store [h] with operands at [la] and [lb]. *)
Definition fresh_result (h : heap) (la lb : loc) (va vb : Z) (v : Z)
    (out : Result (Gop_bigint * heap)) : Prop :=
  exists (r : loc) (h' : heap),
    out = Ok (mkBigint (Some r), h') /\
    h !! r = None /\ r <> la /\ r <> lb /\
    h' !! r = Some v /\
    h' !! la = Some va /\ h' !! lb = Some vb /\
    (forall l : loc, l <> r -> h' !! l = h !! l).

(** *** Nil test, copy and comparisons of [Gop_bigint] *)

(** [return a.Int == nil] *)
Definition IsNil (a : Gop_bigint) : bool :=
  match Int a with None => true | Some _ => false end.

(** [z.Set(x)] *)
Definition Int_Set := Int_set1 (fun v => v).

(** [return Gop_bigint{new(big.Int).Set(a.Int)}] *)
Definition Copy (a : Gop_bigint) (h : heap) : Result (Gop_bigint * heap) :=
  let '(l, h1) := new_Int h in wrap (Int_Set (Some l) (Int a) h1).

(** [x.Cmp(y)] is -1, 0 or +1; one and the same pointer is equal to itself
    without being read. *)
Definition Int_Cmp (x y : option loc) (h : heap) : Result Z :=
  if decide (x = y) then Ok 0
  else
    vx <- deref x h ;;;
    vy <- deref y h ;;;
    Ok (match Z.compare vx vy with Lt => -1 | Eq => 0 | Gt => 1 end).

Definition Gop_LT (a b : Gop_bigint) (h : heap) : Result bool :=
  c <- Int_Cmp (Int a) (Int b) h ;;; Ok (Z.ltb c 0).
Definition Gop_LE (a b : Gop_bigint) (h : heap) : Result bool :=
  c <- Int_Cmp (Int a) (Int b) h ;;; Ok (Z.leb c 0).
Definition Gop_GT (a b : Gop_bigint) (h : heap) : Result bool :=
  c <- Int_Cmp (Int a) (Int b) h ;;; Ok (Z.gtb c 0).
Definition Gop_GE (a b : Gop_bigint) (h : heap) : Result bool :=
  c <- Int_Cmp (Int a) (Int b) h ;;; Ok (Z.geb c 0).
Definition Gop_EQ (a b : Gop_bigint) (h : heap) : Result bool :=
  c <- Int_Cmp (Int a) (Int b) h ;;; Ok (Z.eqb c 0).
Definition Gop_NE (a b : Gop_bigint) (h : heap) : Result bool :=
  c <- Int_Cmp (Int a) (Int b) h ;;; Ok (negb (Z.eqb c 0)).

(** *** [Gop_bigrat]

    A [*big.Rat] is a location of a store of rationals in lowest terms. *)
Module bigrat.

Abbreviation Qc := Qcanon.Qc.
Abbreviation rheap := (gmap loc Qc).

Definition Qc0 : Qc := Qcanon.Q2Qc (QArith_base.inject_Z 0).

(** [type Gop_bigrat struct { *big.Rat }] *)
Record Gop_bigrat := mkBigrat { Rat : option loc }.

(** [new(big.Rat)] *)
Definition new_Rat (h : rheap) : loc * rheap :=
  let l := fresh (dom h) in (l, <[l := Qc0]> h).

Definition tmprat (a b : Gop_bigrat) (h : rheap) : Gop_bigrat * rheap :=
  if Gop_istmp a then (a, h)
  else if Gop_istmp b then (b, h)
  else let '(l, h') := new_Rat h in (mkBigrat (Some l), h').

Definition tmprat1 (a : Gop_bigrat) (h : rheap) : Gop_bigrat * rheap :=
  if Gop_istmp a then (a, h)
  else let '(l, h') := new_Rat h in (mkBigrat (Some l), h').

Definition rderef (p : option loc) (h : rheap) : Result Qc :=
  match p with
  | None => Panic "invalid memory address or nil pointer dereference"
  | Some l =>
      match h !! l with
      | Some v => Ok v
      | None => Panic "invalid memory address or nil pointer dereference"
      end
  end.

(** [z.Op(x, y)] and [z.Op(x)] of [math/big.Rat]: the operands are read,
    the result is stored in [z], and [z] is returned. *)
Definition Rat_set2 (f : Qc -> Qc -> Result Qc) (z x y : option loc) (h : rheap)
  : Result (option loc * rheap) :=
  vx <- rderef x h ;;;
  vy <- rderef y h ;;;
  _ <- rderef z h ;;;
  v <- f vx vy ;;;
  match z with
  | Some lz => Ok (z, <[lz := v]> h)
  | None => Panic "invalid memory address or nil pointer dereference"
  end.

Definition Rat_set1 (f : Qc -> Result Qc) (z x : option loc) (h : rheap)
  : Result (option loc * rheap) :=
  vx <- rderef x h ;;;
  _ <- rderef z h ;;;
  v <- f vx ;;;
  match z with
  | Some lz => Ok (z, <[lz := v]> h)
  | None => Panic "invalid memory address or nil pointer dereference"
  end.

Definition Rat_Add := Rat_set2 (fun x y => Ok (Qcanon.Qcplus x y)).
Definition Rat_Sub := Rat_set2 (fun x y => Ok (Qcanon.Qcminus x y)).
Definition Rat_Mul := Rat_set2 (fun x y => Ok (Qcanon.Qcmult x y)).
Definition Rat_Quo :=
  Rat_set2 (fun x y => if decide (y = Qc0) then Panic div_by_zero
                       else Ok (Qcanon.Qcdiv x y)).
Definition Rat_Neg := Rat_set1 (fun x => Ok (Qcanon.Qcopp x)).
Definition Rat_Inv :=
  Rat_set1 (fun x => if decide (x = Qc0) then Panic div_by_zero else Ok (Qcanon.Qcinv x)).
Definition Rat_Set := Rat_set1 (fun x => Ok x).

Definition Rat_Cmp (x y : option loc) (h : rheap) : Result Z :=
  vx <- rderef x h ;;;
  vy <- rderef y h ;;;
  Ok (match Qcanon.Qccompare vx vy with Lt => -1 | Eq => 0 | Gt => 1 end).

Definition rwrap (r : Result (option loc * rheap)) : Result (Gop_bigrat * rheap) :=
  ph <- r ;;; Ok (mkBigrat ph.1, ph.2).

(** [a.Gop_Assign(b)]: the receiver is a copy of [a], so that setting its
    pointer would be lost; the value of [b] goes into the rational [a]
    points to. *)
Definition Gop_Assign (a b : Gop_bigrat) (h : rheap) : Result rheap :=
  if Gop_istmp b then Ok h
  else r <- Rat_Set (Rat a) (Rat b) h ;;; Ok r.2.

Definition Gop_Add (a b : Gop_bigrat) (h : rheap) :=
  let '(t, h1) := tmprat a b h in rwrap (Rat_Add (Rat t) (Rat a) (Rat b) h1).
Definition Gop_Sub (a b : Gop_bigrat) (h : rheap) :=
  let '(t, h1) := tmprat a b h in rwrap (Rat_Sub (Rat t) (Rat a) (Rat b) h1).
Definition Gop_Mul (a b : Gop_bigrat) (h : rheap) :=
  let '(t, h1) := tmprat a b h in rwrap (Rat_Mul (Rat t) (Rat a) (Rat b) h1).
Definition Gop_Quo (a b : Gop_bigrat) (h : rheap) :=
  let '(t, h1) := tmprat a b h in rwrap (Rat_Quo (Rat t) (Rat a) (Rat b) h1).
Definition Gop_Neg (a : Gop_bigrat) (h : rheap) :=
  let '(t, h1) := tmprat1 a h in rwrap (Rat_Neg (Rat t) (Rat a) h1).
Definition Gop_Inv (a : Gop_bigrat) (h : rheap) :=
  let '(t, h1) := tmprat1 a h in rwrap (Rat_Inv (Rat t) (Rat a) h1).

Definition Gop_LT (a b : Gop_bigrat) (h : rheap) : Result bool :=
  c <- Rat_Cmp (Rat a) (Rat b) h ;;; Ok (Z.ltb c 0).
Definition Gop_LE (a b : Gop_bigrat) (h : rheap) : Result bool :=
  c <- Rat_Cmp (Rat a) (Rat b) h ;;; Ok (Z.leb c 0).
Definition Gop_GT (a b : Gop_bigrat) (h : rheap) : Result bool :=
  c <- Rat_Cmp (Rat a) (Rat b) h ;;; Ok (Z.gtb c 0).
Definition Gop_GE (a b : Gop_bigrat) (h : rheap) : Result bool :=
  c <- Rat_Cmp (Rat a) (Rat b) h ;;; Ok (Z.geb c 0).
Definition Gop_EQ (a b : Gop_bigrat) (h : rheap) : Result bool :=
  c <- Rat_Cmp (Rat a) (Rat b) h ;;; Ok (Z.eqb c 0).
Definition Gop_NE (a b : Gop_bigrat) (h : rheap) : Result bool :=
  c <- Rat_Cmp (Rat a) (Rat b) h ;;; Ok (negb (Z.eqb c 0)).

(** [return a.Rat == nil] *)
Definition IsNil (a : Gop_bigrat) : bool :=
  match Rat a with None => true | Some _ => false end.

(** The arithmetic operators of [Gop_bigrat] by name. *)
Inductive ratop := RAdd | RSub | RMul | RQuo.

Definition Gop_binary (op : ratop)
  : Gop_bigrat -> Gop_bigrat -> rheap -> Result (Gop_bigrat * rheap) :=
  match op with
  | RAdd => Gop_Add | RSub => Gop_Sub | RMul => Gop_Mul | RQuo => Gop_Quo
  end.

Definition ratop_val (op : ratop) (x y : Qc) : Qc :=
  match op with
  | RAdd => Qcanon.Qcplus x y | RSub => Qcanon.Qcminus x y
  | RMul => Qcanon.Qcmult x y | RQuo => Qcanon.Qcdiv x y
  end.

(** The value of the rational a [Gop_bigrat] points to after a run. *)
Definition ratValue (out : Result (Gop_bigrat * rheap)) : option Qc :=
  match out with
  | Ok (r, h) => match Rat r with Some l => h !! l | None => None end
  | Panic _ => None
  end.

End bigrat.

End Builtin.


(** ** go/token *)

Module token.

(** [token.Pos] is an integer offset; [NoPos] is zero. *)
Definition Pos := Z.
Definition NoPos : Pos := 0.

(** [token.Position]; its zero value is what [nodeInterp] returns. *)
Record Position := mkPosition {
  Filename : string;
  Offset : Z;
  Line : Z;
  Column : Z
}.

Definition zeroPosition : Position := mkPosition "" 0 0 0.

(** The tokens the builder handles, in the order of [go/token]. *)
Inductive Token :=
  | ADD | SUB | MUL | QUO | REM
  | AND | OR | XOR | SHL | SHR | AND_NOT
  | LAND | LOR | ARROW | INC | DEC
  | EQL | LSS | GTR | ASSIGN | NOT
  | NEQ | LEQ | GEQ | DEFINE
  | BREAK | CONTINUE | GOTO.

Definition Token_eqb (a b : Token) : bool :=
  match a, b with
  | ADD, ADD | SUB, SUB | MUL, MUL | QUO, QUO | REM, REM
  | AND, AND | OR, OR | XOR, XOR | SHL, SHL | SHR, SHR | AND_NOT, AND_NOT
  | LAND, LAND | LOR, LOR | ARROW, ARROW | INC, INC | DEC, DEC
  | EQL, EQL | LSS, LSS | GTR, GTR | ASSIGN, ASSIGN | NOT, NOT
  | NEQ, NEQ | LEQ, LEQ | GEQ, GEQ | DEFINE, DEFINE
  | BREAK, BREAK | CONTINUE, CONTINUE | GOTO, GOTO => true
  | _, _ => false
  end.

End token.

(** ** go/types *)

Module types.

(** A [*types.Named] is a location of the store of named types. *)
Definition NamedRef := positive.

Inductive BasicKind :=
  | Bool | Int | Int8 | Int16 | Int32 | Int64
  | Uint | Uint8 | Uint16 | Uint32 | Uint64 | Uintptr
  | Float32 | Float64 | Complex64 | Complex128
  | String | UnsafePointer
  | UntypedBool | UntypedInt | UntypedRune | UntypedFloat
  | UntypedComplex | UntypedString | UntypedNil.

(** The type variants of [go/types] that the builder inspects, and the
    builder's own [refType] (an L-value of the wrapped type). A struct field,
    a parameter and a tuple member are a name with a type. *)
Inductive type :=
  | Basic (kind : BasicKind)
  | Array (elem : type) (len : Z)
  | Slice (elem : type)
  | Map (key elem : type)
  | Chan (dir : Z) (elem : type)
  | Pointer (elem : type)
  | Struct (fields : list (string * type))
  | Interface (methods : list (string * type))
  | Signature (recv : option (string * type)) (params results : list (string * type))
      (variadic : bool)
  | Named (ref : NamedRef)
  | Tuple (vars : list (string * type))
  | refType (typ : type).

(** [*types.Var]: the pointer is the identity [var_id]. *)
Record Var := mkVar {
  var_id : positive;
  var_name : string;
  var_type : type
}.

(** [*types.Func], a method of a named type or a package-level function. *)
Record Func := mkFunc {
  func_name : string;
  func_type : type
}.

(** What a [*types.Named] points to. [underlying] is [None] until the named
    type is loaded. *)
Record NamedObj := mkNamed {
  named_name : string;
  underlying : option type;
  methods : list Func
}.

(** An object of a scope: its name and type. *)
Record Object := mkObject {
  obj_name : string;
  obj_type : type
}.

(** [types.Scope]: the parent link, the comment given to [NewScope] and the
    objects inserted so far. *)
Inductive Scope :=
  | mkScope (parent : option Scope) (comment : string) (elems : list Object).

Definition scope_elems (s : Scope) : list Object :=
  match s with mkScope _ _ es => es end.

Definition NewScope (parent : Scope) (comment : string) : Scope :=
  mkScope (Some parent) comment [].

Definition Scope_Lookup (s : Scope) (name : string) : option Object :=
  List.find (fun o => String.eqb (obj_name o) name) (scope_elems s).

(** [Insert] returns the previous occupant, if any, and leaves the scope as
    it was in that case. *)
Definition Scope_Insert (s : Scope) (o : Object) : Scope * option Object :=
  match Scope_Lookup s (obj_name o) with
  | Some old => (s, Some old)
  | None =>
      match s with
      | mkScope p c es => (mkScope p c (es ++ [o]), None)
      end
  end.

End types.

(** ** go/ast and go/constant *)

Module ast.

(** A node of the driver's source tree, used for diagnostics only. *)
Definition Node := nat.

Definition CommentGroup := list string.

(** [NilExpr] is the nil [ast.Expr]. *)
Inductive Expr :=
  | NilExpr
  | Ident (name : string)
  | BasicLit (value : string)
  | SelectorExpr (x : Expr) (sel : string)
  | BinaryExpr (x : Expr) (op : token.Token) (y : Expr)
  | KeyValueExpr (key value : Expr)
  | CompositeLit (typ : Expr) (elts : list Expr)
  | CallExpr (fn : Expr) (args : list Expr)
  | TypeExpr (t : types.type).

(** [*ast.LabeledStmt] is the [LabeledStmt] constructor; its [Stmt] field is
    nil between [Label] and the statement that fills it. *)
Inductive Stmt :=
  | EmptyStmt
  | ExprStmt (x : Expr)
  | AssignStmt (tok : token.Token) (lhs rhs : list Expr)
  | BlockStmt (list : list Stmt)
  | LabeledStmt (label : string) (stmt : option Stmt)
  | BranchStmt (tok : token.Token) (label : option string)
  | ReturnStmt (results : list Expr).

End ast.

Module constant.

Inductive Value :=
  | Int (v : Z)
  | Bool (b : bool)
  | String (s : string).

(** [constant.Int64Val]: the value and whether it fits an int64. *)
Definition Int64Val (v : Value) : Z * bool :=
  match v with
  | Int z => if (Z.leb (- 2 ^ 63) z && Z.ltb z (2 ^ 63))%bool then (z, true) else (0, false)
  | _ => (0, false)
  end.

End constant.

(** ** internal: the operands and their stack *)

Module internal.

(** [internal.Elem]: every field may be nil ([ast.NilExpr] for [Val]). *)
Record Elem := mkElem {
  Val : ast.Expr;
  Type_ : option types.type;
  CVal : option constant.Value;
  Src : option ast.Node
}.

(** Modelled from the spec: the operand stack [internal.Stack], whose file
    is not among the sources. A LIFO sequence of operands with [push], [pop],
    [popN], [getArgs], [ret], [len] and [setLen]; the top is the end of the
    list, so that [GetArgs n] lists the top [n] operands in push order. An
    operation that needs more operands than there are panics. *)
Record Stack := mkStack { data : list Elem }.

Definition Init : Stack := mkStack [].

Definition Len (s : Stack) : Z := Z.of_nat (length (data s)).

Definition Push (e : Elem) (s : Stack) : Stack := mkStack (data s ++ [e]).

Definition in_range (n : Z) (s : Stack) : bool :=
  (Z.leb 0 n && Z.leb n (Len s))%bool.

Definition PopN (n : Z) (s : Stack) : Res string Stack :=
  if in_range n s then Ok (mkStack (take (Z.to_nat (Len s - n)) (data s)))
  else Panic "slice bounds out of range".

Definition GetArgs (n : Z) (s : Stack) : Res string (list Elem) :=
  if in_range n s then Ok (drop (Z.to_nat (Len s - n)) (data s))
  else Panic "slice bounds out of range".

Definition Pop (s : Stack) : Res string (Elem * Stack) :=
  match last (data s) with
  | Some e => Ok (e, mkStack (take (length (data s) - 1) (data s)))
  | None => Panic "index out of range"
  end.

Definition Ret (arity : Z) (ret : Elem) (s : Stack) : Res string Stack :=
  s' <- PopN arity s ;;; Ok (Push ret s').

(** [SetLen n] cuts the stack down to [n] operands. The spec gives it for
    block close and error recovery only; what a length above the current one
    does is left to [regrow] (a Go slice would show its backing array again,
    up to its capacity). *)
Definition SetLen (regrow : Stack -> Z -> Res string Stack) (n : Z) (s : Stack)
  : Res string Stack :=
  if in_range n s then Ok (mkStack (take (Z.to_nat n) (data s)))
  else regrow s n.

End internal.


(** ** The code builder: its state *)

(** [type Label struct { types.Label; used bool }] *)
Record Label := mkLabel {
  label_pos : token.Pos;
  label_name : string;
  used : bool
}.

(** A [*Label] is a location of the store of labels. *)
Definition LabelRef := positive.

(** [*Func] of the builder: the [types.Func] it embeds, the pointer identity
    [fn_id], and its position, which for a closure holds the closure kind
    (see [makeInlineCall]). Its [old] field is kept with the block, in
    [funcBlock]. *)
Record Func := mkGoxFunc {
  fn_id : nat;
  fn_obj : types.Func;
  fn_pos : token.Pos
}.

(** The block contexts. [codeBlock] is the interface value; of its
    implementations the plain block and the function body are embedded. Each
    keeps the context that was current when it was opened ([old]). *)
Inductive codeBlock :=
  | blockStmt (old : codeBlockCtx)
  | funcBlock (fn : Func) (old : funcBodyCtx)
with codeBlockCtx :=
  | mkCodeBlockCtx (codeBlock_ : option codeBlock) (scope : types.Scope)
      (base : Z) (stmts : list ast.Stmt)
      (label : option (string * option ast.Stmt)) (flows : Z)
with funcBodyCtx :=
  | mkFuncBodyCtx (ctx : codeBlockCtx) (fn : option Func)
      (labels : gmap string LabelRef).

Definition cb_codeBlock (c : codeBlockCtx) := match c with mkCodeBlockCtx b _ _ _ _ _ => b end.
Definition cb_scope (c : codeBlockCtx) := match c with mkCodeBlockCtx _ s _ _ _ _ => s end.
Definition cb_base (c : codeBlockCtx) := match c with mkCodeBlockCtx _ _ b _ _ _ => b end.
Definition cb_stmts (c : codeBlockCtx) := match c with mkCodeBlockCtx _ _ _ s _ _ => s end.
Definition cb_label (c : codeBlockCtx) := match c with mkCodeBlockCtx _ _ _ _ l _ => l end.
Definition cb_flows (c : codeBlockCtx) := match c with mkCodeBlockCtx _ _ _ _ _ f => f end.

Definition fb_ctx (f : funcBodyCtx) := match f with mkFuncBodyCtx c _ _ => c end.
Definition fb_fn (f : funcBodyCtx) := match f with mkFuncBodyCtx _ fn _ => fn end.
Definition fb_labels (f : funcBodyCtx) := match f with mkFuncBodyCtx _ _ l => l end.

Definition flowFlagBreak : Z := 1.
Definition flowFlagContinue : Z := 2.
Definition flowFlagReturn : Z := 4.
Definition flowFlagGoto : Z := 8.
Definition flowFlagWithLabel : Z := 16.

Record CodeError := mkCodeError {
  Msg : string;
  Pos : option token.Position;
  Scope : types.Scope;
  Func_ : option Func
}.

(** What a panic of the builder carries: a string ([panic("...")],
    [log.Panicln]), an error value, or a run-time error of Go itself. *)
Inductive PanicValue :=
  | PanicString (s : string)
  | PanicError (e : CodeError)
  | PanicErr (msg : string)
  | PanicRuntime (s : string).

Abbreviation Result := (Res PanicValue).

Definition runtime {A} (r : Res string A) : Result A :=
  match r with
  | Ok a => Ok a
  | Panic s => Panic (PanicRuntime s)
  end.

Definition nil_deref {A} : Result A :=
  Panic (PanicRuntime "invalid memory address or nil pointer dereference").

(** [NodeInterpreter], the collaborator that reports positions. *)
Record NodeInterpreter := mkInterp {
  Position : token.Pos -> token.Position;
  Caller : ast.Node -> string;
  LoadExpr : ast.Node -> string * token.Position
}.

(** [type nodeInterp struct{}] and its three methods. *)
Definition nodeInterp : NodeInterpreter :=
  mkInterp (fun _ => token.zeroPosition)
           (fun _ => "the function call")
           (fun _ => ("", token.zeroPosition)).

(** The part of [Package] the instructions read: the scope of the builtin
    package, and the comments attached to statements. *)
Record Package := mkPackage {
  builtin : gmap string types.Object;
  stmtComments : list (ast.Stmt * ast.CommentGroup)
}.

(** The key of [paramInsts]: [closureParamInst{inst, param}]. The
    [*types.Var] of a signature is identified by its place in it: [None] is
    the nil parameter (the ending label), [(false, i)] the i-th parameter and
    [(true, i)] the i-th result. *)
Definition closureParamInst : Type := nat * option (bool * nat).

(** [LoadNamedFunc]: the driver's callback; it can only change the named
    types. *)
Definition LoadNamedFunc : Type :=
  Package -> types.NamedRef -> gmap types.NamedRef types.NamedObj ->
  gmap types.NamedRef types.NamedObj.

(** [CodeBuilder]. After the fields of the Go struct come the objects the
    builder reaches through pointers ([nameds], [labelObjs]) and two traces of
    its calls into the driver: the errors passed to [handleErr] and the named
    types passed to [loadNamed], oldest first. *)
Record CodeBuilder := mkCodeBuilder {
  stk : internal.Stack;
  current : funcBodyCtx;
  comments : option ast.CommentGroup;
  pkg : Package;
  interp : NodeInterpreter;
  loadNamed : LoadNamedFunc;
  handleErr : CodeError -> Result unit;
  paramInsts : gmap closureParamInst types.Var;
  commentOnce : bool;
  nameds : gmap types.NamedRef types.NamedObj;
  labelObjs : gmap LabelRef Label;
  reported : list CodeError;
  loaded : list types.NamedRef
}.

Definition set_stk (s : internal.Stack) (p : CodeBuilder) : CodeBuilder :=
  mkCodeBuilder s (current p) (comments p) (pkg p) (interp p) (loadNamed p)
    (handleErr p) (paramInsts p) (commentOnce p) (nameds p) (labelObjs p)
    (reported p) (loaded p).

Definition set_current (c : funcBodyCtx) (p : CodeBuilder) : CodeBuilder :=
  mkCodeBuilder (stk p) c (comments p) (pkg p) (interp p) (loadNamed p)
    (handleErr p) (paramInsts p) (commentOnce p) (nameds p) (labelObjs p)
    (reported p) (loaded p).

Definition set_comments (c : option ast.CommentGroup) (p : CodeBuilder) : CodeBuilder :=
  mkCodeBuilder (stk p) (current p) c (pkg p) (interp p) (loadNamed p)
    (handleErr p) (paramInsts p) (commentOnce p) (nameds p) (labelObjs p)
    (reported p) (loaded p).

Definition set_pkg (k : Package) (p : CodeBuilder) : CodeBuilder :=
  mkCodeBuilder (stk p) (current p) (comments p) k (interp p) (loadNamed p)
    (handleErr p) (paramInsts p) (commentOnce p) (nameds p) (labelObjs p)
    (reported p) (loaded p).

Definition set_paramInsts (m : gmap closureParamInst types.Var) (p : CodeBuilder) : CodeBuilder :=
  mkCodeBuilder (stk p) (current p) (comments p) (pkg p) (interp p) (loadNamed p)
    (handleErr p) m (commentOnce p) (nameds p) (labelObjs p)
    (reported p) (loaded p).

Definition set_nameds (m : gmap types.NamedRef types.NamedObj) (p : CodeBuilder) : CodeBuilder :=
  mkCodeBuilder (stk p) (current p) (comments p) (pkg p) (interp p) (loadNamed p)
    (handleErr p) (paramInsts p) (commentOnce p) m (labelObjs p)
    (reported p) (loaded p).

Definition set_labelObjs (m : gmap LabelRef Label) (p : CodeBuilder) : CodeBuilder :=
  mkCodeBuilder (stk p) (current p) (comments p) (pkg p) (interp p) (loadNamed p)
    (handleErr p) (paramInsts p) (commentOnce p) (nameds p) m
    (reported p) (loaded p).

Definition set_reported (l : list CodeError) (p : CodeBuilder) : CodeBuilder :=
  mkCodeBuilder (stk p) (current p) (comments p) (pkg p) (interp p) (loadNamed p)
    (handleErr p) (paramInsts p) (commentOnce p) (nameds p) (labelObjs p)
    l (loaded p).

Definition set_loaded (l : list types.NamedRef) (p : CodeBuilder) : CodeBuilder :=
  mkCodeBuilder (stk p) (current p) (comments p) (pkg p) (interp p) (loadNamed p)
    (handleErr p) (paramInsts p) (commentOnce p) (nameds p) (labelObjs p)
    (reported p) l.

(** Short names for the fields of [p.current]. *)
Definition cur (p : CodeBuilder) : codeBlockCtx := fb_ctx (current p).
Definition cur_fn (p : CodeBuilder) : option Func := fb_fn (current p).
Definition cur_labels (p : CodeBuilder) : gmap string LabelRef := fb_labels (current p).

Definition set_cur (c : codeBlockCtx) (p : CodeBuilder) : CodeBuilder :=
  set_current (mkFuncBodyCtx c (cur_fn p) (cur_labels p)) p.

Definition set_cur_fn (f : option Func) (p : CodeBuilder) : CodeBuilder :=
  set_current (mkFuncBodyCtx (cur p) f (cur_labels p)) p.

Definition set_cur_labels (l : gmap string LabelRef) (p : CodeBuilder) : CodeBuilder :=
  set_current (mkFuncBodyCtx (cur p) (cur_fn p) l) p.

Definition set_stmts (s : list ast.Stmt) (c : codeBlockCtx) : codeBlockCtx :=
  mkCodeBlockCtx (cb_codeBlock c) (cb_scope c) (cb_base c) s (cb_label c) (cb_flows c).

Definition set_label (l : option (string * option ast.Stmt)) (c : codeBlockCtx) : codeBlockCtx :=
  mkCodeBlockCtx (cb_codeBlock c) (cb_scope c) (cb_base c) (cb_stmts c) l (cb_flows c).

Definition set_flows (f : Z) (c : codeBlockCtx) : codeBlockCtx :=
  mkCodeBlockCtx (cb_codeBlock c) (cb_scope c) (cb_base c) (cb_stmts c) (cb_label c) f.

Definition set_scope (s : types.Scope) (c : codeBlockCtx) : codeBlockCtx :=
  mkCodeBlockCtx (cb_codeBlock c) s (cb_base c) (cb_stmts c) (cb_label c) (cb_flows c).

(** [defaultHandleErr]: [panic(err)]. *)
Definition defaultHandleErr (err : CodeError) : Result unit :=
  Panic (PanicError err).

(** [defaultLoadNamed]: no delay-loaded named types. *)
Definition defaultLoadNamed : LoadNamedFunc := fun _ _ m => m.

(** The values the driver hands to [Val]. *)
Inductive value :=
  | ValNil
  | ValVar (v : types.Var)
  | ValObject (o : types.Object)
  | ValInt (z : Z)
  | ValString (s : string)
  | ValBool (b : bool).

Definition InstrFlags := Z.

(** Modelled from the spec: [TyEmptyInterface], which is not declared among
    the sources; the spec names the default map literal type
    [map[string]interface{}], so it is the interface with no method. *)
Definition TyEmptyInterface : types.type := types.Interface [].


(** ** Concrete collaborators and builders

    Simple stand-ins for the parameters of the next section, and small
    builder states, on which the instructions can be run. *)

(** Comments are kept with their statement. *)
Definition demo_setStmtComments (k : Package) (stmt : ast.Stmt) (c : ast.CommentGroup) : Package :=
  mkPackage (builtin k) (stmtComments k ++ [(stmt, c)]).

(** A stack that can always be made longer: the new places hold empty operands. *)
Definition demo_regrow (s : internal.Stack) (n : Z) : Res string internal.Stack :=
  if Z.ltb (internal.Len s) n
  then Ok (internal.mkStack
             (internal.data s
              ++ replicate (Z.to_nat (n - internal.Len s))
                   (internal.mkElem ast.NilExpr None None None)))
  else Panic "slice bounds out of range".

Definition demo_typeString (t : option types.type) : string :=
  match t with
  | None => "<nil>"
  | Some (types.Basic types.Int) => "int"
  | Some (types.Basic types.String) => "string"
  | Some (types.Named r) => "T" +:+ pretty (Zpos r)
  | Some (types.Struct _) => "struct{...}"
  | Some _ => "?"
  end.

Definition demo_toExpr (k : Package) (v : value) (src : option ast.Node)
  : Result internal.Elem :=
  match v with
  | ValNil => Ok (internal.mkElem (ast.Ident "nil") (Some (types.Basic types.UntypedNil)) None src)
  | ValVar x => Ok (internal.mkElem (ast.Ident (types.var_name x)) (Some (types.var_type x)) None src)
  | ValObject o => Ok (internal.mkElem (ast.Ident (types.obj_name o)) (Some (types.obj_type o)) None src)
  | ValInt z => Ok (internal.mkElem (ast.BasicLit (pretty z)) (Some (types.Basic types.UntypedInt))
                      (Some (constant.Int z)) src)
  | ValString s => Ok (internal.mkElem (ast.BasicLit s) (Some (types.Basic types.UntypedString))
                         (Some (constant.String s)) src)
  | ValBool b => Ok (internal.mkElem (ast.Ident (if b then "true" else "false"))
                       (Some (types.Basic types.UntypedBool)) (Some (constant.Bool b)) src)
  end.

Definition demo_closureFlagInline : Z := 2 ^ 30.

Definition demo_isInline (fn : Func) : bool :=
  negb (Z.eqb (Z.land (fn_pos fn) demo_closureFlagInline) 0).

Definition demo_getParamLen (sig : types.type) : Z :=
  match sig with
  | types.Signature _ params _ _ => Z.of_nat (length params)
  | _ => 0
  end.

Definition demo_endFuncDecl (fn : Func) (old : funcBodyCtx) (p : CodeBuilder)
  : Result CodeBuilder :=
  Panic (PanicString "not an inline call").

(** The call is not built: its callee is returned, which shows the function
    an operator was resolved to. *)
Definition demo_matchFuncCall (k : Package) (fn : internal.Elem) (args : list internal.Elem)
    (flags : InstrFlags) : Result (internal.Elem + string) :=
  Ok (inl fn).

Definition demo_toObject (k : Package) (o : types.Object) (src : option ast.Node) : internal.Elem :=
  internal.mkElem (ast.Ident (types.obj_name o)) (Some (types.obj_type o)) None src.

Definition demo_ComparableTo (k : Package) (a b : internal.Elem) : bool := true.

Definition demo_binaryOp (p : CodeBuilder) (op : token.Token) (args : list internal.Elem)
  : option constant.Value := None.

Definition demo_toNamedType (k : Package) (r : types.NamedRef) : ast.Expr :=
  ast.Ident ("T" +:+ pretty (Zpos r)).

Definition demo_toType (k : Package) (t : types.type) : ast.Expr := ast.TypeExpr t.

(** Any typed operand is accepted. *)
Definition demo_AssignableTo (k : Package) (V : option types.type) (T : types.type) : bool :=
  match V with Some _ => true | None => false end.

Definition demo_boundElementType (k : Package) (args : list internal.Elem) (i j d : Z)
  : types.type := TyEmptyInterface.

Definition demo_checkAssignType (k : Package) (V : option types.type) (x : internal.Elem)
  : Result unit := Ok tt.

Definition intType : types.type := types.Basic types.Int.

(** The signature of an operator on two values of the named type [r]. *)
Definition opSignature (r : types.NamedRef) : types.type :=
  types.Signature None [("a", types.Named r); ("b", types.Named r)] [("", types.Named r)] false.

(** A package whose builtin scope has [Gop_Add]. *)
Definition demo_pkg : Package :=
  mkPackage {[ "Gop_Add" := types.mkObject "Gop_Add" (opSignature 1%positive) ]} [].

Definition universe : types.Scope := types.mkScope None "universe" [].

Definition demo_ctx : codeBlockCtx := mkCodeBlockCtx None universe 0 [] None 0.

(** A builder right after [init], with a handler that returns. *)
Definition demo_cb : CodeBuilder :=
  mkCodeBuilder internal.Init (mkFuncBodyCtx demo_ctx None ∅) None demo_pkg nodeInterp
    defaultLoadNamed (fun _ => Ok tt) ∅ false ∅ ∅ [] [].

(** Two named types: [T1] has no method, [T2] has the method [Gop_Add]. *)
Definition demo_nameds : gmap types.NamedRef types.NamedObj :=
  <[2%positive := types.mkNamed "T2" (Some intType)
                    [types.mkFunc "Gop_Add" (opSignature 2%positive)]]>
  (<[1%positive := types.mkNamed "T1" (Some intType) []]> ∅).

Definition demo_x : internal.Elem :=
  internal.mkElem (ast.Ident "x") (Some (types.Named 1%positive)) None None.

Definition demo_y : internal.Elem :=
  internal.mkElem (ast.Ident "y") (Some (types.Named 2%positive)) None None.

(** The operands [x] of type [T1] and [y] of type [T2] are on the stack. *)
Definition demo_ops_cb : CodeBuilder :=
  set_nameds demo_nameds (set_stk (internal.mkStack [demo_x; demo_y]) demo_cb).

(** The same with [y] first. *)
Definition demo_ops_cb' : CodeBuilder :=
  set_nameds demo_nameds (set_stk (internal.mkStack [demo_y; demo_x]) demo_cb).

(** A struct type with the one field [x int]. *)
Definition demo_struct : types.type := types.Struct [("x", intType)].

Definition demo_one : internal.Elem :=
  internal.mkElem (ast.BasicLit "1") (Some intType) (Some (constant.Int 1)) None.

(** An inline call of a closure [func() int], with no argument: the closure
    and the variable that stands for its result. *)
Definition demo_closure : Func :=
  mkGoxFunc 1 (types.mkFunc "" (types.Signature None [] [("", intType)] false))
    (Z.lor demo_closureFlagInline 0).

Definition demo_inline_cb : CodeBuilder :=
  set_paramInsts {[ (1%nat, Some (true, 0%nat)) := types.mkVar 1 "_autoGo_1" intType ]} demo_cb.

(** A function body with the label [L], which nothing uses. *)
Definition demo_fn : Func :=
  mkGoxFunc 2 (types.mkFunc "f" (types.Signature None [] [] false)) 0.

Definition demo_L : Label := mkLabel 7 "L" false.

Definition demo_label_cb : CodeBuilder :=
  set_labelObjs {[ 1%positive := demo_L ]}
    (set_current (mkFuncBodyCtx demo_ctx (Some demo_fn) {[ "L" := 1%positive ]}) demo_cb).

(** The call [f()] of a function with three results. *)
Definition demo_call3 : internal.Elem :=
  internal.mkElem (ast.CallExpr (ast.Ident "f") [])
    (Some (types.Tuple [("", intType); ("", intType); ("", intType)])) None (Some 5%nat).

Definition demo_call2 : internal.Elem :=
  internal.mkElem (ast.CallExpr (ast.Ident "f") [])
    (Some (types.Tuple [("", intType); ("", intType)])) None (Some 5%nat).

Definition demo_var (name : string) : internal.Elem :=
  internal.mkElem (ast.Ident name) (Some (types.refType intType)) None None.

(** An interpreter that calls every source node [f]. *)
Definition demo_interp : NodeInterpreter :=
  mkInterp (fun _ => token.zeroPosition) (fun _ => "f") (fun _ => ("", token.zeroPosition)).

Definition demo_assign_cb (rhs : internal.Elem) : CodeBuilder :=
  mkCodeBuilder (internal.mkStack [demo_var "x"; demo_var "y"; rhs])
    (mkFuncBodyCtx demo_ctx None ∅) None demo_pkg demo_interp
    defaultLoadNamed (fun _ => Ok tt) ∅ false ∅ ∅ [] [].

(** A named type that is not loaded yet, and a callback that loads it. *)
Definition demo_lazy_nameds : gmap types.NamedRef types.NamedObj :=
  {[ 1%positive := types.mkNamed "T1" None [] ]}.

Definition demo_loadNamed : LoadNamedFunc :=
  fun _ t m => alter (fun o => types.mkNamed (types.named_name o) (Some demo_struct)
                                 (types.methods o)) t m.

Definition demo_lazy_cb : CodeBuilder :=
  mkCodeBuilder internal.Init (mkFuncBodyCtx demo_ctx None ∅) None demo_pkg nodeInterp
    demo_loadNamed (fun _ => Ok tt) ∅ false demo_lazy_nameds ∅ [] [].

(** Statements [a], [b], ... and a block that holds three of them. *)
Definition demo_stmt (name : string) : ast.Stmt := ast.ExprStmt (ast.Ident name).

Definition demo_stmts_cb : CodeBuilder :=
  set_cur (set_stmts [demo_stmt "a"; demo_stmt "b"; demo_stmt "c"] demo_ctx) demo_cb.

(** Two operands on the stack. *)
Definition demo_two_cb : CodeBuilder :=
  set_stk (internal.mkStack [demo_one; demo_one]) demo_cb.

(** A block in which the label [L] waits for its statement. *)
Definition demo_pending_cb : CodeBuilder :=
  set_cur (set_label (Some ("L", None)) demo_ctx) demo_cb.

Definition demo_positionString (pos : token.Position) : string := "-".

(** The integer constant [i] as an operand. *)
Definition demo_key (i : Z) : internal.Elem :=
  internal.mkElem (ast.BasicLit (pretty i)) (Some intType) (Some (constant.Int i)) None.

(** An operand without a type, which [demo_AssignableTo] refuses. *)
Definition demo_untyped : internal.Elem :=
  internal.mkElem (ast.Ident "u") None None None.

Definition demo_AssignableConv (k : Package) (V : option types.type) (T : types.type)
    (x : internal.Elem) : bool :=
  demo_AssignableTo k V T.

(** A pointer to a pointer to [T2]. *)
Definition demo_ppy : internal.Elem :=
  internal.mkElem (ast.Ident "ppy")
    (Some (types.Pointer (types.Pointer (types.Named 2%positive)))) None None.

(** A string operand. *)
Definition demo_str (s : string) : internal.Elem :=
  internal.mkElem (ast.BasicLit s) (Some (types.Basic types.String))
    (Some (constant.String s)) None.

(** A struct type with the fields [x int] and [y int]. *)
Definition demo_struct2 : types.type := types.Struct [("x", intType); ("y", intType)].

(** A store of big integers: 6 at 1, 4 at 2 and 3 at 3. *)
Definition demo_heap : gmap positive Z :=
  <[3%positive := 3]> (<[2%positive := 4]> (<[1%positive := 6]> ∅)).

Definition demo_bigint (l : positive) : Builtin.Gop_bigint := Builtin.mkBigint (Some l).

(** The integer [z] as a rational. *)
Definition demo_Qc (z : Z) : Qcanon.Qc := Qcanon.Q2Qc (QArith_base.inject_Z z).

(** A store of rationals: 6 at 1 and 4 at 2. *)
Definition demo_rheap : gmap positive Qcanon.Qc :=
  <[2%positive := demo_Qc 4]> (<[1%positive := demo_Qc 6]> ∅).

Definition demo_bigrat (l : positive) : Builtin.bigrat.Gop_bigrat :=
  Builtin.bigrat.mkBigrat (Some l).

(** A method [func (r T1) m(a int, _ int, a string) (err string)]: one
    parameter has no name and two share the name [a]. *)
Definition demo_method : Func :=
  mkGoxFunc 3
    (types.mkFunc "m"
       (types.Signature (Some ("r", types.Named 1%positive))
          [("a", intType); ("", intType); ("a", types.Basic types.String)]
          [("err", types.Basic types.String)] false))
    0.

(** ** The code builder: its instructions *)

Section Builder.

(** Functions and constants that the sources use and do not define, from
    other files of the repository and from Go's libraries, are parameters. *)

(** The global [debugInstr]. *)
Variable debugInstr : bool.
(** [goxPrefix], the marker that starts the name of an operator method. *)
Variable goxPrefix : string.
(** [closureFlagInline], the bit of a closure's position that marks an inline call. *)
Variable closureFlagInline : Z.
(** What [SetLen] does above the current length (see [internal.SetLen]):
    when it returns, the stack has the length asked for. *)
Variable regrow : internal.Stack -> Z -> Res string internal.Stack.
Hypothesis regrow_len :
  forall (s s' : internal.Stack) (n : Z), regrow s n = Ok s' -> internal.Len s' = n.
(** The order in which Go's [range] visits a map of labels: every entry
    once, in some order. *)
Variable rangeLabels : gmap string LabelRef -> list (string * LabelRef).
Hypothesis rangeLabels_perm :
  forall m : gmap string LabelRef, rangeLabels m ≡ₚ map_to_list m.
(** [%v] of a type. *)
Variable typeString : option types.type -> string.
(** [Package.setStmtComments]. *)
Variable setStmtComments : Package -> ast.Stmt -> ast.CommentGroup -> Package.
(** [toExpr], which turns a driver value into an operand. *)
Variable toExpr : Package -> value -> option ast.Node -> Result internal.Elem.
(** [%v] of a position. *)
Variable positionString : token.Position -> string.
(** [Func.isInline]. *)
Variable isInline : Func -> bool.
(** [getParamLen] of a signature. *)
Variable getParamLen : types.type -> Z.
(** [Func.End] of a function that is not an inline call. *)
Variable endFuncDecl : Func -> funcBodyCtx -> CodeBuilder -> Result CodeBuilder.

(** *** Positions and errors *)

Definition position (p : CodeBuilder) (pos : token.Pos) : token.Position :=
  Position (interp p) pos.

Definition nodePosition (p : CodeBuilder) (expr : option ast.Node) : token.Position :=
  match expr with
  | None => token.zeroPosition
  | Some e => (LoadExpr (interp p) e).2
  end.

Definition getCaller (p : CodeBuilder) (expr : option ast.Node) : string :=
  match expr with
  | None => ""
  | Some e => Caller (interp p) e
  end.

Definition loadExpr (p : CodeBuilder) (expr : option ast.Node) : string * token.Position :=
  match expr with
  | None => ("", token.zeroPosition)
  | Some e => LoadExpr (interp p) e
  end.

Definition newCodeError (p : CodeBuilder) (pos : option token.Position) (msg : string) : CodeError :=
  mkCodeError msg pos (cb_scope (cur p)) (cur_fn p).

Definition newCodePosError (p : CodeBuilder) (pos : token.Pos) (msg : string) : CodeError :=
  mkCodeError msg (Some (position p pos)) (cb_scope (cur p)) (cur_fn p).

(** [panicCodeErrorf(&pos, format, args...)], with the formatted message. *)
Definition panicCodeError {A} (p : CodeBuilder) (pos : token.Position) (msg : string) : Result A :=
  Panic (PanicError (newCodeError p (Some pos) msg)).

Definition panicCodePosError {A} (p : CodeBuilder) (pos : token.Pos) (msg : string) : Result A :=
  Panic (PanicError (newCodePosError p pos msg)).

(** [p.handleErr(err)]: the call is recorded, then the handler runs; when it
    panics, so does the builder. *)
Definition callHandleErr (err : CodeError) (p : CodeBuilder) : Result CodeBuilder :=
  _ <- handleErr p err ;;; Ok (set_reported (reported p ++ [err]) p).

(** *** Statements and blocks *)

Definition emitStmt (stmt : ast.Stmt) (p : CodeBuilder) : CodeBuilder :=
  let p1 :=
    match comments p with
    | Some c =>
        let p' := set_pkg (setStmtComments (pkg p) stmt c) p in
        if commentOnce p' then set_comments None p' else p'
    | None => p
    end in
  let stmt' :=
    match cb_label (cur p1) with
    | Some (name, _) => ast.LabeledStmt name (Some stmt)
    | None => stmt
    end in
  set_cur (set_stmts (cb_stmts (cur p1) ++ [stmt']) (set_label None (cur p1))) p1.

(** [startBlockStmt(current, comment, old)]: [old] points into [current],
    so [current] is given as the block that keeps the old context. *)
Definition startBlockStmt (current_ : codeBlockCtx -> codeBlock) (comment : string)
    (p : CodeBuilder) : CodeBuilder :=
  let scope := types.NewScope (cb_scope (cur p)) comment in
  set_cur (mkCodeBlockCtx (Some (current_ (cur p))) scope (internal.Len (stk p)) [] None 0) p.

Definition endBlockStmt (old : codeBlockCtx) (p : CodeBuilder)
  : Result (list ast.Stmt * Z * CodeBuilder) :=
  let flows := cb_flows (cur p) in
  let p1 := match cb_label (cur p) with
            | Some _ => emitStmt ast.EmptyStmt p
            | None => p
            end in
  let stmts := cb_stmts (cur p1) in
  s <- runtime (internal.SetLen regrow (cb_base (cur p1)) (stk p1)) ;;;
  Ok (stmts, flows, set_cur old (set_stk s p1)).

Definition clearBlockStmt (p : CodeBuilder) : list ast.Stmt * CodeBuilder :=
  (cb_stmts (cur p), set_cur (set_stmts [] (cur p)) p).

(** [insertParams]: the named members of a tuple go into the scope. *)
Definition insertParams (scope : types.Scope) (params : list (string * types.type)) : types.Scope :=
  fold_left
    (fun sc v => if String.eqb v.1 "" then sc
                 else (types.Scope_Insert sc (types.mkObject v.1 v.2)).1)
    params scope.

(** The type of [fn], asserted to be a signature. *)
Definition signatureOf (fn : Func) : Result types.type :=
  match types.func_type (fn_obj fn) with
  | types.Signature _ _ _ _ as sig => Ok sig
  | _ => Panic (PanicRuntime "interface conversion: types.Type is not a Signature")
  end.

Definition sigParams (sig : types.type) : list (string * types.type) :=
  match sig with types.Signature _ ps _ _ => ps | _ => [] end.

Definition sigResults (sig : types.type) : list (string * types.type) :=
  match sig with types.Signature _ _ rs _ => rs | _ => [] end.

Definition sigRecv (sig : types.type) : option (string * types.type) :=
  match sig with types.Signature r _ _ _ => r | _ => None end.

(** [startFuncBody(fn, old)] saves the current function and block context in
    [old]; the labels of the builder are neither saved nor reset. *)
Definition startFuncBody (fn : Func) (p : CodeBuilder) : Result CodeBuilder :=
  let old := mkFuncBodyCtx (cur p) (cur_fn p) ∅ in
  let p1 := set_cur_fn (Some fn) p in
  let p2 := startBlockStmt (fun _ => funcBlock fn old)
              ("func " +:+ types.func_name (fn_obj fn)) p1 in
  sig <- signatureOf fn ;;;
  let scope := insertParams (insertParams (cb_scope (cur p2)) (sigParams sig)) (sigResults sig) in
  let scope' := match sigRecv sig with
                | Some recv => (types.Scope_Insert scope (types.mkObject recv.1 recv.2)).1
                | None => scope
                end in
  Ok (set_cur (set_scope scope' (cur p2)) p2).

(** *** Labels *)

Definition labelUnusedMsg (name : string) : string :=
  "label " +:+ name +:+ " defined and not used".

(** [checkLabels]: one round of the [range] loop for the entry [(name, l)]. *)
Definition checkLabel (entry : string * LabelRef) (p : CodeBuilder) : Result CodeBuilder :=
  match labelObjs p !! entry.2 with
  | None => nil_deref
  | Some l =>
      if negb (used l)
      then callHandleErr (newCodePosError p (label_pos l) (labelUnusedMsg entry.1)) p
      else Ok p
  end.

Fixpoint checkLabelsIn (entries : list (string * LabelRef)) (p : CodeBuilder)
  : Result CodeBuilder :=
  match entries with
  | [] => Ok p
  | e :: rest => p' <- checkLabel e p ;;; checkLabelsIn rest p'
  end.

Definition checkLabels (p : CodeBuilder) : Result CodeBuilder :=
  checkLabelsIn (rangeLabels (cur_labels p)) p.

Definition endFuncBody (old : funcBodyCtx) (p : CodeBuilder)
  : Result (list ast.Stmt * CodeBuilder) :=
  p1 <- checkLabels p ;;;
  let p2 := set_cur_fn (fb_fn old) p1 in
  r <- endBlockStmt (fb_ctx old) p2 ;;;
  Ok (r.1.1, r.2).

Definition NewLabel (pos : token.Pos) (name : string) (p : CodeBuilder)
  : Result (option LabelRef * CodeBuilder) :=
  match cur_fn p with
  | None =>
      panicCodePosError p pos "syntax error: non-declaration statement outside function body"
  | Some _ =>
      match cur_labels p !! name with
      | Some old =>
          match labelObjs p !! old with
          | None => nil_deref
          | Some oldL =>
              let oldPos := position p (label_pos oldL) in
              p' <- callHandleErr
                      (newCodePosError p pos
                         ("label " +:+ name +:+ " already defined at " +:+
                          positionString oldPos)) p ;;;
              Ok (None, p')
          end
      | None =>
          let l := fresh (dom (labelObjs p)) in
          let p1 := set_labelObjs (<[l := mkLabel pos name false]> (labelObjs p)) p in
          Ok (Some l, set_cur_labels (<[name := l]> (cur_labels p1)) p1)
      end
  end.

Definition LookupLabel (name : string) (p : CodeBuilder) : option LabelRef :=
  cur_labels p !! name.

(** [l.Name()] of a [*Label] that may be nil or dangling. *)
Definition labelName (l : option LabelRef) (p : CodeBuilder) : Result string :=
  match l with
  | None => nil_deref
  | Some r =>
      match labelObjs p !! r with
      | None => nil_deref
      | Some o => Ok (label_name o)
      end
  end.

(** [l.used = true] *)
Definition markUsed (l : LabelRef) (p : CodeBuilder) : CodeBuilder :=
  set_labelObjs (alter (fun o => mkLabel (label_pos o) (label_name o) true) l (labelObjs p)) p.

Definition Label_ (l : option LabelRef) (p : CodeBuilder) : Result CodeBuilder :=
  name <- labelName l p ;;;
  Ok (set_cur (set_label (Some (name, None)) (cur p)) p).

Definition Goto (l : option LabelRef) (p : CodeBuilder) : Result CodeBuilder :=
  name <- labelName l p ;;;
  let p1 := match l with Some r => markUsed r p | None => p end in
  let p2 := set_cur (set_flows (Z.lor (cb_flows (cur p1)) flowFlagGoto) (cur p1)) p1 in
  Ok (emitStmt (ast.BranchStmt token.GOTO (Some name)) p2).

Definition labelFlow (flow : Z) (l : option LabelRef) (p : CodeBuilder)
  : Result (string * option string * CodeBuilder) :=
  match l with
  | Some r =>
      let p1 := markUsed r p in
      let p2 := set_cur (set_flows (Z.lor (cb_flows (cur p1)) (Z.lor flow flowFlagWithLabel)) (cur p1)) p1 in
      name <- labelName l p ;;;
      Ok (name, Some name, p2)
  | None =>
      Ok ("", None, set_cur (set_flows (Z.lor (cb_flows (cur p)) flow) (cur p)) p)
  end.

Definition Break (l : option LabelRef) (p : CodeBuilder) : Result CodeBuilder :=
  r <- labelFlow flowFlagBreak l p ;;;
  Ok (emitStmt (ast.BranchStmt token.BREAK r.1.2) r.2).

Definition Continue (l : option LabelRef) (p : CodeBuilder) : Result CodeBuilder :=
  r <- labelFlow flowFlagContinue l p ;;;
  Ok (emitStmt (ast.BranchStmt token.CONTINUE r.1.2) r.2).

(** *** Blocks, statements and their end *)

Definition Block (p : CodeBuilder) : CodeBuilder :=
  startBlockStmt blockStmt "block statement" p.

Definition ResetStmt (p : CodeBuilder) : Result CodeBuilder :=
  s <- runtime (internal.SetLen regrow (cb_base (cur p)) (stk p)) ;;;
  Ok (set_stk s p).

(** The message of the panic of [EndStmt]. *)
Definition syntaxErrorNewline : string :=
  "syntax error: unexpected newline, expecting := or = or comma".

Definition EndStmt (p : CodeBuilder) : Result CodeBuilder :=
  let n := internal.Len (stk p) - cb_base (cur p) in
  if Z.ltb 0 n then
    if negb (Z.eqb n 1) then
      Panic (PanicString syntaxErrorNewline)
    else
      r <- runtime (internal.Pop (stk p)) ;;;
      Ok (emitStmt (ast.ExprStmt (internal.Val r.1)) (set_stk r.2 p))
  else Ok p.

(** Modelled from the spec: [blockStmt.End], which is not among the sources.
    A block-closing instruction pops the context and attaches its assembled
    statement list as a child of the next one. *)
Definition blockStmt_End (old : codeBlockCtx) (p : CodeBuilder) : Result CodeBuilder :=
  r <- endBlockStmt old p ;;;
  Ok (emitStmt (ast.BlockStmt r.1.1) r.2).

(** *** Inline closures *)

Definition getInlineCallArity (fn : Func) : Z :=
  Z.ldiff (fn_pos fn) closureFlagInline.

Definition makeInlineCall (arity : Z) : token.Pos :=
  Z.lor closureFlagInline arity.

Definition needEndingLabel (fn : Func) (p : CodeBuilder) : option LabelRef * bool :=
  match paramInsts p !! (fn_id fn, None) with
  | Some v => (cur_labels p !! types.var_name v, true)
  | None => (None, false)
  end.

Definition pushVal (v : value) (src : option ast.Node) (p : CodeBuilder) : Result CodeBuilder :=
  e <- toExpr (pkg p) v src ;;;
  Ok (set_stk (internal.Push e (stk p)) p).

(** The loop over the results of [inlineClosureEnd]: push the variable that
    stands for the result, and forget it. *)
Fixpoint returnResultsOf (fn : Func) (idx : list nat) (p : CodeBuilder) : Result CodeBuilder :=
  match idx with
  | [] => Ok p
  | i :: rest =>
      let key := (fn_id fn, Some (true, i)) in
      let v := match paramInsts p !! key with
               | Some x => ValVar x
               | None => ValNil
               end in
      p1 <- pushVal v None p ;;;
      returnResultsOf fn rest (set_paramInsts (delete key (paramInsts p1)) p1)
  end.

Definition cleanParamsOf (fn : Func) (idx : list nat) (p : CodeBuilder) : CodeBuilder :=
  fold_left (fun q i => set_paramInsts (delete (fn_id fn, Some (false, i)) (paramInsts q)) q) idx p.

Definition inlineClosureEnd (fn : Func) (old : funcBodyCtx) (p : CodeBuilder) : Result CodeBuilder :=
  p1 <- (let '(ending, ok) := needEndingLabel fn p in
         if ok then Label_ ending p else Ok p) ;;;
  sig <- signatureOf fn ;;;
  r <- endFuncBody old p1 ;;;
  let p2 := emitStmt (ast.BlockStmt r.1) r.2 in
  s <- runtime (internal.PopN (getInlineCallArity fn) (stk p2)) ;;;
  let p3 := set_stk s p2 in
  p4 <- returnResultsOf fn (seq 0 (length (sigResults sig))) p3 ;;;
  Ok (cleanParamsOf fn (seq 0 (Z.to_nat (getParamLen sig))) p4).

(** Modelled from the spec: [Func.End], which is not among the sources. The
    closing [End] of an inline closure replaces the closure body with a
    labeled block, which is [inlineClosureEnd]; the end of any other function
    is the parameter [endFuncDecl]. *)
Definition Func_End (fn : Func) (old : funcBodyCtx) (p : CodeBuilder) : Result CodeBuilder :=
  if isInline fn then inlineClosureEnd fn old p else endFuncDecl fn old p.

(** [p.current.End(p)]: the method of the block that is current. *)
Definition codeBlock_End (p : CodeBuilder) : Result CodeBuilder :=
  match cb_codeBlock (cur p) with
  | None => nil_deref
  | Some (blockStmt old) => blockStmt_End old p
  | Some (funcBlock fn old) => Func_End fn old p
  end.

Definition End_ (p : CodeBuilder) : Result CodeBuilder :=
  if (debugInstr && Z.ltb (cb_base (cur p)) (internal.Len (stk p)))%bool
  then Panic (PanicString "forget to call EndStmt()?")
  else codeBlock_End p.

(** *** Named types and their lazy loading *)

(** [t.Underlying()], nil while the named type is not loaded. *)
Definition Underlying (t : types.NamedRef) (p : CodeBuilder) : option types.type :=
  match nameds p !! t with
  | Some o => types.underlying o
  | None => None
  end.

(** [p.loadNamed(p.pkg, t)]: the call is recorded and the callback runs. *)
Definition callLoadNamed (t : types.NamedRef) (p : CodeBuilder) : CodeBuilder :=
  set_loaded (loaded p ++ [t]) (set_nameds (loadNamed p (pkg p) t (nameds p)) p).

Definition getUnderlying (t : types.NamedRef) (p : CodeBuilder)
  : option types.type * CodeBuilder :=
  match Underlying t p with
  | Some u => (Some u, p)
  | None =>
      let p' := callLoadNamed t p in
      (Underlying t p', p')
  end.

Definition lookupMethod (p : CodeBuilder) (t : types.NamedRef) (name : string)
  : option types.Func :=
  match nameds p !! t with
  | Some o => List.find (fun m => String.eqb (types.func_name m) name) (types.methods o)
  | None => None
  end.

(** *** Operators *)

Variable realType : types.type -> types.type.
Variable matchFuncCall :
  Package -> internal.Elem -> list internal.Elem -> InstrFlags ->
  Result (internal.Elem + string).
Variable toObject : Package -> types.Object -> option ast.Node -> internal.Elem.
Variable ComparableTo : Package -> internal.Elem -> internal.Elem -> bool.
Variable binaryOp : CodeBuilder -> token.Token -> list internal.Elem -> option constant.Value.
Variable checkParenExpr : ast.Expr -> ast.Expr.
Variable InstrFlagTwoValue : InstrFlags.

(** The tables [unaryOps] and [binaryOps] are arrays indexed by token: an
    index the table does not list holds the empty string, and a token past
    the last listed one ([NOT], resp. [GEQ]) is outside the array ([None]). *)
Definition unaryOps (op : token.Token) : option string :=
  match op with
  | token.SUB => Some "Neg"
  | token.ADD => Some "Pos"
  | token.XOR => Some "Not"
  | token.NOT => Some "LNot"
  | token.ARROW => Some "Recv"
  | token.AND => Some "Addr"
  | token.NEQ | token.LEQ | token.GEQ | token.DEFINE
  | token.BREAK | token.CONTINUE | token.GOTO => None
  | _ => Some ""
  end.

Definition binaryOps (op : token.Token) : option string :=
  match op with
  | token.ADD => Some "Add"
  | token.SUB => Some "Sub"
  | token.MUL => Some "Mul"
  | token.QUO => Some "Quo"
  | token.REM => Some "Rem"
  | token.AND => Some "And"
  | token.OR => Some "Or"
  | token.XOR => Some "Xor"
  | token.AND_NOT => Some "AndNot"
  | token.SHL => Some "Lsh"
  | token.SHR => Some "Rsh"
  | token.LAND => Some "LAnd"
  | token.LOR => Some "LOr"
  | token.LSS => Some "LT"
  | token.LEQ => Some "LE"
  | token.GTR => Some "GT"
  | token.GEQ => Some "GE"
  | token.EQL => Some "EQ"
  | token.NEQ => Some "NE"
  | token.DEFINE | token.BREAK | token.CONTINUE | token.GOTO => None
  | _ => Some ""
  end.

(** The [retry] loop of [callOpFunc]: a named type is asked for the method,
    a pointer is followed to its element, anything else leaves the switch. *)
Fixpoint opMethod (p : CodeBuilder) (name : string) (typ : types.type)
  : option types.Func :=
  match typ with
  | types.Named t => lookupMethod p t name
  | types.Pointer elem => opMethod p name elem
  | _ => None
  end.

(** The callee of an operator method: [args[0].name] with the method's type. *)
Definition methodFn (recv : internal.Elem) (name : string) (lm : types.Func) : internal.Elem :=
  internal.mkElem (ast.SelectorExpr (internal.Val recv) name)
    (Some (realType (types.func_type lm))) None None.

Definition index {A} (l : list A) (i : nat) : Result A :=
  match l !! i with
  | Some a => Ok a
  | None => Panic (PanicRuntime "index out of range")
  end.

Definition callOpFunc (p : CodeBuilder) (op : token.Token)
    (tokenOps : token.Token -> option string) (args : list internal.Elem)
    (flags : InstrFlags) : Result (internal.Elem + string) :=
  suffix <- match tokenOps op with
            | Some s => Ok s
            | None => Panic (PanicRuntime "index out of range")
            end ;;;
  let name := goxPrefix +:+ suffix in
  a0 <- index args 0 ;;;
  match internal.Type_ a0 ≫= opMethod p name with
  | Some lm => matchFuncCall (pkg p) (methodFn a0 name lm) args flags
  | None =>
      if (token.Token_eqb op token.EQL || token.Token_eqb op token.NEQ)%bool then
        a1 <- index args 1 ;;;
        if negb (ComparableTo (pkg p) a0 a1) then Ok (inr "mismatched types")
        else Ok (inl (internal.mkElem
                        (ast.BinaryExpr (checkParenExpr (internal.Val a0)) op
                           (checkParenExpr (internal.Val a1)))
                        (Some (types.Basic types.UntypedBool))
                        (binaryOp p op args) None))
      else
        match builtin (pkg p) !! name with
        | None => Panic (PanicString "TODO: operator not matched")
        | Some lm => matchFuncCall (pkg p) (toObject (pkg p) lm None) args flags
        end
  end.

Definition setSrc (src : option ast.Node) (e : internal.Elem) : internal.Elem :=
  internal.mkElem (internal.Val e) (internal.Type_ e) (internal.CVal e) src.

Definition elemType (args : list internal.Elem) (i : nat) : option types.type :=
  match args !! i with
  | Some a => internal.Type_ a
  | None => None
  end.

(** The end of [BinaryOp], once [callOpFunc] has returned [r]. *)
Definition finishBinaryOp (src : option ast.Node) (args : list internal.Elem)
    (p : CodeBuilder) (r : internal.Elem + string) : Result CodeBuilder :=
  match r with
  | inr _ =>
      let '(code, pos) := loadExpr p src in
      panicCodeError p pos
        ("invalid operation: " +:+ code +:+ " (mismatched types " +:+
         typeString (elemType args 0) +:+ " and " +:+ typeString (elemType args 1) +:+ ")")
  | inl ret =>
      s <- runtime (internal.Ret 2 (setSrc src ret) (stk p)) ;;;
      Ok (set_stk s p)
  end.

Definition BinaryOp (op : token.Token) (src : option ast.Node) (p : CodeBuilder)
  : Result CodeBuilder :=
  args <- runtime (internal.GetArgs 2 (stk p)) ;;;
  r <- callOpFunc p op binaryOps args 0 ;;;
  finishBinaryOp src args p r.

Definition UnaryOp (op : token.Token) (twoValue : bool) (p : CodeBuilder)
  : Result CodeBuilder :=
  let flags : InstrFlags := if twoValue then InstrFlagTwoValue else 0 in
  args <- runtime (internal.GetArgs 1 (stk p)) ;;;
  r <- callOpFunc p op unaryOps args flags ;;;
  match r with
  | inr err => Panic (PanicErr err)
  | inl ret =>
      s <- runtime (internal.Ret 1 ret (stk p)) ;;;
      Ok (set_stk s p)
  end.


(** *** Composite literals *)

Variable reflectTypeOf : option types.type -> string.
Variable toNamedType : Package -> types.NamedRef -> ast.Expr.
Variable toMapType : Package -> types.type -> ast.Expr.
Variable toStructType : Package -> types.type -> ast.Expr.
Variable AssignableTo : Package -> option types.type -> types.type -> bool.
Variable boundElementType : Package -> list internal.Elem -> Z -> Z -> Z -> types.type.
Variable Default : Package -> types.type -> types.type.

Definition newline : string := String (Ascii.ascii_of_nat 10) EmptyString.

(** [log.Panicln(msg, arg)] panics with the operands separated by a space
    and a newline at the end. *)
Definition logPanicln {A} (msg arg : string) : Result A :=
  Panic (PanicString (msg +:+ " " +:+ arg +:+ newline)).

Definition toIntVal (p : CodeBuilder) (v : internal.Elem) (msg : string) : Result Z :=
  let fail :=
    let '(code, pos) := loadExpr p (internal.Src v) in
    panicCodeError p pos ("cannot use " +:+ code +:+ " as " +:+ msg) in
  match internal.CVal v with
  | Some (constant.Int z as cval) =>
      let '(i, ok) := constant.Int64Val cval in
      if ok then Ok i else fail
  | _ => fail
  end.

(** The loop of [MapLit] over the key-value operands. *)
Fixpoint mapLitElts (p : CodeBuilder) (check : bool) (key val : types.type)
    (args : list internal.Elem) : Result (list ast.Expr) :=
  match args with
  | k :: v :: rest =>
      let elt := ast.KeyValueExpr (internal.Val k) (internal.Val v) in
      _ <- (if check then
              if negb (AssignableTo (pkg p) (internal.Type_ k) key) then
                let '(code, pos) := loadExpr p (internal.Src k) in
                panicCodeError p pos
                  ("cannot use " +:+ code +:+ " (type " +:+ typeString (internal.Type_ k) +:+
                   ") as type " +:+ typeString (Some key) +:+ " in map key")
              else if negb (AssignableTo (pkg p) (internal.Type_ v) val) then
                let '(code, pos) := loadExpr p (internal.Src v) in
                panicCodeError p pos
                  ("cannot use " +:+ code +:+ " (type " +:+ typeString (internal.Type_ v) +:+
                   ") as type " +:+ typeString (Some val) +:+ " in map value")
              else Ok tt
            else Ok tt) ;;;
      elts <- mapLitElts p check key val rest ;;;
      Ok (elt :: elts)
  | _ => Ok []
  end.

Definition MapLit (typ : option types.type) (arity : Z) (p : CodeBuilder)
  : Result CodeBuilder :=
  r <- match typ with
       | None => Ok (None, ast.NilExpr, p)
       | Some (types.Named nt) =>
           let typExpr := toNamedType (pkg p) nt in
           let '(u, p1) := getUnderlying nt p in
           match u with
           | Some (types.Map k e) => Ok (Some (k, e), typExpr, p1)
           | _ => Panic (PanicRuntime "interface conversion: types.Type is not a Map")
           end
       | Some (types.Map k e as mt) => Ok (Some (k, e), toMapType (pkg p) mt, p)
       | Some _ => logPanicln "MapLit: typ isn't a map type -" (reflectTypeOf typ)
       end ;;;
  let '(t, typExpr, p1) := r in
  if Z.eqb arity 0 then
    let '(typ', typExpr') :=
      match t with
      | None =>
          let t' := types.Map (types.Basic types.String) TyEmptyInterface in
          (Some t', toMapType (pkg p1) t')
      | Some _ => (typ, typExpr)
      end in
    let ret := ast.CompositeLit typExpr' [] in
    Ok (set_stk (internal.Push (internal.mkElem ret typ' None None) (stk p1)) p1)
  else if negb (Z.eqb (Z.land arity 1) 0) then
    logPanicln "MapLit: invalid arity, can't be odd -" (pretty arity)
  else
    args <- runtime (internal.GetArgs arity (stk p1)) ;;;
    let check := match t with Some _ => true | None => false end in
    let '(key, val, typ', typExpr') :=
      match t with
      | Some (k, e) => (k, e, typ, typExpr)
      | None =>
          let key := boundElementType (pkg p1) args 0 arity 2 in
          let val := boundElementType (pkg p1) args 1 arity 2 in
          let t' := types.Map (Default (pkg p1) key) (Default (pkg p1) val) in
          (key, val, Some t', toMapType (pkg p1) t')
      end in
    elts <- mapLitElts p1 check key val args ;;;
    s <- runtime (internal.Ret arity
           (internal.mkElem (ast.CompositeLit typExpr' elts) typ' None None) (stk p1)) ;;;
    Ok (set_stk s p1).

Definition cannotUseInField (code : string) (T : option types.type) (U : types.type)
    (field : string) : string :=
  "cannot use " +:+ code +:+ " (type " +:+ typeString T +:+ ") as type " +:+
  typeString (Some U) +:+ " in value of field " +:+ field.

(** The loop of [StructLit] in key-value mode: the key is the index of the
    field. *)
Fixpoint structLitKeyVals (p : CodeBuilder) (fields : list (string * types.type))
    (args : list internal.Elem) : Result (list ast.Expr) :=
  match args with
  | k :: v :: rest =>
      idx <- toIntVal p k "field which must be non-negative integer constant" ;;;
      if Z.leb (Z.of_nat (length fields)) idx then
        Panic (PanicString "invalid struct field index")
      else if Z.ltb idx 0 then
        Panic (PanicRuntime "index out of range")
      else
        elt <- index fields (Z.to_nat idx) ;;;
        let '(eltName, eltTy) := elt in
        if negb (AssignableTo (pkg p) (internal.Type_ v) eltTy) then
          let '(code, pos) := loadExpr p (internal.Src v) in
          panicCodeError p pos (cannotUseInField code (internal.Type_ v) eltTy eltName)
        else
          elts <- structLitKeyVals p fields rest ;;;
          Ok (ast.KeyValueExpr (ast.Ident eltName) (internal.Val v) :: elts)
  | _ => Ok []
  end.

(** The loop of [StructLit] in positional mode: the i-th operand goes to the
    i-th field. *)
Fixpoint structLitValues (p : CodeBuilder) (fields : list (string * types.type))
    (args : list internal.Elem) {struct args} : Result (list ast.Expr) :=
  match args with
  | [] => Ok []
  | arg :: rest =>
      match fields with
      | [] => Panic (PanicRuntime "index out of range")
      | (fname, eltTy) :: fields' =>
          if negb (AssignableTo (pkg p) (internal.Type_ arg) eltTy) then
            let '(code, pos) := loadExpr p (internal.Src arg) in
            panicCodeError p pos (cannotUseInField code (internal.Type_ arg) eltTy fname)
          else
            elts <- structLitValues p fields' rest ;;;
            Ok (internal.Val arg :: elts)
      end
  end.

Definition tooFewOrMany (fewOrMany : string) (typ : option types.type) : string :=
  "too " +:+ fewOrMany +:+ " values in " +:+ typeString typ +:+ "{...}".

(** The type switch of [StructLit]: the fields of the struct, the expression
    of the type, and the builder after a named type was loaded. *)
Definition structLitType (typ : option types.type) (p : CodeBuilder)
  : Result (list (string * types.type) * ast.Expr * CodeBuilder) :=
  match typ with
  | Some (types.Named nt) =>
      let typExpr := toNamedType (pkg p) nt in
      let '(u, p1) := getUnderlying nt p in
      match u with
      | Some (types.Struct fields) => Ok (fields, typExpr, p1)
      | _ => Panic (PanicRuntime "interface conversion: types.Type is not a Struct")
      end
  | Some (types.Struct fields as st) => Ok (fields, toStructType (pkg p) st, p)
  | _ => logPanicln "StructLit: typ isn't a struct type -" (reflectTypeOf typ)
  end.

Definition StructLit (typ : option types.type) (arity : Z) (keyVal : bool)
    (p : CodeBuilder) : Result CodeBuilder :=
  r <- structLitType typ p ;;;
  let '(t, typExpr, p1) := r in
  let n := Z.of_nat (length t) in
  args <- runtime (internal.GetArgs arity (stk p1)) ;;;
  elts <- (if keyVal then
             if negb (Z.eqb (Z.land arity 1) 0) then
               logPanicln "StructLit: invalid arity, can't be odd in keyVal mode -" (pretty arity)
             else structLitKeyVals p1 t args
           else if negb (Z.eqb arity n) then
             if negb (Z.eqb arity 0) then
               let fewOrMany := if Z.ltb n arity then "many" else "few" in
               last_ <- index args (Z.to_nat (arity - 1)) ;;;
               let '(_, pos) := loadExpr p1 (internal.Src last_) in
               panicCodeError p1 pos (tooFewOrMany fewOrMany typ)
             else Ok []
           else structLitValues p1 t args) ;;;
  s <- runtime (internal.Ret arity
         (internal.mkElem (ast.CompositeLit typExpr elts) typ None None) (stk p1)) ;;;
  Ok (set_stk s p1).

(** *** Assignment *)

Variable checkAssignType : Package -> option types.type -> internal.Elem -> Result unit.

Definition mismatchReturns (lhs : Z) (caller : string) (m : Z) : string :=
  "assignment mismatch: " +:+ pretty lhs +:+ " variables but " +:+ caller +:+
  " returns " +:+ pretty m +:+ " values".

Definition mismatchValues (lhs rhs : Z) : string :=
  "assignment mismatch: " +:+ pretty lhs +:+ " variables but " +:+ pretty rhs +:+ " values".

(** The loop over the left-hand sides when the right-hand side is one call:
    the i-th variable takes the i-th result. *)
Fixpoint assignFromTuple (p : CodeBuilder) (vars : list internal.Elem)
    (rhsVals : list (string * types.type)) {struct vars} : Result (list ast.Expr) :=
  match vars with
  | [] => Ok []
  | v :: vars' =>
      match rhsVals with
      | [] => Panic (PanicRuntime "index out of range")
      | r :: rhsVals' =>
          _ <- checkAssignType (pkg p) (internal.Type_ v)
                 (internal.mkElem ast.NilExpr (Some r.2) None None) ;;;
          rest <- assignFromTuple p vars' rhsVals' ;;;
          Ok (internal.Val v :: rest)
      end
  end.

(** The loop over the pairs of a left-hand side and its value. *)
Fixpoint assignPairs (p : CodeBuilder) (vars vals : list internal.Elem) {struct vars}
  : Result (list ast.Expr * list ast.Expr) :=
  match vars, vals with
  | v :: vars', x :: vals' =>
      _ <- checkAssignType (pkg p) (internal.Type_ v) x ;;;
      rest <- assignPairs p vars' vals' ;;;
      Ok (internal.Val v :: rest.1, internal.Val x :: rest.2)
  | _, _ => Ok ([], [])
  end.

Definition doAssignWith (lhs rhs : Z) (src : option ast.Node) (p : CodeBuilder)
  : Result CodeBuilder :=
  args <- runtime (internal.GetArgs (lhs + rhs) (stk p)) ;;;
  if (Z.ltb lhs 0 || Z.ltb rhs 0)%bool then
    Panic (PanicRuntime "makeslice: len out of range")
  else
    let vars := take (Z.to_nat lhs) args in
    let vals := drop (Z.to_nat lhs) args in
    let done (stmt : ast.Stmt) : Result CodeBuilder :=
      let p1 := emitStmt stmt p in
      s <- runtime (internal.PopN (lhs + rhs) (stk p1)) ;;;
      Ok (set_stk s p1) in
    let general :=
      if Z.eqb lhs rhs then
        r <- assignPairs p vars vals ;;;
        done (ast.AssignStmt token.ASSIGN r.1 r.2)
      else
        panicCodeError p (nodePosition p src) (mismatchValues lhs rhs) in
    if Z.eqb rhs 1 then
      match vals with
      | x :: _ =>
          match internal.Type_ x with
          | Some (types.Tuple rhsVals) =>
              if negb (Z.eqb lhs (Z.of_nat (length rhsVals))) then
                panicCodeError p (nodePosition p src)
                  (mismatchReturns lhs (getCaller p (internal.Src x))
                     (Z.of_nat (length rhsVals)))
              else
                l <- assignFromTuple p vars rhsVals ;;;
                done (ast.AssignStmt token.ASSIGN l [internal.Val x])
          | _ => general
          end
      | [] => Panic (PanicRuntime "index out of range")
      end
    else general.


(** *** More of the statement list *)

(** [popStmt]: the last statement leaves the list; on an empty list the
    index is out of range. *)
Definition popStmt (p : CodeBuilder) : Result (ast.Stmt * CodeBuilder) :=
  let stmts := cb_stmts (cur p) in
  match last stmts with
  | Some stmt =>
      Ok (stmt, set_cur (set_stmts (take (length stmts - 1) stmts) (cur p)) p)
  | None => Panic (PanicRuntime "index out of range")
  end.

(** [startStmtAt]: the place the statement gets, and the builder with it. *)
Definition startStmtAt (stmt : ast.Stmt) (p : CodeBuilder) : Z * CodeBuilder :=
  (Z.of_nat (length (cb_stmts (cur p))), emitStmt stmt p).

(** [commitStmt(idx)]: when the statement at [idx] is not the last one, it
    is taken out and the later ones move down one place, and it becomes the
    last one. *)
Definition commitStmt (idx : Z) (p : CodeBuilder) : Result CodeBuilder :=
  let stmts := cb_stmts (cur p) in
  let n := Z.of_nat (length stmts) - 1 in
  if Z.ltb idx n then
    if Z.ltb idx 0 then Panic (PanicRuntime "index out of range")
    else
      stmt <- index stmts (Z.to_nat idx) ;;;
      Ok (set_cur (set_stmts (take (Z.to_nat idx) stmts
                              ++ drop (S (Z.to_nat idx)) stmts ++ [stmt]) (cur p)) p)
  else Ok p.

(** [returnResults(n)]: the top [n] operands become the results of a return
    statement; for [n <= 0] the stack is not looked at. *)
Definition returnResults (n : Z) (p : CodeBuilder) : Result CodeBuilder :=
  if Z.ltb 0 n then
    args <- runtime (internal.GetArgs n (stk p)) ;;;
    s <- runtime (internal.PopN n (stk p)) ;;;
    Ok (emitStmt (ast.ReturnStmt (map internal.Val args)) (set_stk s p))
  else Ok (emitStmt (ast.ReturnStmt []) p).

(** [Assign(lhs, rhs...)]: without [rhs], as many values as variables. *)
Definition Assign (lhs : Z) (rhs : option Z) (p : CodeBuilder) : Result CodeBuilder :=
  let v := match rhs with Some r => r | None => lhs end in
  doAssignWith lhs v None p.

Definition AssignWith (lhs rhs : Z) (src : option ast.Node) (p : CodeBuilder)
  : Result CodeBuilder :=
  doAssignWith lhs rhs src p.

(** *** Array and slice literals *)

Definition elemNone : internal.Elem := internal.mkElem ast.NilExpr None None None.

(** [None] pushes the operand that stands for a key that is left out. *)
Definition None_ (p : CodeBuilder) : CodeBuilder :=
  set_stk (internal.Push elemNone (stk p)) p.

Variable toArrayType : Package -> types.type -> ast.Expr.
Variable toSliceType : Package -> types.type -> ast.Expr.
Variable AssignableConv : Package -> option types.type -> types.type -> internal.Elem -> bool.

Definition indexMsg : string := "index which must be non-negative integer constant".

Definition arrayIndexOutOfBounds (n limit : Z) : string :=
  "array index " +:+ pretty n +:+ " out of bounds [0:" +:+ pretty limit +:+ "]".

Definition arrayIndexValueOutOfBounds (src : string) (n limit : Z) : string :=
  "array index " +:+ src +:+ " (value " +:+ pretty n +:+ ") out of bounds [0:" +:+
  pretty limit +:+ "]".

(** The loop of [toBoundArrayLen]: [steps] rounds are left, [i] is the
    index of the next key, [n] the last index and [max] the largest one. *)
Fixpoint toBoundArrayLenLoop (p : CodeBuilder) (elts : list internal.Elem) (limit : Z)
    (steps i : nat) (n max : Z) : Result Z :=
  match steps with
  | O => Ok (max + 1)
  | S steps' =>
      k <- index elts i ;;;
      n' <- match internal.Val k with
            | ast.NilExpr => Ok (n + 1)
            | _ => toIntVal p k indexMsg
            end ;;;
      _ <- (if (Z.leb 0 limit && Z.leb limit n')%bool then
              match internal.Src k with
              | None =>
                  v <- index elts (S i) ;;;
                  let '(_, pos) := loadExpr p (internal.Src v) in
                  panicCodeError p pos (arrayIndexOutOfBounds n' limit)
              | Some _ =>
                  let '(src, pos) := loadExpr p (internal.Src k) in
                  panicCodeError p pos (arrayIndexValueOutOfBounds src n' limit)
              end
            else Ok tt) ;;;
      toBoundArrayLenLoop p elts limit steps' (S (S i)) n' (if Z.ltb max n' then n' else max)
  end.

(** The number of rounds of [for i := 0; i < arity; i += 2]. *)
Definition pairSteps (arity : Z) : nat := Z.to_nat ((arity + 1) / 2).

Definition toBoundArrayLen (p : CodeBuilder) (elts : list internal.Elem) (arity limit : Z)
  : Result Z :=
  toBoundArrayLenLoop p elts limit (pairSteps arity) 0 (-1) (-1).

Definition indexElemExpr (p : CodeBuilder) (args : list internal.Elem) (i : nat)
  : Result ast.Expr :=
  k <- index args i ;;;
  match internal.Val k with
  | ast.NilExpr => v <- index args (S i) ;;; Ok (internal.Val v)
  | key =>
      _ <- toIntVal p k indexMsg ;;;
      v <- index args (S i) ;;;
      Ok (ast.KeyValueExpr key (internal.Val v))
  end.

Definition cannotUseInLit (code : string) (T : option types.type) (U : types.type)
    (lit : string) : string :=
  "cannot use " +:+ code +:+ " (type " +:+ typeString T +:+ ") as type " +:+
  typeString (Some U) +:+ " in " +:+ lit +:+ " literal".

(** The loop of [ArrayLit] and of [SliceLit] in key-value mode, with the
    test [assignable] of the value of each pair. *)
Fixpoint litKeyVals (p : CodeBuilder) (assignable : internal.Elem -> bool)
    (val : types.type) (lit : string) (args : list internal.Elem) (steps i : nat)
  : Result (list ast.Expr) :=
  match steps with
  | O => Ok []
  | S steps' =>
      v <- index args (S i) ;;;
      if negb (assignable v) then
        let '(src, pos) := loadExpr p (internal.Src v) in
        panicCodeError p pos (cannotUseInLit src (internal.Type_ v) val lit)
      else
        elt <- indexElemExpr p args i ;;;
        elts <- litKeyVals p assignable val lit args steps' (S (S i)) ;;;
        Ok (elt :: elts)
  end.

(** The loop of [ArrayLit] and of [SliceLit] over positional operands;
    [SliceLit] tests the operands only when [check] is set. *)
Fixpoint litValues (p : CodeBuilder) (check : bool) (assignable : internal.Elem -> bool)
    (val : types.type) (lit : string) (args : list internal.Elem)
  : Result (list ast.Expr) :=
  match args with
  | [] => Ok []
  | arg :: rest =>
      if (check && negb (assignable arg))%bool then
        let '(src, pos) := loadExpr p (internal.Src arg) in
        panicCodeError p pos (cannotUseInLit src (internal.Type_ arg) val lit)
      else
        elts <- litValues p check assignable val lit rest ;;;
        Ok (internal.Val arg :: elts)
  end.

(** The type switch of [ArrayLit]: the element type and the length of the
    array, the expression of the type, and the builder after a named type
    was loaded. *)
Definition arrayLitType (typ : option types.type) (p : CodeBuilder)
  : Result (types.type * Z * ast.Expr * CodeBuilder) :=
  match typ with
  | Some (types.Named nt) =>
      let typExpr := toNamedType (pkg p) nt in
      let '(u, p1) := getUnderlying nt p in
      match u with
      | Some (types.Array e n) => Ok (e, n, typExpr, p1)
      | _ => Panic (PanicRuntime "interface conversion: types.Type is not an Array")
      end
  | Some (types.Array e n as tt) => Ok (e, n, toArrayType (pkg p) tt, p)
  | _ => logPanicln "ArrayLit: typ isn't a array type -" (reflectTypeOf typ)
  end.

Definition ArrayLit (typ : option types.type) (arity : Z) (keyVal : bool)
    (p : CodeBuilder) : Result CodeBuilder :=
  r <- arrayLitType typ p ;;;
  let '(val, n, typExpr, p1) := r in
  let assignable := fun a : internal.Elem => AssignableTo (pkg p1) (internal.Type_ a) val in
  r2 <- (if keyVal then
           if negb (Z.eqb (Z.land arity 1) 0) then
             logPanicln "ArrayLit: invalid arity, can't be odd in keyVal mode -" (pretty arity)
           else
             args <- runtime (internal.GetArgs arity (stk p1)) ;;;
             max <- toBoundArrayLen p1 args arity n ;;;
             let typ' := if Z.ltb n 0 then Some (types.Array val max) else typ in
             elts <- litKeyVals p1 assignable val "array" args (pairSteps arity) 0 ;;;
             Ok (typ', elts)
         else
           args <- runtime (internal.GetArgs arity (stk p1)) ;;;
           typ' <- (if Z.ltb n 0 then Ok (Some (types.Array val arity))
                    else if Z.ltb n arity then
                      a <- index args (Z.to_nat n) ;;;
                      let '(_, pos) := loadExpr p1 (internal.Src a) in
                      panicCodeError p1 pos (arrayIndexOutOfBounds n n)
                    else Ok typ) ;;;
           elts <- litValues p1 true assignable val "array" args ;;;
           Ok (typ', elts)) ;;;
  s <- runtime (internal.Ret arity
         (internal.mkElem (ast.CompositeLit typExpr r2.2) r2.1 None None) (stk p1)) ;;;
  Ok (set_stk s p1).

(** The type switch of [SliceLit]: the element type ([None] for a nil
    [typ]), the expression of the type, and the builder after a named type
    was loaded. *)
Definition sliceLitType (typ : option types.type) (p : CodeBuilder)
  : Result (option types.type * ast.Expr * CodeBuilder) :=
  match typ with
  | None => Ok (None, ast.NilExpr, p)
  | Some (types.Named nt) =>
      let typExpr := toNamedType (pkg p) nt in
      let '(u, p1) := getUnderlying nt p in
      match u with
      | Some (types.Slice e) => Ok (Some e, typExpr, p1)
      | _ => Panic (PanicRuntime "interface conversion: types.Type is not a Slice")
      end
  | Some (types.Slice e as tt) => Ok (Some e, toSliceType (pkg p) tt, p)
  | Some _ => logPanicln "SliceLit: typ isn't a slice type -" (reflectTypeOf typ)
  end.

Definition SliceLit (typ : option types.type) (arity : Z) (keyVal : bool)
    (p : CodeBuilder) : Result CodeBuilder :=
  r <- sliceLitType typ p ;;;
  let '(t, typExpr, p1) := r in
  if keyVal then
    if negb (Z.eqb (Z.land arity 1) 0) then
      logPanicln "SliceLit: invalid arity, can't be odd in keyVal mode -" (pretty arity)
    else
      args <- runtime (internal.GetArgs arity (stk p1)) ;;;
      match t with
      | None => nil_deref
      | Some val =>
          let assignable :=
            fun a : internal.Elem => AssignableConv (pkg p1) (internal.Type_ a) val a in
          elts <- litKeyVals p1 assignable val "slice" args (pairSteps arity) 0 ;;;
          s <- runtime (internal.Ret arity
                 (internal.mkElem (ast.CompositeLit typExpr elts) typ None None) (stk p1)) ;;;
          Ok (set_stk s p1)
      end
  else if Z.eqb arity 0 then
    let '(typ', typExpr') :=
      match t with
      | None =>
          let t' := types.Slice TyEmptyInterface in
          (Some t', toSliceType (pkg p1) t')
      | Some _ => (typ, typExpr)
      end in
    Ok (set_stk (internal.Push
                   (internal.mkElem (ast.CompositeLit typExpr' []) typ' None None) (stk p1)) p1)
  else
    args <- runtime (internal.GetArgs arity (stk p1)) ;;;
    let '(check, val, typ', typExpr') :=
      match t with
      | Some e => (true, e, typ, typExpr)
      | None =>
          let val := boundElementType (pkg p1) args 0 arity 1 in
          let t' := types.Slice (Default (pkg p1) val) in
          (false, val, Some t', toSliceType (pkg p1) t')
      end in
    let assignable :=
      fun a : internal.Elem => AssignableConv (pkg p1) (internal.Type_ a) val a in
    elts <- litValues p1 check assignable val "slice" args ;;;
    s <- runtime (internal.Ret arity
           (internal.mkElem (ast.CompositeLit typExpr' elts) typ' None None) (stk p1)) ;;;
    Ok (set_stk s p1).

(** *** Loading a named type before its members are looked up *)

(** [t.NumMethods()] *)
Definition NumMethods (t : types.NamedRef) (p : CodeBuilder) : nat :=
  match nameds p !! t with
  | Some o => length (types.methods o)
  | None => 0%nat
  end.

(** [ensureLoaded(typ)]: one pointer is looked through; a named type is
    loaded when it has no method or no underlying type yet. *)
Definition ensureLoaded (typ : types.type) (p : CodeBuilder) : CodeBuilder :=
  let typ' := match typ with types.Pointer e => e | _ => typ end in
  match typ' with
  | types.Named t =>
      if (Nat.eqb (NumMethods t p) 0
          || match Underlying t p with None => true | Some _ => false end)%bool
      then callLoadNamed t p
      else p
  | _ => p
  end.

(** *** What the properties speak about *)

(** The diagnostic of [checkLabels] for the label object [l] under [name]. *)
Definition labelUnusedErr (p : CodeBuilder) (name : string) (l : Label) : CodeError :=
  newCodePosError p (label_pos l) (labelUnusedMsg name).

(** The diagnostics [checkLabels] passes to [handleErr] for the entries it
    visits, in the order of the visit. *)
Definition unusedLabelErrs (p : CodeBuilder) (entries : list (string * LabelRef))
  : list CodeError :=
  omap (fun e : string * LabelRef =>
          match labelObjs p !! e.2 with
          | Some l => if used l then None else Some (labelUnusedErr p e.1 l)
          | None => None
          end) entries.

(** The statement [emitStmt] appends for [stmt]: wrapped when a label waits. *)
Definition labeled (label : option (string * option ast.Stmt)) (stmt : ast.Stmt) : ast.Stmt :=
  match label with
  | Some (name, _) => ast.LabeledStmt name (Some stmt)
  | None => stmt
  end.

(** The operand a composite literal leaves on the stack. *)
Definition compositeLit (typExpr : ast.Expr) (elts : list ast.Expr)
    (typ : option types.type) : internal.Elem :=
  internal.mkElem (ast.CompositeLit typExpr elts) typ None None.

(** Every operand can be assigned to the field at its place. *)
Definition assignableToFields (p : CodeBuilder) (args : list internal.Elem)
    (fields : list (string * types.type)) : Prop :=
  Forall2 (fun (a : internal.Elem) (f : string * types.type) =>
             AssignableTo (pkg p) (internal.Type_ a) f.2 = true) args fields.

(** Every variable accepts the result at its place, as [doAssignWith] checks
    it: [checkAssignType] on the type of the variable and an operand that has
    nothing but the type of the result. *)
Definition resultsAssignable (p : CodeBuilder) (vars : list internal.Elem)
    (rhsVals : list (string * types.type)) : Prop :=
  Forall2 (fun (v : internal.Elem) (r : string * types.type) =>
             checkAssignType (pkg p) (internal.Type_ v)
               (internal.mkElem ast.NilExpr (Some r.2) None None) = Ok tt)
    vars rhsVals.

(** The diagnostic of [NewLabel] for a name that is taken, by a label at [oldPos]. *)
Definition labelDefinedMsg (name : string) (oldPos : token.Position) : string :=
  "label " +:+ name +:+ " already defined at " +:+ positionString oldPos.

(** The operands of a key-value literal whose keys are all left out. *)
Definition unkeyed (vals : list internal.Elem) : list internal.Elem :=
  flat_map (fun v => [elemNone; v]) vals.

(** What a literal constructor leaves: the operands below the [arity] it
    took, one composite literal above them, the current block untouched. *)
Definition literalEffect (arity : Z) (p p' : CodeBuilder) : Prop :=
  0 <= arity <= internal.Len (stk p) /\
  (exists typExpr elts typ,
     internal.data (stk p')
     = take (Z.to_nat (internal.Len (stk p) - arity)) (internal.data (stk p))
       ++ [compositeLit typExpr elts typ]) /\
  cur p' = cur p.


(** The operands of a key-value struct literal: per field set, the index
    of the field, the operand of the key and the operand of the value. *)
Definition fieldInits (inits : list (Z * internal.Elem * internal.Elem))
  : list internal.Elem :=
  flat_map (fun i => [i.1.2; i.2]) inits.

(** A key that is the integer constant [i], a field of that index, and a
    value that may be assigned to it. *)
Definition fieldInitOk (p : CodeBuilder) (fields : list (string * types.type))
    (i : Z * internal.Elem * internal.Elem) : Prop :=
  internal.CVal i.1.2 = Some (constant.Int i.1.1) /\ 0 <= i.1.1 < 2 ^ 63 /\
  exists name ty, fields !! Z.to_nat i.1.1 = Some (name, ty) /\
                  AssignableTo (pkg p) (internal.Type_ i.2) ty = true.

Definition fieldName (fields : list (string * types.type)) (i : Z) : string :=
  match fields !! Z.to_nat i with
  | Some f => f.1
  | None => EmptyString
  end.

(** The operands of a map literal, from its entries. *)
Definition mapEntries (entries : list (internal.Elem * internal.Elem))
  : list internal.Elem :=
  flat_map (fun e => [e.1; e.2]) entries.

Definition cannotUseInMap (p : CodeBuilder) (x : internal.Elem) (T : types.type)
    (what : string) : CodeError :=
  newCodeError p (Some (loadExpr p (internal.Src x)).2)
    ("cannot use " +:+ (loadExpr p (internal.Src x)).1 +:+ " (type " +:+
     typeString (internal.Type_ x) +:+ ") as type " +:+ typeString (Some T) +:+
     " in map " +:+ what).

(** Every variable accepts the value at its place, as [doAssignWith] checks
    it. *)
Definition valuesAssignable (p : CodeBuilder) (vars vals : list internal.Elem) : Prop :=
  Forall2 (fun v x : internal.Elem =>
             checkAssignType (pkg p) (internal.Type_ v) x = Ok tt) vars vals.

(** The right-hand side is not the one result of a call to a function of
    several results. *)
Definition notOneTuple (vals : list internal.Elem) : Prop :=
  forall x rhsVals, vals = [x] -> internal.Type_ x <> Some (types.Tuple rhsVals).

(** [k] pointers around a type. *)
Definition pointers (k : nat) (t : types.type) : types.type :=
  Nat.iter k types.Pointer t.

(** The diagnostic of [BinaryOp] when the operator cannot be applied. *)
Definition invalidOperation (p : CodeBuilder) (src : option ast.Node)
    (a0 a1 : internal.Elem) : CodeError :=
  newCodeError p (Some (loadExpr p src).2)
    ("invalid operation: " +:+ (loadExpr p src).1 +:+ " (mismatched types " +:+
     typeString (internal.Type_ a0) +:+ " and " +:+ typeString (internal.Type_ a1) +:+ ")").

(** What a signature declares in the scope of its body, in the order of
    [startFuncBody]: the named parameters, the named results, the receiver. *)
Definition declaredBy (sig : types.type) : list (string * types.type) :=
  List.filter (fun v => negb (String.eqb v.1 "")) (sigParams sig ++ sigResults sig)
  ++ match sigRecv sig with Some recv => [recv] | None => [] end.

Definition scope_parent (s : types.Scope) : option types.Scope :=
  match s with types.mkScope parent _ _ => parent end.

Definition asObject (v : string * types.type) : types.Object := types.mkObject v.1 v.2.

(** * Properties of the code builder *)

Lemma rbind_Ok {E A B} (r : Res E A) (k : A -> Res E B) (b : B) :
  rbind r k = Ok b -> exists a, r = Ok a /\ k a = Ok b.
Proof. destruct r as [a|e]; simpl; [eauto|discriminate]. Qed.

(** ** Statements: [emitStmt] *)

(** Case analysis on a builder down to the fields of its current block. *)
Ltac destruct_builder p :=
  let c := fresh "current" in
  let x := fresh "ctx" in
  destruct p as [? c ? ? ? ? ? ? ? ? ? ? ?]; destruct c as [x ? ?];
  destruct x as [? ? ? ? ? ?].

Lemma emitStmt_stk (stmt : ast.Stmt) (p : CodeBuilder) :
  stk (emitStmt stmt p) = stk p.
Proof. unfold emitStmt. destruct (comments p); [destruct (commentOnce _)|]; reflexivity. Qed.

Lemma emitStmt_cur (stmt : ast.Stmt) (p : CodeBuilder) :
  cur (emitStmt stmt p)
  = set_stmts (cb_stmts (cur p) ++ [labeled (cb_label (cur p)) stmt])
      (set_label None (cur p)).
Proof.
  destruct_builder p. unfold emitStmt, labeled, cur; simpl.
  repeat match goal with
         | |- context [match ?x with _ => _ end] => destruct x; simpl
         end; reflexivity.
Qed.

Lemma emitStmt_stmts (stmt : ast.Stmt) (p : CodeBuilder) :
  cb_stmts (cur (emitStmt stmt p))
  = cb_stmts (cur p) ++ [labeled (cb_label (cur p)) stmt].
Proof. rewrite emitStmt_cur. reflexivity. Qed.

Lemma emitStmt_label (stmt : ast.Stmt) (p : CodeBuilder) :
  cb_label (cur (emitStmt stmt p)) = None.
Proof. rewrite emitStmt_cur. reflexivity. Qed.

Lemma emitStmt_base (stmt : ast.Stmt) (p : CodeBuilder) :
  cb_base (cur (emitStmt stmt p)) = cb_base (cur p).
Proof. rewrite emitStmt_cur. reflexivity. Qed.

Lemma emitStmt_reported (stmt : ast.Stmt) (p : CodeBuilder) :
  reported (emitStmt stmt p) = reported p.
Proof. unfold emitStmt. destruct (comments p); [destruct (commentOnce _)|]; reflexivity. Qed.

(** ** The operand stack *)

Lemma Len_snoc (rest : list internal.Elem) (e : internal.Elem) :
  internal.Len (internal.mkStack (rest ++ [e])) = internal.Len (internal.mkStack rest) + 1.
Proof. unfold internal.Len; simpl. rewrite length_app; simpl. lia. Qed.

Lemma Pop_snoc (rest : list internal.Elem) (e : internal.Elem) :
  internal.Pop (internal.mkStack (rest ++ [e])) = Ok (e, internal.mkStack rest).
Proof.
  unfold internal.Pop; simpl. rewrite last_snoc.
  rewrite length_app; simpl.
  replace (length rest + 1 - 1)%nat with (length rest) by lia.
  by rewrite take_app_length.
Qed.

Lemma stack_top (s : internal.Stack) :
  0 < internal.Len s ->
  exists rest e, s = internal.mkStack (rest ++ [e]).
Proof.
  destruct s as [d]. unfold internal.Len; simpl. intros H.
  destruct (decide (d = [])) as [->|Hne]; [simpl in H; lia|].
  destruct (exists_last Hne) as [rest [e ->]]. eauto.
Qed.

(** ** C10: the three cases of [EndStmt] *)

Lemma EndStmt_one (p : CodeBuilder) (rest : list internal.Elem) (e : internal.Elem) :
  stk p = internal.mkStack (rest ++ [e]) ->
  internal.Len (stk p) - cb_base (cur p) = 1 ->
  EndStmt p
  = Ok (emitStmt (ast.ExprStmt (internal.Val e)) (set_stk (internal.mkStack rest) p)).
Proof.
  intros Hs Hn. unfold EndStmt. rewrite Hn.
  change (0 <? 1) with true. change (negb (1 =? 1)) with false. cbv iota.
  rewrite Hs, Pop_snoc. reflexivity.
Qed.

(** C10: with [n] the number of operands above the base of the current
    block (the base is never negative): for [n = 0] nothing changes; for
    [n = 1] the operand is popped and one expression statement is appended
    (under the label that waits, if any); for [n > 1] the instruction panics
    with the syntax error, and it never does so for [n <= 1]. *)
Theorem EndStmt_by_operand_count (p : CodeBuilder) :
  0 <= cb_base (cur p) ->
  let n := internal.Len (stk p) - cb_base (cur p) in
  (n = 0 -> EndStmt p = Ok p) /\
  (n = 1 ->
     exists rest e,
       stk p = internal.mkStack (rest ++ [e]) /\
       let p' := emitStmt (ast.ExprStmt (internal.Val e)) (set_stk (internal.mkStack rest) p) in
       EndStmt p = Ok p' /\
       stk p' = internal.mkStack rest /\
       internal.Len (stk p') = cb_base (cur p) /\
       cb_stmts (cur p')
       = cb_stmts (cur p) ++ [labeled (cb_label (cur p)) (ast.ExprStmt (internal.Val e))]) /\
  (1 < n -> EndStmt p = Panic (PanicString syntaxErrorNewline)) /\
  (n <= 1 -> exists p', EndStmt p = Ok p').
Proof.
  intros Hbase n.
  assert (Hone : n = 1 ->
     exists rest e,
       stk p = internal.mkStack (rest ++ [e]) /\
       let p' := emitStmt (ast.ExprStmt (internal.Val e)) (set_stk (internal.mkStack rest) p) in
       EndStmt p = Ok p' /\
       stk p' = internal.mkStack rest /\
       internal.Len (stk p') = cb_base (cur p) /\
       cb_stmts (cur p')
       = cb_stmts (cur p) ++ [labeled (cb_label (cur p)) (ast.ExprStmt (internal.Val e))]).
  { intros Hn. destruct (stack_top (stk p)) as [rest [e Hs]]; [subst n; lia|].
    exists rest, e. split; [exact Hs|]. cbv zeta.
    split; [by apply EndStmt_one|].
    rewrite emitStmt_stk, emitStmt_stmts.
    repeat split.
    subst n. rewrite Hs, Len_snoc in Hn.
    change (stk (set_stk (internal.mkStack rest) p)) with (internal.mkStack rest). lia. }
  repeat split.
  - intros Hn. unfold EndStmt. fold n. rewrite Hn. reflexivity.
  - exact Hone.
  - intros Hn. unfold EndStmt. fold n. destruct (Z.ltb_spec 0 n); [|lia].
    destruct (Z.eqb_spec n 1); [lia|]. reflexivity.
  - intros Hn. destruct (Z.ltb_spec 0 n) as [Hpos|Hle].
    + assert (n = 1) as H1 by lia.
      destruct (Hone H1) as [rest [e [_ [Heq _]]]]. eauto.
    + unfold EndStmt. fold n. destruct (Z.ltb_spec 0 n); [lia|]. eauto.
Qed.

(** ** C5: a label goes to the next statement *)

Lemma Label_ok (l : LabelRef) (o : Label) (p : CodeBuilder) :
  labelObjs p !! l = Some o ->
  Label_ (Some l) p = Ok (set_cur (set_label (Some (label_name o, None)) (cur p)) p).
Proof. intros H. unfold Label_, labelName. rewrite H. reflexivity. Qed.

(** C5: after [Label(l)] returned [p1], take any later state [q] in which the
    current block is as [Label] left it (operands may have been pushed and
    popped). The statement emitted next is appended as a labeled statement
    that carries the name of [l] and wraps that statement; the statements the
    block already had stay in place, in front of it; and the label is used
    up, so that the statement after that one is appended as it is. *)
Theorem Label_attaches_to_next_statement
    (p p1 q : CodeBuilder) (l : LabelRef) (o : Label) (stmt next : ast.Stmt) :
  labelObjs p !! l = Some o ->
  Label_ (Some l) p = Ok p1 ->
  cur q = cur p1 ->
  cb_stmts (cur p1) = cb_stmts (cur p) /\
  cb_stmts (cur (emitStmt stmt q))
  = cb_stmts (cur p) ++ [ast.LabeledStmt (label_name o) (Some stmt)] /\
  cb_label (cur (emitStmt stmt q)) = None /\
  cb_stmts (cur (emitStmt next (emitStmt stmt q)))
  = cb_stmts (cur p) ++ [ast.LabeledStmt (label_name o) (Some stmt); next].
Proof.
  intros Ho HL Hq. rewrite (Label_ok l o p Ho) in HL. injection HL as <-.
  assert (Hs : cb_stmts (cur (emitStmt stmt q))
               = cb_stmts (cur p) ++ [ast.LabeledStmt (label_name o) (Some stmt)]).
  { rewrite emitStmt_stmts, Hq. destruct_builder p. reflexivity. }
  split; [destruct_builder p; reflexivity|].
  split; [exact Hs|]. split; [apply emitStmt_label|].
  rewrite emitStmt_stmts, emitStmt_label, Hs. simpl. by rewrite <- app_assoc.
Qed.

(** ** C7: the default map literal *)

(** C7: [MapLit(nil, 0)] returns, the stack grows by exactly one operand, and
    that operand is a composite literal without elements whose type is the
    map from [string] to the empty interface. *)
Theorem MapLit_nil_zero (p : CodeBuilder) :
  let t := types.Map (types.Basic types.String) (types.Interface []) in
  exists p',
    MapLit None 0 p = Ok p' /\
    internal.data (stk p')
    = internal.data (stk p) ++ [compositeLit (toMapType (pkg p) t) [] (Some t)] /\
    internal.Len (stk p') = internal.Len (stk p) + 1.
Proof.
  intros t. eexists. split; [reflexivity|]. split; [reflexivity|].
  unfold internal.Len; simpl. rewrite length_app; simpl. lia.
Qed.

(** ** C8: loading a named type once *)

Lemma getUnderlying_loaded (t : types.NamedRef) (u : types.type) (p : CodeBuilder) :
  Underlying t p = Some u -> getUnderlying t p = (Some u, p).
Proof. intros H. unfold getUnderlying. rewrite H. reflexivity. Qed.

(** C8: if the callback fills in the underlying type of [t] when it is
    called for [t], then a first call of [getUnderlying] returns that type
    and a second call returns the same one, leaves the builder as it is, and
    does not call the callback: the callback has run once at most, and not at
    all once the underlying type is set. *)
Theorem getUnderlying_idempotent (t : types.NamedRef) (p : CodeBuilder) :
  (Underlying t p = None -> Underlying t (callLoadNamed t p) <> None) ->
  let '(u1, p1) := getUnderlying t p in
  let '(u2, p2) := getUnderlying t p1 in
  u1 <> None /\ u2 = u1 /\ p2 = p1 /\ loaded p2 = loaded p1 /\
  (Underlying t p <> None -> loaded p1 = loaded p) /\
  (Underlying t p = None -> loaded p1 = loaded p ++ [t]).
Proof.
  intros Hload. unfold getUnderlying at 1.
  destruct (Underlying t p) as [u|] eqn:Hu.
  - rewrite (getUnderlying_loaded t u p Hu). repeat split; congruence.
  - specialize (Hload eq_refl).
    destruct (Underlying t (callLoadNamed t p)) as [u|] eqn:Hu'; [|congruence].
    rewrite (getUnderlying_loaded t u _ Hu'). repeat split; congruence.
Qed.

(** ** C4: labels that are defined and not used *)

Lemma string_app_nil (b : string) : "" +:+ b = b.
Proof. reflexivity. Qed.

Lemma string_app_cons (c : Ascii.ascii) (a b : string) :
  String c a +:+ b = String c (a +:+ b).
Proof. reflexivity. Qed.

Lemma string_app_inv_head (s a b : string) : s +:+ a = s +:+ b -> a = b.
Proof.
  induction s as [|c s IH]; [auto|].
  rewrite !string_app_cons. intros H; injection H; auto.
Qed.

Lemma string_app_length (a b : string) :
  String.length (a +:+ b) = (String.length a + String.length b)%nat.
Proof.
  induction a as [|c a IH]; [reflexivity|].
  rewrite string_app_cons. simpl. by rewrite IH.
Qed.

Lemma string_app_inv_tail (t a b : string) : a +:+ t = b +:+ t -> a = b.
Proof.
  revert b. induction a as [|c a IH]; intros [|d b] H.
  - reflexivity.
  - apply (f_equal String.length) in H.
    rewrite string_app_nil, string_app_cons in H. simpl in H.
    rewrite string_app_length in H. exfalso. clear -H. lia.
  - apply (f_equal String.length) in H.
    rewrite string_app_nil, string_app_cons in H. simpl in H.
    rewrite string_app_length in H. exfalso. clear -H. lia.
  - rewrite !string_app_cons in H. injection H as -> H. f_equal. by apply IH.
Qed.

Lemma labelUnusedMsg_inj (a b : string) : labelUnusedMsg a = labelUnusedMsg b -> a = b.
Proof.
  unfold labelUnusedMsg. intros H.
  apply string_app_inv_head in H. by apply string_app_inv_tail in H.
Qed.

Lemma labelUnusedErr_inj (p : CodeBuilder) (a b : string) (l l' : Label) :
  labelUnusedErr p a l = labelUnusedErr p b l' -> a = b.
Proof.
  unfold labelUnusedErr, newCodePosError. intros H.
  apply (f_equal Msg) in H. simpl in H. by apply labelUnusedMsg_inj.
Qed.

Lemma labelUnusedErr_set_reported (r : list CodeError) (p : CodeBuilder) (n : string) (l : Label) :
  labelUnusedErr (set_reported r p) n l = labelUnusedErr p n l.
Proof. reflexivity. Qed.

(** With a handler that returns, [checkLabels] passes to it exactly the
    diagnostics of the unused labels among the entries, in order. *)
Lemma checkLabelsIn_reports (entries : list (string * LabelRef)) (p : CodeBuilder) :
  (forall e, handleErr p e = Ok tt) ->
  (forall n r, (n, r) ∈ entries -> is_Some (labelObjs p !! r)) ->
  checkLabelsIn entries p
  = Ok (set_reported (reported p ++ unusedLabelErrs p entries) p).
Proof.
  revert p. induction entries as [|[n r] rest IH]; intros p Hh Hobj.
  - simpl. rewrite app_nil_r. by destruct p.
  - destruct (Hobj n r) as [l Hl]; [left|].
    assert (Hrest : forall n' r', (n', r') ∈ rest -> is_Some (labelObjs p !! r'))
      by (intros n' r' Hin; apply (Hobj n' r'); by right).
    simpl. unfold checkLabel, unusedLabelErrs. simpl. rewrite Hl.
    destruct (used l) eqn:Hu; simpl.
    + rewrite IH by assumption. reflexivity.
    + unfold callHandleErr. rewrite Hh. simpl.
      rewrite IH by assumption. simpl.
      fold (labelUnusedErr p n l).
      rewrite <- app_assoc. reflexivity.
Qed.

Lemma endBlockStmt_reported (old : codeBlockCtx) (p p' : CodeBuilder)
    (stmts : list ast.Stmt) (flows : Z) :
  endBlockStmt old p = Ok (stmts, flows, p') -> reported p' = reported p.
Proof.
  unfold endBlockStmt. intros H.
  destruct (cb_label (cur p)).
  - destruct (runtime _) as [s|] eqn:Hs; simpl in H; [|discriminate].
    injection H as _ _ <-. simpl. apply emitStmt_reported.
  - destruct (runtime _) as [s|] eqn:Hs; simpl in H; [|discriminate].
    injection H as _ _ <-. reflexivity.
Qed.

(** C4: let the label object [L] be registered under [name] in the function
    body that is being closed, with a [handleErr] that returns. Closing the
    body passes to [handleErr] the diagnostic "label <name> defined and not
    used", at the position of [L], if and only if [L.used] is false; the
    diagnostics passed are those of the unused labels and nothing else, and
    the rest of the close reports nothing more. *)
Theorem unused_label_reported_iff_not_used
    (p : CodeBuilder) (old : funcBodyCtx) (name : string) (l : LabelRef) (L : Label) :
  (forall e, handleErr p e = Ok tt) ->
  (forall n r, cur_labels p !! n = Some r -> is_Some (labelObjs p !! r)) ->
  cur_labels p !! name = Some l ->
  labelObjs p !! l = Some L ->
  exists (p1 : CodeBuilder) (news : list CodeError),
    checkLabels p = Ok p1 /\
    reported p1 = reported p ++ news /\
    (mkCodeError (labelUnusedMsg name) (Some (position p (label_pos L)))
       (cb_scope (cur p)) (cur_fn p) ∈ news <-> used L = false) /\
    (forall stmts p2, endFuncBody old p = Ok (stmts, p2) -> reported p2 = reported p1).
Proof.
  intros Hh Hobj Hname HL.
  set (entries := rangeLabels (cur_labels p)).
  assert (Hin : forall n r, (n, r) ∈ entries <-> cur_labels p !! n = Some r).
  { intros n r. unfold entries. rewrite (rangeLabels_perm (cur_labels p)).
    apply elem_of_map_to_list. }
  assert (Hck : checkLabels p = Ok (set_reported (reported p ++ unusedLabelErrs p entries) p)).
  { unfold checkLabels. apply checkLabelsIn_reports; [exact Hh|].
    intros n r Hnr. apply (Hobj n r). by apply Hin. }
  exists (set_reported (reported p ++ unusedLabelErrs p entries) p),
         (unusedLabelErrs p entries).
  split; [exact Hck|]. split; [reflexivity|]. split.
  - change (mkCodeError (labelUnusedMsg name) (Some (position p (label_pos L)))
              (cb_scope (cur p)) (cur_fn p)) with (labelUnusedErr p name L).
    unfold unusedLabelErrs. rewrite list_elem_of_omap. split.
    + intros [[n r] [Hnr Hsome]]. simpl in Hsome.
      apply Hin in Hnr.
      destruct (labelObjs p !! r) as [L'|] eqn:HL'; [|discriminate].
      destruct (used L') eqn:Hu; [discriminate|].
      apply (inj Some) in Hsome.
      apply labelUnusedErr_inj in Hsome. subst n.
      rewrite Hname in Hnr. injection Hnr as <-.
      rewrite HL in HL'. injection HL' as <-. exact Hu.
    + intros Hu. exists (name, l). split; [by apply Hin|].
      simpl. rewrite HL, Hu. reflexivity.
  - intros stmts p2. unfold endFuncBody. rewrite Hck. simpl.
    destruct (endBlockStmt _ _) as [[[st fl] q]|] eqn:He; simpl; [|discriminate].
    intros H. injection H as _ <-.
    apply endBlockStmt_reported in He. exact He.
Qed.

(** [NewLabel] registers a new label, not used yet, under its name. *)
Lemma NewLabel_registers (pos : token.Pos) (name : string) (p p' : CodeBuilder) (l : LabelRef) :
  NewLabel pos name p = Ok (Some l, p') ->
  cur_labels p' !! name = Some l /\
  labelObjs p' !! l = Some (mkLabel pos name false) /\
  labelObjs p !! l = None.
Proof.
  unfold NewLabel. destruct (cur_fn p); [|discriminate].
  destruct (cur_labels p !! name) as [old|].
  - destruct (labelObjs p !! old); [|discriminate].
    intros H. apply rbind_Ok in H as [q [_ H]]. discriminate.
  - intros H. injection H as <- <-. split; [|split].
    + destruct_builder p. apply lookup_insert_eq.
    + destruct_builder p. apply lookup_insert_eq.
    + apply not_elem_of_dom, is_fresh.
Qed.

(** With the default handler, which panics, the close stops at the first
    unused label that [range] visits. *)
Lemma checkLabelsIn_default_handler (entries : list (string * LabelRef)) (p : CodeBuilder) :
  handleErr p = defaultHandleErr ->
  (forall n r, (n, r) ∈ entries -> is_Some (labelObjs p !! r)) ->
  checkLabelsIn entries p
  = match unusedLabelErrs p entries with
    | [] => Ok p
    | e :: _ => Panic (PanicError e)
    end.
Proof.
  intros Hh. induction entries as [|[n r] rest IH]; intros Hobj.
  - reflexivity.
  - destruct (Hobj n r) as [l Hl]; [left|].
    assert (Hrest : forall n' r', (n', r') ∈ rest -> is_Some (labelObjs p !! r'))
      by (intros n' r' Hin; apply (Hobj n' r'); by right).
    simpl. unfold checkLabel, unusedLabelErrs. simpl. rewrite Hl.
    destruct (used l) eqn:Hu; simpl.
    + apply IH, Hrest.
    + unfold callHandleErr. rewrite Hh. reflexivity.
Qed.

(** [Goto], [Break] and [Continue] with a label set its [used] flag. *)
Lemma markUsed_used (l : LabelRef) (o : Label) (p : CodeBuilder) :
  labelObjs p !! l = Some o ->
  labelObjs (markUsed l p) !! l = Some (mkLabel (label_pos o) (label_name o) true).
Proof. intros H. unfold markUsed; simpl. by rewrite lookup_alter_eq, H. Qed.

Lemma emitStmt_labelObjs (stmt : ast.Stmt) (p : CodeBuilder) :
  labelObjs (emitStmt stmt p) = labelObjs p.
Proof. unfold emitStmt. destruct (comments p); [destruct (commentOnce _)|]; reflexivity. Qed.

Lemma Goto_marks_used (l : LabelRef) (o : Label) (p : CodeBuilder) :
  labelObjs p !! l = Some o ->
  exists p', Goto (Some l) p = Ok p' /\
             (used <$> labelObjs p' !! l) = Some true.
Proof.
  intros H. unfold Goto, labelName. rewrite H. simpl. eexists. split; [reflexivity|].
  rewrite emitStmt_labelObjs. simpl. by rewrite lookup_alter_eq, H.
Qed.

Lemma Break_marks_used (l : LabelRef) (o : Label) (p : CodeBuilder) :
  labelObjs p !! l = Some o ->
  exists p', Break (Some l) p = Ok p' /\
             (used <$> labelObjs p' !! l) = Some true.
Proof.
  intros H. unfold Break, labelFlow, labelName. rewrite H. simpl.
  eexists. split; [reflexivity|].
  rewrite emitStmt_labelObjs. simpl. by rewrite lookup_alter_eq, H.
Qed.

Lemma Continue_marks_used (l : LabelRef) (o : Label) (p : CodeBuilder) :
  labelObjs p !! l = Some o ->
  exists p', Continue (Some l) p = Ok p' /\
             (used <$> labelObjs p' !! l) = Some true.
Proof.
  intros H. unfold Continue, labelFlow, labelName. rewrite H. simpl.
  eexists. split; [reflexivity|].
  rewrite emitStmt_labelObjs. simpl. by rewrite lookup_alter_eq, H.
Qed.


(** ** C3: the length of the stack when a block is closed *)

#[local] Arguments emitStmt : simpl never.
#[local] Arguments endBlockStmt : simpl never.
#[local] Arguments endFuncBody : simpl never.
#[local] Arguments internal.PopN : simpl never.
#[local] Arguments internal.SetLen : simpl never.
#[local] Arguments internal.Len : simpl never.

Lemma SetLen_len (n : Z) (s s' : internal.Stack) :
  internal.SetLen regrow n s = Ok s' -> internal.Len s' = n.
Proof.
  unfold internal.SetLen, internal.in_range.
  destruct (Z.leb_spec 0 n); destruct (Z.leb_spec n (internal.Len s)); simpl;
    try apply regrow_len.
  intros Heq. injection Heq as <-. unfold internal.Len in *; simpl.
  rewrite length_take. lia.
Qed.

Lemma SetLen_in_range (n : Z) (s : internal.Stack) :
  0 <= n <= internal.Len s -> exists s', internal.SetLen regrow n s = Ok s'.
Proof.
  intros [H0 H1]. unfold internal.SetLen, internal.in_range.
  destruct (Z.leb_spec 0 n); [|lia]. destruct (Z.leb_spec n (internal.Len s)); [|lia].
  simpl. eauto.
Qed.

Lemma PopN_len (n : Z) (s s' : internal.Stack) :
  internal.PopN n s = Ok s' -> internal.Len s' = internal.Len s - n.
Proof.
  unfold internal.PopN, internal.in_range.
  destruct (Z.leb_spec 0 n); destruct (Z.leb_spec n (internal.Len s)); simpl;
    try discriminate.
  intros Heq. injection Heq as <-. unfold internal.Len in *; simpl.
  rewrite length_take. lia.
Qed.

Lemma runtime_Ok {A} (r : Res string A) (a : A) : runtime r = Ok a -> r = Ok a.
Proof. destruct r; simpl; congruence. Qed.

Lemma endBlockStmt_closes (old : codeBlockCtx) (p p' : CodeBuilder)
    (stmts : list ast.Stmt) (flows : Z) :
  endBlockStmt old p = Ok (stmts, flows, p') ->
  internal.Len (stk p') = cb_base (cur p) /\ cur p' = old.
Proof.
  unfold endBlockStmt. intros H.
  destruct (cb_label (cur p)).
  - destruct (runtime _) as [s|] eqn:Hs; simpl in H; [|discriminate].
    injection H as _ _ <-. apply runtime_Ok, SetLen_len in Hs.
    rewrite emitStmt_base in Hs. split; [exact Hs|]. by destruct_builder p.
  - destruct (runtime _) as [s|] eqn:Hs; simpl in H; [|discriminate].
    injection H as _ _ <-. apply runtime_Ok, SetLen_len in Hs.
    split; [exact Hs|]. by destruct_builder p.
Qed.

Lemma endBlockStmt_returns (old : codeBlockCtx) (p : CodeBuilder) :
  0 <= cb_base (cur p) <= internal.Len (stk p) ->
  exists r, endBlockStmt old p = Ok r.
Proof.
  intros Hb. unfold endBlockStmt.
  destruct (cb_label (cur p)).
  - destruct (SetLen_in_range (cb_base (cur (emitStmt ast.EmptyStmt p)))
                (stk (emitStmt ast.EmptyStmt p))) as [s Hs].
    { by rewrite emitStmt_base, emitStmt_stk. }
    rewrite Hs. simpl. eauto.
  - destruct (SetLen_in_range (cb_base (cur p)) (stk p) Hb) as [s Hs].
    rewrite Hs. simpl. eauto.
Qed.

(** [checkLabels] touches nothing but the trace of reported errors. *)
Lemma checkLabelsIn_frame (entries : list (string * LabelRef)) (p p' : CodeBuilder) :
  checkLabelsIn entries p = Ok p' -> stk p' = stk p /\ cur p' = cur p.
Proof.
  revert p. induction entries as [|e rest IH]; intros p H; simpl in H.
  - injection H as <-. auto.
  - destruct (checkLabel e p) as [q|] eqn:Hq; simpl in H; [|discriminate].
    destruct (IH q H) as [-> ->].
    unfold checkLabel in Hq. destruct (labelObjs p !! e.2); [|discriminate].
    destruct (negb _).
    + unfold callHandleErr in Hq. destruct (handleErr p _); simpl in Hq; [|discriminate].
      injection Hq as <-. by destruct_builder p.
    + injection Hq as <-. auto.
Qed.

Lemma cur_set_cur_fn (f : option Func) (p : CodeBuilder) : cur (set_cur_fn f p) = cur p.
Proof. by destruct_builder p. Qed.

Lemma endFuncBody_closes (old : funcBodyCtx) (p p' : CodeBuilder) (stmts : list ast.Stmt) :
  endFuncBody old p = Ok (stmts, p') ->
  internal.Len (stk p') = cb_base (cur p).
Proof.
  unfold endFuncBody, checkLabels. intros H.
  destruct (checkLabelsIn _ p) as [p1|] eqn:H1; simpl in H; [|discriminate].
  destruct (endBlockStmt _ _) as [[[st fl] q]|] eqn:H2; simpl in H; [|discriminate].
  injection H as _ <-.
  apply endBlockStmt_closes in H2 as [H2 _].
  apply checkLabelsIn_frame in H1 as [_ H1].
  rewrite H2, cur_set_cur_fn. by rewrite H1.
Qed.


Lemma returnResultsOf_len (fn : Func) (idx : list nat) (p p' : CodeBuilder) :
  returnResultsOf fn idx p = Ok p' ->
  internal.Len (stk p') = internal.Len (stk p) + Z.of_nat (length idx).
Proof.
  revert p. induction idx as [|i rest IH]; intros p H; simpl in H.
  - injection H as <-. simpl. lia.
  - unfold pushVal in H.
    destruct (toExpr _ _ _) as [e|]; simpl in H; [|discriminate].
    apply IH in H. rewrite H.
    change (stk (set_paramInsts _ (set_stk (internal.Push e (stk p)) p)))
      with (internal.Push e (stk p)).
    unfold internal.Push, internal.Len; simpl. rewrite length_app; simpl. lia.
Qed.

Lemma cleanParamsOf_stk (fn : Func) (idx : list nat) (p : CodeBuilder) :
  stk (cleanParamsOf fn idx p) = stk p.
Proof.
  unfold cleanParamsOf. revert p. induction idx as [|i rest IH]; intros p; simpl.
  - reflexivity.
  - by rewrite IH.
Qed.

Lemma Label_frame (l : option LabelRef) (p p' : CodeBuilder) :
  Label_ l p = Ok p' -> stk p' = stk p /\ cb_base (cur p') = cb_base (cur p).
Proof.
  unfold Label_. destruct (labelName l p); simpl; [|discriminate].
  intros H. injection H as <-. by destruct_builder p.
Qed.

Lemma inlineClosureEnd_len (fn : Func) (old : funcBodyCtx) (p p' : CodeBuilder) :
  inlineClosureEnd fn old p = Ok p' ->
  exists sig,
    signatureOf fn = Ok sig /\
    internal.Len (stk p')
    = cb_base (cur p) - getInlineCallArity fn + Z.of_nat (length (sigResults sig)).
Proof.
  unfold inlineClosureEnd. intros H.
  apply rbind_Ok in H as [p1 [H1 H]].
  assert (Hb : cb_base (cur p1) = cb_base (cur p)).
  { destruct (needEndingLabel fn p) as [ending [|]].
    - by apply Label_frame in H1 as [_ ?].
    - by injection H1 as <-. }
  apply rbind_Ok in H as [sig [Hsig H]].
  exists sig. split; [exact Hsig|].
  apply rbind_Ok in H as [[stmts p2] [H2 H]].
  apply endFuncBody_closes in H2.
  apply rbind_Ok in H as [s [H3 H]].
  apply runtime_Ok, PopN_len in H3. rewrite emitStmt_stk in H3. cbn [fst snd] in H3.
  apply rbind_Ok in H as [p4 [H4 H]].
  injection H as <-. rewrite cleanParamsOf_stk.
  apply returnResultsOf_len in H4. rewrite H4, length_seq.
  change (stk (set_stk s (emitStmt (ast.BlockStmt (stmts, p2).1) (stmts, p2).2))) with s.
  rewrite H3, H2, Hb. reflexivity.
Qed.

Lemma Block_base (p : CodeBuilder) :
  cb_base (cur (Block p)) = internal.Len (stk p) /\
  stk (Block p) = stk p /\
  cb_codeBlock (cur (Block p)) = Some (blockStmt (cur p)).
Proof. by destruct_builder p. Qed.

Lemma startFuncBody_base (fn : Func) (p p' : CodeBuilder) :
  startFuncBody fn p = Ok p' ->
  cb_base (cur p') = internal.Len (stk p) /\
  stk p' = stk p /\
  cb_codeBlock (cur p') = Some (funcBlock fn (mkFuncBodyCtx (cur p) (cur_fn p) ∅)).
Proof.
  unfold startFuncBody. destruct (signatureOf fn); simpl; [|discriminate].
  intros H. injection H as <-. by destruct_builder p.
Qed.

(** C3, as the code has it. A block records the length of the stack as its
    base when it is opened. Closing it with [endBlockStmt] leaves the stack
    at that base (and [endBlockStmt] returns whenever the stack is not
    below the base). [End] of a plain block returns with the stack at the
    base (and it returns whenever the stack is not below the base, and
    exactly at it when [debugInstr] is on); the end of an inline closure,
    [inlineClosureEnd], then pops the arguments of the call and pushes one
    operand for each result, so that [End] returns with the length
    [base - arity + results]. *)
Theorem End_stack_length (p : CodeBuilder) :
  (cb_base (cur (Block p)) = internal.Len (stk p) /\
   forall fn p1, startFuncBody fn p = Ok p1 -> cb_base (cur p1) = internal.Len (stk p)) /\
  (forall old,
     (0 <= cb_base (cur p) <= internal.Len (stk p) -> exists r, endBlockStmt old p = Ok r) /\
     (forall stmts flows p',
        endBlockStmt old p = Ok (stmts, flows, p') ->
        internal.Len (stk p') = cb_base (cur p) /\ cur p' = old)) /\
  (forall old,
     cb_codeBlock (cur p) = Some (blockStmt old) ->
     (0 <= cb_base (cur p) <= internal.Len (stk p) ->
      debugInstr = false \/ internal.Len (stk p) = cb_base (cur p) ->
      exists p', End_ p = Ok p') /\
     (forall p', End_ p = Ok p' -> internal.Len (stk p') = cb_base (cur p))) /\
  (forall fn old p',
     inlineClosureEnd fn old p = Ok p' ->
     internal.Len (stk p')
     = cb_base (cur p) - getInlineCallArity fn
       + Z.of_nat (length (sigResults (types.func_type (fn_obj fn))))) /\
  (forall fn old p',
     cb_codeBlock (cur p) = Some (funcBlock fn old) ->
     isInline fn = true ->
     End_ p = Ok p' ->
     internal.Len (stk p')
     = cb_base (cur p) - getInlineCallArity fn
       + Z.of_nat (length (sigResults (types.func_type (fn_obj fn))))).
Proof.
  assert (Hinline : forall fn old p',
     inlineClosureEnd fn old p = Ok p' ->
     internal.Len (stk p')
     = cb_base (cur p) - getInlineCallArity fn
       + Z.of_nat (length (sigResults (types.func_type (fn_obj fn))))).
  { intros fn old p' H. apply inlineClosureEnd_len in H as [sig [Hsig ->]].
    unfold signatureOf in Hsig.
    destruct (types.func_type (fn_obj fn)); try discriminate.
    by injection Hsig as <-. }
  split; [|split; [|split; [|split; [exact Hinline|]]]].
  - split; [apply Block_base|]. intros fn p1 H. by apply startFuncBody_base in H as [? _].
  - intros old. split; [apply endBlockStmt_returns|]. intros stmts flows p'.
    apply endBlockStmt_closes.
  - intros old Hb. unfold End_, codeBlock_End. rewrite Hb. unfold blockStmt_End. split.
    + intros Hrange Hdbg.
      assert ((debugInstr && (cb_base (cur p) <? internal.Len (stk p)))%bool = false) as ->.
      { destruct Hdbg as [-> | ->]; [reflexivity|]. rewrite Z.ltb_irrefl. apply andb_false_r. }
      destruct (endBlockStmt_returns old p Hrange) as [r ->]. cbn [rbind]. eauto.
    + intros p'. destruct (_ && _)%bool; [discriminate|].
      intros H. apply rbind_Ok in H as [[[stmts flows] q] [He H]].
      injection H as <-. rewrite emitStmt_stk.
      by apply endBlockStmt_closes in He as [? _].
  - intros fn old p' Hb Hin. unfold End_, codeBlock_End, Func_End. rewrite Hb, Hin.
    destruct (_ && _)%bool; [discriminate|].
    apply Hinline.
Qed.


(** ** C1: which function an operator resolves to *)

Lemma GetArgs_top2 (rest : list internal.Elem) (a0 a1 : internal.Elem) :
  internal.GetArgs 2 (internal.mkStack (rest ++ [a0; a1])) = Ok [a0; a1].
Proof.
  unfold internal.GetArgs, internal.in_range, internal.Len. simpl.
  rewrite length_app. simpl.
  destruct (Z.leb_spec 2 (Z.of_nat (length rest + 2))); [|lia].
  replace (Z.to_nat (Z.of_nat (length rest + 2) - 2)) with (length rest) by lia.
  by rewrite drop_app_length.
Qed.

(** C1, as the code has it. The operands are of named types [N] (first) and
    [M] (second) and [sfx] is the method suffix of [op]. [BinaryOp] calls the
    method [goxPrefix ++ sfx] of [N] on the two operands when [N] defines it.
    When [N] does not, the methods of [M] play no part: for [==] and [!=]
    the result is the comparison itself (or the mismatched-types error when
    the operands are not comparable), and for any other operator it is the
    call of the builtin of that name (a panic when there is none). The
    outcome is a function of the operator and of the builder. *)
Theorem BinaryOp_resolution
    (p : CodeBuilder) (op : token.Token) (sfx : string) (src : option ast.Node)
    (rest : list internal.Elem) (a0 a1 : internal.Elem) (N M : types.NamedRef) :
  binaryOps op = Some sfx ->
  stk p = internal.mkStack (rest ++ [a0; a1]) ->
  internal.Type_ a0 = Some (types.Named N) ->
  internal.Type_ a1 = Some (types.Named M) ->
  let name := goxPrefix +:+ sfx in
  let args := [a0; a1] in
  (forall lm, lookupMethod p N name = Some lm ->
     BinaryOp op src p
     = (r <- matchFuncCall (pkg p) (methodFn a0 name lm) args 0 ;;;
        finishBinaryOp src args p r)) /\
  (lookupMethod p N name = None ->
     (op = token.EQL \/ op = token.NEQ) ->
     BinaryOp op src p
     = finishBinaryOp src args p
         (if ComparableTo (pkg p) a0 a1
          then inl (internal.mkElem
                      (ast.BinaryExpr (checkParenExpr (internal.Val a0)) op
                         (checkParenExpr (internal.Val a1)))
                      (Some (types.Basic types.UntypedBool)) (binaryOp p op args) None)
          else inr "mismatched types")) /\
  (lookupMethod p N name = None ->
     op <> token.EQL -> op <> token.NEQ ->
     BinaryOp op src p
     = match builtin (pkg p) !! name with
       | Some b =>
           r <- matchFuncCall (pkg p) (toObject (pkg p) b None) args 0 ;;;
           finishBinaryOp src args p r
       | None => Panic (PanicString "TODO: operator not matched")
       end) /\
  (forall r1 r2, BinaryOp op src p = r1 -> BinaryOp op src p = r2 -> r1 = r2).
Proof.
  intros HS Hstk HN HM name args.
  assert (Hcall : BinaryOp op src p
                  = (r <- callOpFunc p op binaryOps args 0 ;;; finishBinaryOp src args p r)).
  { unfold BinaryOp. rewrite Hstk, GetArgs_top2. reflexivity. }
  rewrite Hcall. unfold callOpFunc. rewrite HS. simpl. rewrite HN. simpl.
  fold name. split; [|split; [|split]]; [| | |congruence].
  - intros lm Hlm. rewrite Hlm. reflexivity.
  - intros Hnone Hop. rewrite Hnone.
    assert ((token.Token_eqb op token.EQL || token.Token_eqb op token.NEQ)%bool = true) as ->
      by (destruct Hop as [-> | ->]; reflexivity).
    simpl. destruct (ComparableTo (pkg p) a0 a1); reflexivity.
  - intros Hnone H1 H2. rewrite Hnone.
    assert ((token.Token_eqb op token.EQL || token.Token_eqb op token.NEQ)%bool = false) as ->
      by (destruct op; try reflexivity; congruence).
    destruct (builtin (pkg p) !! name); reflexivity.
Qed.


(** ** C2: struct literals by position *)

Lemma GetArgs_app (rest args : list internal.Elem) :
  internal.GetArgs (Z.of_nat (length args)) (internal.mkStack (rest ++ args)) = Ok args.
Proof.
  unfold internal.GetArgs, internal.in_range, internal.Len. simpl.
  rewrite length_app.
  destruct (Z.leb_spec 0 (Z.of_nat (length args))); [|lia].
  destruct (Z.leb_spec (Z.of_nat (length args)) (Z.of_nat (length rest + length args))); [|lia].
  simpl.
  replace (Z.to_nat (Z.of_nat (length rest + length args) - Z.of_nat (length args)))
    with (length rest) by lia.
  by rewrite drop_app_length.
Qed.

Lemma PopN_app (rest args : list internal.Elem) :
  internal.PopN (Z.of_nat (length args)) (internal.mkStack (rest ++ args))
  = Ok (internal.mkStack rest).
Proof.
  unfold internal.PopN, internal.in_range, internal.Len. simpl.
  rewrite length_app.
  destruct (Z.leb_spec 0 (Z.of_nat (length args))); [|lia].
  destruct (Z.leb_spec (Z.of_nat (length args)) (Z.of_nat (length rest + length args))); [|lia].
  simpl.
  replace (Z.to_nat (Z.of_nat (length rest + length args) - Z.of_nat (length args)))
    with (length rest) by lia.
  by rewrite take_app_length.
Qed.

Lemma Ret_app (rest args : list internal.Elem) (e : internal.Elem) :
  internal.Ret (Z.of_nat (length args)) e (internal.mkStack (rest ++ args))
  = Ok (internal.mkStack (rest ++ [e])).
Proof. unfold internal.Ret. rewrite PopN_app. reflexivity. Qed.

Lemma structLitValues_ok (p : CodeBuilder) (fields : list (string * types.type))
    (args : list internal.Elem) :
  assignableToFields p args fields ->
  structLitValues p fields args = Ok (map internal.Val args).
Proof.
  unfold assignableToFields. induction 1 as [|a [fname fty] args fields Ha _ IH]; simpl.
  - reflexivity.
  - simpl in Ha. rewrite Ha, IH. reflexivity.
Qed.

(** C2, as the code has it. [typ] is a struct type with the fields
    [fields], and [args] are the top [arity] operands. In positional mode:
    with as many operands as fields, each assignable to its field, the
    operands are replaced by one composite literal of them; with no operand
    at all the literal is empty, whatever the number of fields; with any
    other number of operands the instruction panics with "too few values" or
    "too many values", at the position of the last operand. *)
Theorem StructLit_positional_arity
    (p p1 : CodeBuilder) (typ : option types.type) (fields : list (string * types.type))
    (typExpr : ast.Expr) (rest args : list internal.Elem) :
  structLitType typ p = Ok (fields, typExpr, p1) ->
  stk p1 = internal.mkStack (rest ++ args) ->
  let arity := Z.of_nat (length args) in
  let n := Z.of_nat (length fields) in
  (arity = n -> assignableToFields p1 args fields ->
     StructLit typ arity false p
     = Ok (set_stk (internal.mkStack
                      (rest ++ [compositeLit typExpr (map internal.Val args) typ])) p1)) /\
  (arity = 0 ->
     StructLit typ arity false p
     = Ok (set_stk (internal.mkStack (rest ++ [compositeLit typExpr [] typ])) p1)) /\
  (arity <> n -> arity <> 0 ->
     exists last_,
       last args = Some last_ /\
       StructLit typ arity false p
       = Panic (PanicError
                  (newCodeError p1 (Some (loadExpr p1 (internal.Src last_)).2)
                     (tooFewOrMany (if Z.ltb n arity then "many" else "few") typ)))).
Proof.
  intros Htyp Hstk arity n.
  assert (Hargs : args = [] \/ exists last_, last args = Some last_).
  { destruct (last args) eqn:Hl; [eauto|]. apply last_None in Hl. auto. }
  unfold StructLit. rewrite Htyp. cbn [rbind]. rewrite Hstk.
  subst arity n. rewrite GetArgs_app. cbn [rbind runtime negb].
  split; [|split].
  - intros Hn Hassign. rewrite Hn, Z.eqb_refl. cbn [negb].
    rewrite (structLitValues_ok p1 fields args Hassign). cbn [rbind].
    rewrite <- Hn. rewrite Ret_app. reflexivity.
  - intros H0. assert (args = []) as -> by (destruct args; [reflexivity|simpl in H0; lia]).
    change (negb (Z.of_nat (length (@nil internal.Elem)) =? 0)) with false.
    destruct (Z.of_nat (length (@nil internal.Elem)) =? Z.of_nat (length fields));
      cbn [negb rbind structLitValues]; rewrite Ret_app; reflexivity.
  - intros Hn H0.
    destruct (Z.eqb_spec (Z.of_nat (length args)) (Z.of_nat (length fields))); [contradiction|].
    destruct (Z.eqb_spec (Z.of_nat (length args)) 0); [contradiction|]. cbn [negb].
    destruct Hargs as [-> | [last_ Hlast]]; [simpl in H0; lia|].
    exists last_. split; [exact Hlast|].
    unfold index.
    replace (Z.to_nat (Z.of_nat (length args) - 1)) with (pred (length args)) by lia.
    rewrite <- last_lookup, Hlast. cbn [rbind].
    destruct (loadExpr p1 (internal.Src last_)) as [code pos]. reflexivity.
Qed.


(** ** C6: assigning the results of one call *)

Lemma assignFromTuple_ok (p : CodeBuilder) (vars : list internal.Elem)
    (rhsVals : list (string * types.type)) :
  resultsAssignable p vars rhsVals ->
  assignFromTuple p vars rhsVals = Ok (map internal.Val vars).
Proof.
  unfold resultsAssignable. induction 1 as [|v r vars rhsVals Hv _ IH]; simpl.
  - reflexivity.
  - rewrite Hv, IH. reflexivity.
Qed.

(** C6: the stack ends with [k] left-hand operands [vars] and one operand
    [x] whose type is the tuple [rhsVals] of [m] results. If [m] differs from
    [k], the assignment of [k] to 1 panics with the diagnostic "assignment
    mismatch: k variables but <caller> returns m values", where <caller> is
    what the interpreter calls the source of [x]. If [m = k] and each
    variable accepts its result, the [k + 1] operands are popped and exactly
    one assignment statement is appended, with the variables on the left and
    [x] on the right. *)
Theorem doAssignWith_call_results
    (p : CodeBuilder) (src : option ast.Node) (rest vars : list internal.Elem)
    (x : internal.Elem) (rhsVals : list (string * types.type)) :
  stk p = internal.mkStack (rest ++ vars ++ [x]) ->
  internal.Type_ x = Some (types.Tuple rhsVals) ->
  let k := Z.of_nat (length vars) in
  let m := Z.of_nat (length rhsVals) in
  (m <> k ->
     doAssignWith k 1 src p
     = Panic (PanicError
                (mkCodeError
                   ("assignment mismatch: " +:+ pretty k +:+ " variables but " +:+
                    getCaller p (internal.Src x) +:+ " returns " +:+ pretty m +:+ " values")
                   (Some (nodePosition p src)) (cb_scope (cur p)) (cur_fn p)))) /\
  (m = k -> resultsAssignable p vars rhsVals ->
     exists p',
       doAssignWith k 1 src p = Ok p' /\
       stk p' = internal.mkStack rest /\
       cb_stmts (cur p')
       = cb_stmts (cur p)
         ++ [labeled (cb_label (cur p))
               (ast.AssignStmt token.ASSIGN (map internal.Val vars) [internal.Val x])]).
Proof.
  intros Hstk Hx k m.
  assert (Hlen : k + 1 = Z.of_nat (length (vars ++ [x])))
    by (rewrite length_app; simpl; lia).
  assert (Hk : Z.to_nat k = length vars) by lia.
  unfold doAssignWith. rewrite Hstk, Hlen, GetArgs_app. cbn [rbind runtime].
  destruct (Z.ltb_spec k 0) as [Hneg|_]; [lia|].
  change (1 <? 0) with false. change (1 =? 1) with true. cbn [orb].
  rewrite Hk, drop_app_length, take_app_length, Hx.
  split.
  - intros Hne. subst m. destruct (Z.eqb_spec k (Z.of_nat (length rhsVals))); [lia|].
    reflexivity.
  - intros He Hassign. subst m. rewrite He, Z.eqb_refl. cbn [negb].
    rewrite (assignFromTuple_ok p vars rhsVals Hassign). cbn [rbind].
    rewrite emitStmt_stk, Hstk. rewrite <- Hlen, Hlen, PopN_app. cbn [rbind runtime].
    eexists. split; [reflexivity|]. split; [reflexivity|].
    change (cur (set_stk ?s ?q)) with (cur q).
    apply emitStmt_stmts.
Qed.

(** * More properties of the code builder *)

(** ** Moving and removing statements *)

Lemma cur_set_cur (c : codeBlockCtx) (p : CodeBuilder) : cur (set_cur c p) = c.
Proof. by destruct_builder p. Qed.

Lemma stmts_set_stmts (s : list ast.Stmt) (c : codeBlockCtx) : cb_stmts (set_stmts s c) = s.
Proof. by destruct c. Qed.

Lemma commitStmt_at (p : CodeBuilder) (front back : list ast.Stmt) (stmt : ast.Stmt) :
  cb_stmts (cur p) = front ++ stmt :: back ->
  exists p',
    commitStmt (Z.of_nat (length front)) p = Ok p' /\
    cb_stmts (cur p') = front ++ back ++ [stmt] /\
    cb_stmts (cur p') ≡ₚ cb_stmts (cur p) /\
    stk p' = stk p.
Proof.
  intros Hs. destruct back as [|b back].
  - exists p. unfold commitStmt. rewrite Hs, length_app. simpl.
    destruct (Z.ltb_spec (Z.of_nat (length front)) (Z.of_nat (length front + 1) - 1)); [lia|].
    split; [reflexivity|]. simpl. repeat split; reflexivity.
  - unfold commitStmt. rewrite Hs, length_app. simpl.
    destruct (Z.ltb_spec (Z.of_nat (length front))
                (Z.of_nat (length front + S (S (length back))) - 1)); [|lia].
    destruct (Z.ltb_spec (Z.of_nat (length front)) 0); [lia|].
    rewrite Nat2Z.id. unfold index.
    rewrite lookup_app_r by lia. rewrite Nat.sub_diag. simpl.
    eexists. split; [reflexivity|].
    rewrite cur_set_cur, stmts_set_stmts.
    rewrite take_app_length.
    rewrite drop_app_ge by lia.
    replace (S (length front) - length front)%nat with 1%nat by lia.
    cbn [drop].
    split; [reflexivity|]. split; [|by destruct_builder p].
    apply Permutation_app_head.
    change (stmt :: b :: back) with ([stmt] ++ (b :: back)).
    apply Permutation_app_comm.
Qed.

(** X1: [commitStmt(idx)] on a block of statements [front ++ stmt :: back],
    with [idx] the place of [stmt], makes [stmt] the last statement and keeps
    the others in their order; the statements are the same up to order. With
    [idx] at or past the last place nothing changes, and a negative [idx] in a
    block of statements is an index out of range. *)
Theorem commitStmt_moves_to_end
    (p : CodeBuilder) (front back : list ast.Stmt) (stmt : ast.Stmt) :
  cb_stmts (cur p) = front ++ stmt :: back ->
  (exists p',
     commitStmt (Z.of_nat (length front)) p = Ok p' /\
     cb_stmts (cur p') = front ++ back ++ [stmt] /\
     cb_stmts (cur p') ≡ₚ cb_stmts (cur p) /\
     stk p' = stk p) /\
  (forall idx, Z.of_nat (length (cb_stmts (cur p))) - 1 <= idx -> commitStmt idx p = Ok p) /\
  (forall idx, idx < 0 -> commitStmt idx p = Panic (PanicRuntime "index out of range")).
Proof.
  intros Hs. split; [|split].
  - exact (commitStmt_at p front back stmt Hs).
  - intros idx Hidx. unfold commitStmt.
    destruct (Z.ltb_spec idx (Z.of_nat (length (cb_stmts (cur p))) - 1)); [lia|]. reflexivity.
  - intros idx Hidx. unfold commitStmt. rewrite Hs, length_app. simpl.
    destruct (Z.ltb_spec idx (Z.of_nat (length front + S (length back)) - 1)); [|lia].
    destruct (Z.ltb_spec idx 0); [|lia]. reflexivity.
Qed.

(** X2: a statement that [startStmtAt] put into the block can be brought
    to the end after any statements emitted later: with [idx] the place
    [startStmtAt] returned and [more] the statements that followed,
    [commitStmt(idx)] leaves the earlier statements, then [more], then the
    statement. *)
Theorem startStmtAt_commitStmt
    (p q : CodeBuilder) (stmt : ast.Stmt) (more : list ast.Stmt) :
  cb_stmts (cur q) = cb_stmts (cur (startStmtAt stmt p).2) ++ more ->
  exists q',
    commitStmt (startStmtAt stmt p).1 q = Ok q' /\
    cb_stmts (cur q')
    = cb_stmts (cur p) ++ more ++ [labeled (cb_label (cur p)) stmt].
Proof.
  unfold startStmtAt. cbn [fst snd]. rewrite emitStmt_stmts, <- app_assoc.
  cbn [app]. intros Hq.
  destruct (commitStmt_at q (cb_stmts (cur p)) more
              (labeled (cb_label (cur p)) stmt) Hq) as [q' [Hc [Hs _]]].
  eauto.
Qed.

(** X3: [popStmt] undoes [emitStmt] on the statement list: it returns the
    statement that was appended (under its label, if one waited) and the
    list is as before; on a block without statements it is an index out of
    range. *)
Theorem popStmt_after_emitStmt (p : CodeBuilder) (stmt : ast.Stmt) :
  (exists q,
     popStmt (emitStmt stmt p) = Ok (labeled (cb_label (cur p)) stmt, q) /\
     cb_stmts (cur q) = cb_stmts (cur p) /\
     stk q = stk p) /\
  (cb_stmts (cur p) = [] -> popStmt p = Panic (PanicRuntime "index out of range")).
Proof.
  split.
  - unfold popStmt. rewrite emitStmt_stmts, last_snoc.
    eexists. split; [reflexivity|].
    rewrite cur_set_cur, stmts_set_stmts, length_app. simpl.
    replace (length (cb_stmts (cur p)) + 1 - 1)%nat with (length (cb_stmts (cur p))) by lia.
    rewrite take_app_length. split; [reflexivity|].
    change (stk (set_cur ?c ?x)) with (stk x). apply emitStmt_stk.
  - intros H. unfold popStmt. rewrite H. reflexivity.
Qed.

(** X4: [returnResults(n)] with [n > 0] operands [args] on top of the stack
    pops exactly them and appends one return statement with their
    expressions in push order; with [n <= 0] it appends a bare return and
    leaves the stack alone; with more results than operands it panics. *)
Theorem returnResults_pops_results
    (p : CodeBuilder) (rest args : list internal.Elem) :
  stk p = internal.mkStack (rest ++ args) ->
  (args <> [] ->
   exists p',
     returnResults (Z.of_nat (length args)) p = Ok p' /\
     stk p' = internal.mkStack rest /\
     cb_stmts (cur p')
     = cb_stmts (cur p)
       ++ [labeled (cb_label (cur p)) (ast.ReturnStmt (map internal.Val args))]) /\
  (forall n, n <= 0 ->
     returnResults n p = Ok (emitStmt (ast.ReturnStmt []) p) /\
     stk (emitStmt (ast.ReturnStmt []) p) = stk p) /\
  (forall n, internal.Len (stk p) < n ->
     returnResults n p = Panic (PanicRuntime "slice bounds out of range")).
Proof.
  intros Hs. split; [|split].
  - intros Hne. unfold returnResults.
    assert (0 < Z.of_nat (length args)) by (destruct args; [done|simpl; lia]).
    destruct (Z.ltb_spec 0 (Z.of_nat (length args))); [|lia].
    rewrite Hs, GetArgs_app, PopN_app. cbn [rbind runtime].
    eexists. split; [reflexivity|]. rewrite emitStmt_stk, emitStmt_stmts.
    split; reflexivity.
  - intros n Hn. unfold returnResults.
    destruct (Z.ltb_spec 0 n); [lia|]. split; [reflexivity|apply emitStmt_stk].
  - intros n Hn. unfold returnResults.
    assert (0 <= internal.Len (stk p)) by (unfold internal.Len; lia).
    destruct (Z.ltb_spec 0 n); [|lia].
    unfold internal.GetArgs, internal.in_range.
    destruct (Z.leb_spec n (internal.Len (stk p))); [lia|].
    rewrite andb_false_r. reflexivity.
Qed.

(** ** Opening and closing a block *)

(** X5: a label that waits when its block is closed is not lost:
    [endBlockStmt] appends an empty statement under that label, and the
    statements it returns end with it. Without a label it returns the
    statements of the block as they are. *)
Theorem endBlockStmt_pending_label
    (p : CodeBuilder) (old : codeBlockCtx) :
  0 <= cb_base (cur p) <= internal.Len (stk p) ->
  exists p',
    endBlockStmt old p
    = Ok (match cb_label (cur p) with
          | Some (name, _) =>
              cb_stmts (cur p) ++ [ast.LabeledStmt name (Some ast.EmptyStmt)]
          | None => cb_stmts (cur p)
          end, cb_flows (cur p), p') /\
    cur p' = old /\
    internal.data (stk p') = take (Z.to_nat (cb_base (cur p))) (internal.data (stk p)).
Proof.
  intros Hb. unfold endBlockStmt.
  assert (Hset : forall q, stk q = stk p -> cb_base (cur q) = cb_base (cur p) ->
            internal.SetLen regrow (cb_base (cur q)) (stk q)
            = Ok (internal.mkStack (take (Z.to_nat (cb_base (cur p))) (internal.data (stk p))))).
  { intros q -> ->. unfold internal.SetLen, internal.in_range.
    destruct (Z.leb_spec 0 (cb_base (cur p))); [|lia].
    destruct (Z.leb_spec (cb_base (cur p)) (internal.Len (stk p))); [|lia]. reflexivity. }
  destruct (cb_label (cur p)) as [[name x]|] eqn:Hl.
  - rewrite (Hset _ (emitStmt_stk _ _) (emitStmt_base _ _)). cbn [rbind runtime].
    eexists. split.
    { rewrite emitStmt_stmts, Hl. reflexivity. }
    split; [apply cur_set_cur|reflexivity].
  - rewrite (Hset p eq_refl eq_refl). cbn [rbind runtime].
    eexists. split; [reflexivity|]. split; [apply cur_set_cur|reflexivity].
Qed.


(** ** Defining and finding labels *)

Lemma cur_labels_set_labelObjs (m : gmap LabelRef Label) (p : CodeBuilder) :
  cur_labels (set_labelObjs m p) = cur_labels p.
Proof. reflexivity. Qed.

(** X7: in a function body, [NewLabel] for a name that is free returns a
    new label, not used yet, which [LookupLabel] then finds under that name;
    every other name is looked up as before, and the labels that existed are
    untouched. *)
Theorem NewLabel_then_LookupLabel
    (p : CodeBuilder) (fn : Func) (pos : token.Pos) (name : string) :
  cur_fn p = Some fn ->
  LookupLabel name p = None ->
  exists l p',
    NewLabel pos name p = Ok (Some l, p') /\
    LookupLabel name p' = Some l /\
    labelObjs p' !! l = Some (mkLabel pos name false) /\
    labelObjs p !! l = None /\
    (forall other, other <> name -> LookupLabel other p' = LookupLabel other p) /\
    (forall l0, l0 <> l -> labelObjs p' !! l0 = labelObjs p !! l0) /\
    stk p' = stk p /\ cur p' = cur p.
Proof.
  unfold LookupLabel. intros Hfn Hfree. unfold NewLabel. rewrite Hfn, Hfree.
  eexists. eexists. split; [reflexivity|].
  destruct_builder p. cbn. simpl in *.
  split; [apply lookup_insert_eq|]. split; [apply lookup_insert_eq|].
  split; [apply not_elem_of_dom, is_fresh|].
  split; [intros other Ho; by apply lookup_insert_ne|].
  split; [intros l0 Hl0; by apply lookup_insert_ne|]. split; reflexivity.
Qed.

(** X8: [NewLabel] for a name that is taken defines nothing: it passes
    "label <name> already defined at <position of the first one>" to
    [handleErr] and, when the handler returns, returns nil with the labels
    as they were; with the default handler it panics with that diagnostic.
    Outside a function body it panics with a syntax error. *)
Theorem NewLabel_duplicate
    (p : CodeBuilder) (pos : token.Pos) (name : string) (old : LabelRef) (oldL : Label) :
  cur_labels p !! name = Some old ->
  labelObjs p !! old = Some oldL ->
  let err := newCodePosError p pos (labelDefinedMsg name (position p (label_pos oldL))) in
  (cur_fn p = None ->
   NewLabel pos name p
   = Panic (PanicError
              (newCodePosError p pos
                 "syntax error: non-declaration statement outside function body"))) /\
  (cur_fn p <> None -> handleErr p err = Ok tt ->
   exists p',
     NewLabel pos name p = Ok (None, p') /\
     reported p' = reported p ++ [err] /\
     cur_labels p' = cur_labels p /\ labelObjs p' = labelObjs p /\ stk p' = stk p) /\
  (cur_fn p <> None -> handleErr p = defaultHandleErr ->
   NewLabel pos name p = Panic (PanicError err)).
Proof.
  intros Hname Hold err. unfold NewLabel. split; [|split].
  - intros ->. reflexivity.
  - intros Hfn Hh. destruct (cur_fn p); [|done]. rewrite Hname, Hold.
    unfold callHandleErr. fold (labelDefinedMsg name (position p (label_pos oldL))).
    fold err. rewrite Hh. cbn [rbind].
    eexists. split; [reflexivity|]. by destruct_builder p.
  - intros Hfn Hh. destruct (cur_fn p); [|done]. rewrite Hname, Hold.
    unfold callHandleErr. fold (labelDefinedMsg name (position p (label_pos oldL))).
    fold err. rewrite Hh. reflexivity.
Qed.

Lemma checkLabelsIn_labels (entries : list (string * LabelRef)) (p p' : CodeBuilder) :
  checkLabelsIn entries p = Ok p' ->
  cur_labels p' = cur_labels p /\ labelObjs p' = labelObjs p.
Proof.
  revert p. induction entries as [|e rest IH]; intros p H; simpl in H.
  - injection H as <-. auto.
  - apply rbind_Ok in H as [q [Hq H]].
    destruct (IH q H) as [-> ->].
    unfold checkLabel in Hq. destruct (labelObjs p !! e.2); [|discriminate].
    destruct (negb _).
    + unfold callHandleErr in Hq. apply rbind_Ok in Hq as [u [_ Hq]].
      injection Hq as <-. by destruct_builder p.
    + injection Hq as <-. auto.
Qed.

Lemma emitStmt_cur_labels (stmt : ast.Stmt) (p : CodeBuilder) :
  cur_labels (emitStmt stmt p) = cur_labels p.
Proof.
  unfold emitStmt. destruct (comments p); [destruct (commentOnce _)|];
    by destruct_builder p.
Qed.

(** X9: the table of labels belongs to the builder and not to a function
    body: [startFuncBody] enters a body with the labels defined so far and
    [endFuncBody] leaves it with the labels of the body still defined, so a
    name used for a label in one body stays taken in the next one. *)
Theorem labels_outlive_function_body
    (p p1 : CodeBuilder) (fn : Func) :
  startFuncBody fn p = Ok p1 ->
  cur_labels p1 = cur_labels p /\ labelObjs p1 = labelObjs p /\
  (forall old q stmts,
     endFuncBody old p1 = Ok (stmts, q) ->
     cur_labels q = cur_labels p1 /\ labelObjs q = labelObjs p1 /\
     cur_fn q = fb_fn old /\ cur q = fb_ctx old).
Proof.
  intros Hs. unfold startFuncBody in Hs.
  apply rbind_Ok in Hs as [sig [_ Hs]]. injection Hs as <-.
  split; [by destruct_builder p|]. split; [by destruct_builder p|].
  intros old q stmts H. unfold endFuncBody in H.
  apply rbind_Ok in H as [q1 [H1 H]].
  apply rbind_Ok in H as [[[st fl] q2] [H2 H]]. injection H as _ <-.
  apply checkLabelsIn_labels in H1 as [Hl Ho].
  unfold endBlockStmt in H2.
  apply rbind_Ok in H2 as [s [_ H2]]. injection H2 as _ _ <-.
  destruct (cb_label _).
  - change (cur_labels (set_cur ?c (set_stk ?s ?x))) with (cur_labels x).
    change (labelObjs (set_cur ?c (set_stk ?s ?x))) with (labelObjs x).
    change (cur_fn (set_cur ?c (set_stk ?s ?x))) with (cur_fn x).
    rewrite emitStmt_cur_labels, emitStmt_labelObjs, cur_set_cur.
    split; [|split; [|split]]; [| | |reflexivity].
    + rewrite <- Hl. by destruct_builder q1.
    + rewrite <- Ho. by destruct_builder q1.
    + unfold emitStmt. destruct (comments _); [destruct (commentOnce _)|];
        by destruct_builder q1.
  - rewrite cur_set_cur. split; [|split; [|split]]; [| | |reflexivity].
    + rewrite <- Hl. by destruct_builder q1.
    + rewrite <- Ho. by destruct_builder q1.
    + by destruct_builder q1.
Qed.

(** X10: [Break] and [Continue] without a label mark no label as used:
    they add their own flow flag and nothing else, and append a branch
    statement without label. With a label they add the with-label flag too
    and mark that label, and no other. *)
Theorem Break_Continue_flow
    (p : CodeBuilder) :
  (exists q, Break None p = Ok q /\ labelObjs q = labelObjs p /\
             cb_flows (cur q) = Z.lor (cb_flows (cur p)) flowFlagBreak /\
             cb_stmts (cur q)
             = cb_stmts (cur p)
               ++ [labeled (cb_label (cur p)) (ast.BranchStmt token.BREAK None)]) /\
  (exists q, Continue None p = Ok q /\ labelObjs q = labelObjs p /\
             cb_flows (cur q) = Z.lor (cb_flows (cur p)) flowFlagContinue /\
             cb_stmts (cur q)
             = cb_stmts (cur p)
               ++ [labeled (cb_label (cur p)) (ast.BranchStmt token.CONTINUE None)]) /\
  (forall l o, labelObjs p !! l = Some o ->
     exists q, Break (Some l) p = Ok q /\
       cb_flows (cur q)
       = Z.lor (cb_flows (cur p)) (Z.lor flowFlagBreak flowFlagWithLabel) /\
       labelObjs q !! l = Some (mkLabel (label_pos o) (label_name o) true) /\
       (forall l0, l0 <> l -> labelObjs q !! l0 = labelObjs p !! l0) /\
       cb_stmts (cur q)
       = cb_stmts (cur p)
         ++ [labeled (cb_label (cur p))
               (ast.BranchStmt token.BREAK (Some (label_name o)))]).
Proof.
  split; [|split].
  - unfold Break, labelFlow. cbn [rbind fst snd]. eexists. split; [reflexivity|].
    rewrite emitStmt_labelObjs, emitStmt_cur.
    split; [reflexivity|]. split; by destruct_builder p.
  - unfold Continue, labelFlow. cbn [rbind fst snd]. eexists. split; [reflexivity|].
    rewrite emitStmt_labelObjs, emitStmt_cur.
    split; [reflexivity|]. split; by destruct_builder p.
  - intros l o Ho. unfold Break, labelFlow, labelName. rewrite Ho.
    cbn [rbind fst snd]. eexists. split; [reflexivity|].
    rewrite emitStmt_labelObjs, emitStmt_cur.
    split; [by destruct_builder p|].
    split; [destruct_builder p; cbn in *; by rewrite lookup_alter_eq, Ho|].
    split; [intros l0 Hl0; destruct_builder p; cbn in *; by rewrite lookup_alter_ne|].
    by destruct_builder p.
Qed.

(** ** Array and slice literals *)

Lemma index_app_at {A} (front rest : list A) (x : A) :
  index (front ++ x :: rest) (length front) = Ok x.
Proof. unfold index. by rewrite list_lookup_middle. Qed.

Lemma index_app_next {A} (front rest : list A) (x y : A) :
  index (front ++ x :: y :: rest) (S (length front)) = Ok y.
Proof.
  unfold index. rewrite lookup_app_r by lia.
  replace (S (length front) - length front)%nat with 1%nat by lia. reflexivity.
Qed.

Lemma pairSteps_double (n : nat) : pairSteps (2 * Z.of_nat n) = n.
Proof.
  unfold pairSteps. replace (2 * Z.of_nat n + 1) with (1 + Z.of_nat n * 2) by lia.
  rewrite Z.div_add by lia. change (1 / 2) with 0. lia.
Qed.

Lemma unkeyed_length (vals : list internal.Elem) :
  Z.of_nat (length (unkeyed vals)) = 2 * Z.of_nat (length vals).
Proof. induction vals as [|v vals IH]; simpl in *; lia. Qed.



Lemma toBoundArrayLenLoop_unkeyed (p : CodeBuilder) (limit : Z)
    (vals front : list internal.Elem) (n : Z) :
  limit < 0 \/ n + 1 + Z.of_nat (length vals) <= limit ->
  -1 <= n ->
  toBoundArrayLenLoop p (front ++ unkeyed vals) limit (length vals) (length front) n n
  = Ok (n + 1 + Z.of_nat (length vals)).
Proof.
  revert front n. induction vals as [|v vals IH]; intros front n Hlim Hn.
  - simpl. f_equal. lia.
  - cbn [length toBoundArrayLenLoop unkeyed flat_map app].
    rewrite index_app_at. cbn [rbind elemNone internal.Val internal.Src].
    replace (Z.leb 0 limit && Z.leb limit (n + 1))%bool with false.
    2:{ symmetry. apply andb_false_iff.
        destruct (Z.leb_spec 0 limit); [|auto]. right. apply Z.leb_gt.
        simpl in Hlim. lia. }
    cbn [rbind]. replace (n <? n + 1) with true by (symmetry; apply Z.ltb_lt; lia).
    specialize (IH (front ++ [elemNone; v]) (n + 1)).
    rewrite length_app in IH. cbn [length] in IH.
    replace (length front + 2)%nat with (S (S (length front))) in IH by lia.
    rewrite <- app_assoc in IH. cbn [app] in IH. unfold unkeyed in IH.
    rewrite IH; [f_equal; simpl; lia| simpl in Hlim; lia | lia].
Qed.

Lemma toBoundArrayLenLoop_unkeyed_out (p : CodeBuilder) (limit : Z)
    (vals front : list internal.Elem) (n : Z) (k : nat) (v : internal.Elem) :
  vals !! k = Some v -> n + 1 + Z.of_nat k = limit -> -1 <= n ->
  toBoundArrayLenLoop p (front ++ unkeyed vals) limit (length vals) (length front) n n
  = Panic (PanicError
             (newCodeError p (Some (loadExpr p (internal.Src v)).2)
                (arrayIndexOutOfBounds limit limit))).
Proof.
  revert front n k. induction vals as [|v0 vals IH]; intros front n k Hk Hlim Hn.
  - discriminate.
  - cbn [length toBoundArrayLenLoop unkeyed flat_map app].
    rewrite index_app_at. cbn [rbind elemNone internal.Val internal.Src].
    destruct k as [|k].
    + injection Hk as ->.
      replace (Z.leb 0 limit && Z.leb limit (n + 1))%bool with true.
      2:{ symmetry. apply andb_true_iff. split; apply Z.leb_le; lia. }
      rewrite index_app_next. cbn [rbind].
      destruct (loadExpr p (internal.Src v)) as [code pos]. cbn [snd rbind].
      unfold panicCodeError. replace (n + 1) with limit by lia. reflexivity.
    + replace (Z.leb 0 limit && Z.leb limit (n + 1))%bool with false.
      2:{ symmetry. apply andb_false_iff. right. apply Z.leb_gt. lia. }
      cbn [rbind]. replace (n <? n + 1) with true by (symmetry; apply Z.ltb_lt; lia).
      specialize (IH (front ++ [elemNone; v0]) (n + 1) k).
      rewrite length_app in IH. cbn [length] in IH.
      replace (length front + 2)%nat with (S (S (length front))) in IH by lia.
      rewrite <- app_assoc in IH. cbn [app] in IH. unfold unkeyed in IH.
      apply IH; [exact Hk | lia | lia].
Qed.

Lemma litKeyVals_unkeyed (p : CodeBuilder) (assignable : internal.Elem -> bool)
    (val : types.type) (lit : string) (vals front : list internal.Elem) :
  Forall (fun v => assignable v = true) vals ->
  litKeyVals p assignable val lit (front ++ unkeyed vals) (length vals) (length front)
  = Ok (map internal.Val vals).
Proof.
  revert front. induction vals as [|v vals IH]; intros front Hall; [reflexivity|].
  inversion Hall as [|? ? Hv Hrest]; subst.
  cbn [length litKeyVals unkeyed flat_map app map].
  rewrite index_app_next. cbn [rbind]. rewrite Hv. cbn [negb].
  unfold indexElemExpr. rewrite index_app_at. cbn [rbind elemNone internal.Val].
  rewrite index_app_next. cbn [rbind].
  specialize (IH (front ++ [elemNone; v]) Hrest).
  rewrite length_app in IH. cbn [length] in IH.
  replace (length front + 2)%nat with (S (S (length front))) in IH by lia.
  rewrite <- app_assoc in IH. cbn [app] in IH. unfold unkeyed in IH.
  rewrite IH. reflexivity.
Qed.

Lemma litValues_ok (p : CodeBuilder) (check : bool) (assignable : internal.Elem -> bool)
    (val : types.type) (lit : string) (args : list internal.Elem) :
  (check = true -> Forall (fun v => assignable v = true) args) ->
  litValues p check assignable val lit args = Ok (map internal.Val args).
Proof.
  intros Hall. induction args as [|a args IH]; [reflexivity|].
  cbn [litValues map].
  replace (check && negb (assignable a))%bool with false.
  2:{ destruct check; [|reflexivity]. specialize (Hall eq_refl).
      inversion Hall as [|? ? Ha _]; subst. by rewrite Ha. }
  rewrite IH; [reflexivity|]. intros Hc. specialize (Hall Hc). by inversion Hall.
Qed.

(** X12: [ArrayLit] in positional mode on an array type [[n]elem] whose
    operands are all assignable to [elem]. With [n < 0] the length is
    inferred: the literal has the type [[arity]elem]. With [arity <= n] the
    literal keeps the type (fewer values than the length are accepted). With
    more values than the length it panics with "array index n out of bounds
    [0:n]" at the position of the operand of index [n]. On success the
    operands are replaced by the one literal, whose type expression is that
    of the type given. *)
Theorem ArrayLit_positional
    (p : CodeBuilder) (elem : types.type) (n : Z) (rest args : list internal.Elem) :
  stk p = internal.mkStack (rest ++ args) ->
  Forall (fun a => AssignableTo (pkg p) (internal.Type_ a) elem = true) args ->
  let typ := types.Array elem n in
  let arity := Z.of_nat (length args) in
  let lit := fun t =>
    compositeLit (toArrayType (pkg p) typ) (map internal.Val args) (Some t) in
  (n < 0 ->
   ArrayLit (Some typ) arity false p
   = Ok (set_stk (internal.mkStack (rest ++ [lit (types.Array elem arity)])) p)) /\
  (arity <= n ->
   ArrayLit (Some typ) arity false p
   = Ok (set_stk (internal.mkStack (rest ++ [lit typ])) p)) /\
  (0 <= n < arity ->
   exists a, args !! Z.to_nat n = Some a /\
     ArrayLit (Some typ) arity false p
     = Panic (PanicError
                (newCodeError p (Some (loadExpr p (internal.Src a)).2)
                   (arrayIndexOutOfBounds n n)))).
Proof.
  intros Hstk Hall typ arity lit. subst typ arity lit.
  unfold ArrayLit, arrayLitType. cbn [rbind]. rewrite Hstk, GetArgs_app.
  cbn [rbind runtime]. split; [|split].
  - intros Hn. replace (n <? 0) with true by (symmetry; apply Z.ltb_lt; lia).
    cbn [rbind]. rewrite litValues_ok by (intros _; exact Hall).
    cbn [rbind fst snd]. rewrite Ret_app. reflexivity.
  - intros Hn. replace (n <? 0) with false by (symmetry; apply Z.ltb_ge; lia).
    replace (n <? Z.of_nat (length args)) with false by (symmetry; apply Z.ltb_ge; lia).
    cbn [rbind]. rewrite litValues_ok by (intros _; exact Hall).
    cbn [rbind fst snd]. rewrite Ret_app. reflexivity.
  - intros Hn. replace (n <? 0) with false by (symmetry; apply Z.ltb_ge; lia).
    replace (n <? Z.of_nat (length args)) with true by (symmetry; apply Z.ltb_lt; lia).
    destruct (lookup_lt_is_Some_2 args (Z.to_nat n)) as [a Ha]; [lia|].
    exists a. split; [exact Ha|]. unfold index. rewrite Ha. cbn [rbind].
    destruct (loadExpr p (internal.Src a)) as [code pos]. reflexivity.
Qed.

(** X13: [ArrayLit] in key-value mode with every key left out ([None])
    numbers the values from 0. On [[n]elem] with assignable values: with
    [n < 0] the literal gets the type [[k]elem] for its [k] values, with
    [k <= n] it keeps the type, and its elements are the values without
    keys; with [k > n >= 0] it panics with "array index n out of bounds
    [0:n]" at the position of the value of index [n]. *)
Theorem ArrayLit_keyVal_unkeyed
    (p : CodeBuilder) (elem : types.type) (n : Z) (rest vals : list internal.Elem) :
  stk p = internal.mkStack (rest ++ unkeyed vals) ->
  Forall (fun a => AssignableTo (pkg p) (internal.Type_ a) elem = true) vals ->
  let typ := types.Array elem n in
  let k := Z.of_nat (length vals) in
  let lit := fun t =>
    compositeLit (toArrayType (pkg p) typ) (map internal.Val vals) (Some t) in
  (n < 0 ->
   ArrayLit (Some typ) (2 * k) true p
   = Ok (set_stk (internal.mkStack (rest ++ [lit (types.Array elem k)])) p)) /\
  (k <= n ->
   ArrayLit (Some typ) (2 * k) true p
   = Ok (set_stk (internal.mkStack (rest ++ [lit typ])) p)) /\
  (0 <= n < k ->
   exists v, vals !! Z.to_nat n = Some v /\
     ArrayLit (Some typ) (2 * k) true p
     = Panic (PanicError
                (newCodeError p (Some (loadExpr p (internal.Src v)).2)
                   (arrayIndexOutOfBounds n n)))).
Proof.
  intros Hstk Hall typ k lit. subst typ k lit.
  unfold ArrayLit, arrayLitType. cbn [rbind].
  replace (Z.land (2 * Z.of_nat (length vals)) 1) with 0.
  2:{ symmetry. change 1 with (Z.ones 1). rewrite Z.land_ones by lia.
      change (2 ^ 1) with 2. rewrite Z.mul_comm. apply Z.mod_mul. lia. }
  cbn [Z.eqb negb]. rewrite Hstk, <- unkeyed_length, GetArgs_app.
  cbn [rbind runtime]. unfold toBoundArrayLen.
  rewrite unkeyed_length, pairSteps_double.
  pose proof (toBoundArrayLenLoop_unkeyed p n vals [] (-1)) as Hok.
  pose proof (litKeyVals_unkeyed p
                (fun a => AssignableTo (pkg p) (internal.Type_ a) elem) elem "array"
                vals [] Hall) as Hkv.
  cbn [app length] in Hok, Hkv.
  split; [|split].
  - intros Hn. rewrite Hok by lia. cbn [rbind].
    replace (n <? 0) with true by (symmetry; apply Z.ltb_lt; lia).
    rewrite Hkv. cbn [rbind fst snd]. rewrite <- unkeyed_length, Ret_app.
    replace (-1 + 1 + Z.of_nat (length vals)) with (Z.of_nat (length vals)) by lia.
    reflexivity.
  - intros Hn. rewrite Hok by lia. cbn [rbind].
    replace (n <? 0) with false by (symmetry; apply Z.ltb_ge; lia).
    rewrite Hkv. cbn [rbind fst snd]. rewrite <- unkeyed_length, Ret_app. reflexivity.
  - intros Hn. destruct (lookup_lt_is_Some_2 vals (Z.to_nat n)) as [v Hv]; [lia|].
    exists v. split; [exact Hv|].
    pose proof (toBoundArrayLenLoop_unkeyed_out p n vals [] (-1) (Z.to_nat n) v Hv) as Hout.
    cbn [app length] in Hout. rewrite Hout by lia. reflexivity.
Qed.

Lemma litValues_first_bad (p : CodeBuilder) (assignable : internal.Elem -> bool)
    (val : types.type) (lit : string) (good more : list internal.Elem) (bad : internal.Elem) :
  Forall (fun v => assignable v = true) good -> assignable bad = false ->
  litValues p true assignable val lit (good ++ bad :: more)
  = Panic (PanicError
             (newCodeError p (Some (loadExpr p (internal.Src bad)).2)
                (cannotUseInLit (loadExpr p (internal.Src bad)).1 (internal.Type_ bad) val lit))).
Proof.
  intros Hgood Hbad. induction Hgood as [|g good Hg _ IH]; cbn [app litValues andb].
  - rewrite Hbad. cbn [negb]. destruct (loadExpr p (internal.Src bad)). reflexivity.
  - rewrite Hg. cbn [negb]. rewrite IH. reflexivity.
Qed.

(** X14: [SliceLit] without a type ([typ] nil). In key-value mode it never
    returns: with the operands on the stack and an even arity it panics on
    the nil slice type. In positional mode with no operand it pushes an
    empty literal of type [[]interface{}]; with operands it tests none of
    them and gives the literal the type [[]T], for [T] the default type of
    the bound element type of the operands. *)
Theorem SliceLit_untyped
    (p : CodeBuilder) (rest args : list internal.Elem) :
  stk p = internal.mkStack (rest ++ args) ->
  let arity := Z.of_nat (length args) in
  (forall n q, SliceLit None n true p <> Ok q) /\
  (Z.land arity 1 = 0 -> SliceLit None arity true p = nil_deref) /\
  (let t := types.Slice TyEmptyInterface in
   SliceLit None 0 false p
   = Ok (set_stk (internal.mkStack
                    (rest ++ args ++ [compositeLit (toSliceType (pkg p) t) [] (Some t)])) p)) /\
  (args <> [] ->
   let t := types.Slice (Default (pkg p) (boundElementType (pkg p) args 0 arity 1)) in
   SliceLit None arity false p
   = Ok (set_stk (internal.mkStack
                    (rest ++ [compositeLit (toSliceType (pkg p) t)
                                (map internal.Val args) (Some t)])) p)).
Proof.
  intros Hstk arity. subst arity. unfold SliceLit, sliceLitType. cbn [rbind].
  split; [|split; [|split]].
  - intros n q. destruct (negb _); [discriminate|].
    destruct (runtime _); discriminate.
  - intros ->. cbn [Z.eqb negb]. rewrite Hstk, GetArgs_app. reflexivity.
  - cbn [Z.eqb]. rewrite Hstk. unfold internal.Push. cbn [internal.data].
    rewrite <- app_assoc. reflexivity.
  - intros Hne. destruct (Z.eqb_spec (Z.of_nat (length args)) 0) as [H0|_].
    { destruct args; [done|simpl in H0; lia]. }
    rewrite Hstk, GetArgs_app. cbn [rbind runtime].
    rewrite litValues_ok by discriminate. cbn [rbind]. rewrite Ret_app. reflexivity.
Qed.

(** X15: [SliceLit] in positional mode on a slice type [[]elem] replaces
    the operands by one literal of that type when [AssignableConv] accepts
    each of them for [elem] (no operand gives the empty literal); otherwise
    it panics with "cannot use <src> (type <T>) as type <elem> in slice
    literal" for the first operand that is refused, at its position. *)
Theorem SliceLit_typed_positional
    (p : CodeBuilder) (elem : types.type) (rest args : list internal.Elem) :
  stk p = internal.mkStack (rest ++ args) ->
  let typ := types.Slice elem in
  let arity := Z.of_nat (length args) in
  let ok := fun a => AssignableConv (pkg p) (internal.Type_ a) elem a in
  (Forall (fun a => ok a = true) args ->
   SliceLit (Some typ) arity false p
   = Ok (set_stk (internal.mkStack
                    (rest ++ [compositeLit (toSliceType (pkg p) typ)
                                (map internal.Val args) (Some typ)])) p)) /\
  (forall good bad more,
     args = good ++ bad :: more ->
     Forall (fun a => ok a = true) good -> ok bad = false ->
     SliceLit (Some typ) arity false p
     = Panic (PanicError
                (newCodeError p (Some (loadExpr p (internal.Src bad)).2)
                   (cannotUseInLit (loadExpr p (internal.Src bad)).1
                      (internal.Type_ bad) elem "slice")))).
Proof.
  intros Hstk typ arity ok. subst typ arity ok.
  unfold SliceLit, sliceLitType. cbn [rbind]. split.
  - intros Hall. destruct (Z.eqb_spec (Z.of_nat (length args)) 0) as [H0|_].
    + assert (args = []) as -> by (destruct args; [done|simpl in H0; lia]).
      rewrite Hstk. unfold internal.Push. cbn [internal.data].
      rewrite app_nil_r. reflexivity.
    + rewrite Hstk, GetArgs_app. cbn [rbind runtime].
      rewrite litValues_ok by (intros _; exact Hall). cbn [rbind].
      rewrite Ret_app. reflexivity.
  - intros good bad more -> Hgood Hbad.
    destruct (Z.eqb_spec (Z.of_nat (length (good ++ bad :: more))) 0) as [H0|_].
    { rewrite length_app in H0. simpl in H0. lia. }
    rewrite Hstk, GetArgs_app. cbn [rbind runtime].
    rewrite (litValues_first_bad p _ elem "slice" good more bad Hgood Hbad). reflexivity.
Qed.

Lemma Ret_data (arity : Z) (e : internal.Elem) (s s' : internal.Stack) :
  internal.Ret arity e s = Ok s' ->
  0 <= arity <= internal.Len s /\
  internal.data s' = take (Z.to_nat (internal.Len s - arity)) (internal.data s) ++ [e].
Proof.
  unfold internal.Ret, internal.PopN, internal.in_range. intros H.
  destruct (Z.leb_spec 0 arity); [|discriminate].
  destruct (Z.leb_spec arity (internal.Len s)); [|discriminate].
  cbn in H. injection H as <-. split; [lia|reflexivity].
Qed.

Lemma Push_data (e : internal.Elem) (s : internal.Stack) :
  0 <= 0 <= internal.Len s /\
  internal.data (internal.Push e s)
  = take (Z.to_nat (internal.Len s - 0)) (internal.data s) ++ [e].
Proof.
  unfold internal.Len, internal.Push. cbn [internal.data]. split; [lia|].
  rewrite firstn_all2 by lia. reflexivity.
Qed.

Lemma getUnderlying_frame (t : types.NamedRef) (p : CodeBuilder) :
  stk (getUnderlying t p).2 = stk p /\ cur (getUnderlying t p).2 = cur p.
Proof. unfold getUnderlying. destruct (Underlying t p); by destruct_builder p. Qed.

Lemma literalEffect_Ret (arity : Z) (typExpr : ast.Expr) (elts : list ast.Expr)
    (typ : option types.type) (p p1 : CodeBuilder) (s : internal.Stack) :
  stk p1 = stk p -> cur p1 = cur p ->
  internal.Ret arity (internal.mkElem (ast.CompositeLit typExpr elts) typ None None) (stk p1)
  = Ok s ->
  literalEffect arity p (set_stk s p1).
Proof.
  intros Hs Hc H. apply Ret_data in H as [Hr Hd]. rewrite Hs in *.
  split; [exact Hr|]. split; [|by rewrite <- Hc; destruct_builder p1].
  exists typExpr, elts, typ. replace (stk (set_stk s p1)) with s by (by destruct_builder p1).
  exact Hd.
Qed.

Lemma literalEffect_Push (typExpr : ast.Expr) (elts : list ast.Expr)
    (typ : option types.type) (p p1 : CodeBuilder) :
  stk p1 = stk p -> cur p1 = cur p ->
  literalEffect 0 p
    (set_stk (internal.Push (internal.mkElem (ast.CompositeLit typExpr elts) typ None None)
                (stk p1)) p1).
Proof.
  intros Hs Hc.
  destruct (Push_data (internal.mkElem (ast.CompositeLit typExpr elts) typ None None) (stk p))
    as [Hr Hd].
  split; [exact Hr|]. split; [|by rewrite <- Hc; destruct_builder p1].
  exists typExpr, elts, typ. unfold compositeLit. rewrite <- Hd, <- Hs.
  by destruct_builder p1.
Qed.

Ltac lit_type_frame Hr :=
  match type of Hr with
  | ?f ?typ ?p = Ok _ =>
      unfold f in Hr; destruct typ as [[]|]; try discriminate Hr;
      try (injection Hr as <- <- <-; split; reflexivity);
      try (injection Hr as <- <- <- <-; split; reflexivity);
      match type of Hr with
      | context [getUnderlying ?nt p] =>
          let H := fresh in
          pose proof (getUnderlying_frame nt p) as H;
          destruct (getUnderlying nt p) as [[[]|] ?]; try discriminate Hr;
          (injection Hr as <- <- <- <- || injection Hr as <- <- <-); exact H
      end
  end.

Lemma structLitType_frame (typ : option types.type) (p p1 : CodeBuilder)
    (fields : list (string * types.type)) (typExpr : ast.Expr) :
  structLitType typ p = Ok (fields, typExpr, p1) -> stk p1 = stk p /\ cur p1 = cur p.
Proof. intros Hr. lit_type_frame Hr. Qed.

Lemma arrayLitType_frame (typ : option types.type) (p p1 : CodeBuilder)
    (val : types.type) (n : Z) (typExpr : ast.Expr) :
  arrayLitType typ p = Ok (val, n, typExpr, p1) -> stk p1 = stk p /\ cur p1 = cur p.
Proof. intros Hr. lit_type_frame Hr. Qed.

Lemma sliceLitType_frame (typ : option types.type) (p p1 : CodeBuilder)
    (t : option types.type) (typExpr : ast.Expr) :
  sliceLitType typ p = Ok (t, typExpr, p1) -> stk p1 = stk p /\ cur p1 = cur p.
Proof. intros Hr. lit_type_frame Hr. Qed.

Lemma MapLit_effect (typ : option types.type) (arity : Z) (p p' : CodeBuilder) :
  MapLit typ arity p = Ok p' -> literalEffect arity p p'.
Proof.
  intros H. unfold MapLit in H. apply rbind_Ok in H as [[[t typExpr] p1] [Hr H]].
  assert (Hf : stk p1 = stk p /\ cur p1 = cur p).
  { destruct typ as [[]|]; try discriminate Hr;
      try (injection Hr as <- <- <-; split; reflexivity).
    pose proof (getUnderlying_frame ref p) as Hg.
    destruct (getUnderlying ref p) as [[[]|] ?]; try discriminate Hr.
    injection Hr as <- <- <-. exact Hg. }
  destruct Hf as [Hs Hc].
  destruct (Z.eqb_spec arity 0) as [->|_].
  - destruct t; injection H as <-; by apply literalEffect_Push.
  - destruct (negb _); [discriminate|].
    apply rbind_Ok in H as [args [_ H]].
    destruct t as [[k e]|].
    + apply rbind_Ok in H as [elts [_ H]]. apply rbind_Ok in H as [s [Hret H]].
      injection H as <-. apply runtime_Ok in Hret. by eapply literalEffect_Ret.
    + apply rbind_Ok in H as [elts [_ H]]. apply rbind_Ok in H as [s [Hret H]].
      injection H as <-. apply runtime_Ok in Hret. by eapply literalEffect_Ret.
Qed.

Lemma StructLit_effect (typ : option types.type) (arity : Z) (keyVal : bool)
    (p p' : CodeBuilder) :
  StructLit typ arity keyVal p = Ok p' -> literalEffect arity p p'.
Proof.
  intros H. unfold StructLit in H. apply rbind_Ok in H as [[[t typExpr] p1] [Hr H]].
  apply structLitType_frame in Hr as [Hs Hc].
  apply rbind_Ok in H as [args [_ H]]. apply rbind_Ok in H as [elts [_ H]].
  apply rbind_Ok in H as [s [Hret H]]. injection H as <-.
  apply runtime_Ok in Hret. by eapply literalEffect_Ret.
Qed.

Lemma ArrayLit_effect (typ : option types.type) (arity : Z) (keyVal : bool)
    (p p' : CodeBuilder) :
  ArrayLit typ arity keyVal p = Ok p' -> literalEffect arity p p'.
Proof.
  intros H. unfold ArrayLit in H. apply rbind_Ok in H as [[[[val n] typExpr] p1] [Hr H]].
  apply arrayLitType_frame in Hr as [Hs Hc].
  apply rbind_Ok in H as [r2 [_ H]].
  apply rbind_Ok in H as [s [Hret H]]. injection H as <-.
  apply runtime_Ok in Hret. by eapply literalEffect_Ret.
Qed.

Lemma SliceLit_effect (typ : option types.type) (arity : Z) (keyVal : bool)
    (p p' : CodeBuilder) :
  SliceLit typ arity keyVal p = Ok p' -> literalEffect arity p p'.
Proof.
  intros H. unfold SliceLit in H. apply rbind_Ok in H as [[[t typExpr] p1] [Hr H]].
  apply sliceLitType_frame in Hr as [Hs Hc].
  destruct keyVal.
  - destruct (negb _); [discriminate|].
    apply rbind_Ok in H as [args [_ H]]. destruct t as [val|]; [|discriminate].
    apply rbind_Ok in H as [elts [_ H]]. apply rbind_Ok in H as [s [Hret H]].
    injection H as <-. apply runtime_Ok in Hret. by eapply literalEffect_Ret.
  - destruct (Z.eqb_spec arity 0) as [->|_].
    + destruct t; injection H as <-; by apply literalEffect_Push.
    + apply rbind_Ok in H as [args [_ H]].
      destruct t as [val|];
        apply rbind_Ok in H as [elts [_ H]]; apply rbind_Ok in H as [s [Hret H]];
        injection H as <-; apply runtime_Ok in Hret; by eapply literalEffect_Ret.
Qed.

(** X16: the four literal constructors have one stack effect. Whenever
    [MapLit], [StructLit], [ArrayLit] or [SliceLit] returns, it was given an
    [arity] between 0 and the height of the stack, it has taken exactly the
    top [arity] operands and pushed exactly one operand, a composite literal
    without constant value and without source node; the operands below and
    the current block are untouched. *)
Theorem literal_stack_effect
    (typ : option types.type) (arity : Z) (keyVal : bool) (p p' : CodeBuilder) :
  MapLit typ arity p = Ok p' \/ StructLit typ arity keyVal p = Ok p' \/
  ArrayLit typ arity keyVal p = Ok p' \/ SliceLit typ arity keyVal p = Ok p' ->
  0 <= arity <= internal.Len (stk p) /\
  (exists typExpr elts t,
     internal.data (stk p')
     = take (Z.to_nat (internal.Len (stk p) - arity)) (internal.data (stk p))
       ++ [compositeLit typExpr elts t]) /\
  cur p' = cur p.
Proof.
  intros [H|[H|[H|H]]].
  - exact (MapLit_effect _ _ _ _ H).
  - exact (StructLit_effect _ _ _ _ _ H).
  - exact (ArrayLit_effect _ _ _ _ _ H).
  - exact (SliceLit_effect _ _ _ _ _ H).
Qed.

Lemma toIntVal_const (p : CodeBuilder) (k : internal.Elem) (msg : string) (i : Z) :
  internal.CVal k = Some (constant.Int i) -> - 2 ^ 63 <= i < 2 ^ 63 ->
  toIntVal p k msg = Ok i.
Proof.
  intros Hc Hi. unfold toIntVal. rewrite Hc. unfold constant.Int64Val.
  destruct (Z.leb_spec (- 2 ^ 63) i); [|lia].
  destruct (Z.ltb_spec i (2 ^ 63)); [|lia]. reflexivity.
Qed.

Lemma fieldInits_length (inits : list (Z * internal.Elem * internal.Elem)) :
  Z.of_nat (length (fieldInits inits)) = 2 * Z.of_nat (length inits).
Proof. induction inits as [|v vals IH]; simpl in *; lia. Qed.

Lemma land_double (n : Z) : Z.land (2 * n) 1 = 0.
Proof.
  change 1 with (Z.ones 1). rewrite Z.land_ones by lia.
  change (2 ^ 1) with 2. rewrite Z.mul_comm. apply Z.mod_mul. lia.
Qed.

Lemma structLitKeyVals_ok (p : CodeBuilder) (fields : list (string * types.type))
    (inits : list (Z * internal.Elem * internal.Elem)) :
  Forall (fieldInitOk p fields) inits ->
  structLitKeyVals p fields (fieldInits inits)
  = Ok (map (fun i => ast.KeyValueExpr (ast.Ident (fieldName fields i.1.1))
                        (internal.Val i.2)) inits).
Proof.
  induction 1 as [|[[i k] v] inits (Hc & Hi & name & ty & Hf & Ha) _ IH]; [reflexivity|].
  cbn [fst snd] in *. cbn [fieldInits flat_map app structLitKeyVals fst snd map].
  rewrite (toIntVal_const p k _ i Hc) by lia. cbn [rbind].
  pose proof (lookup_lt_Some _ _ _ Hf) as Hlt.
  destruct (Z.leb_spec (Z.of_nat (length fields)) i); [lia|].
  destruct (Z.ltb_spec i 0); [lia|].
  unfold index, fieldName. rewrite Hf. cbn [rbind fst]. rewrite Ha. cbn [negb].
  unfold fieldInits in IH. rewrite IH. reflexivity.
Qed.

Lemma structLitKeyVals_out (p : CodeBuilder) (fields : list (string * types.type))
    (good more : list (Z * internal.Elem * internal.Elem)) (i : Z) (k v : internal.Elem)
    (r : Result (list ast.Expr)) :
  Forall (fieldInitOk p fields) good ->
  (forall rest, structLitKeyVals p fields (k :: v :: rest) = r) ->
  (forall x, r <> Ok x) ->
  structLitKeyVals p fields (fieldInits (good ++ (i, k, v) :: more)) = r.
Proof.
  intros Hgood Hr Hno.
  induction Hgood as [|[[i0 k0] v0] good (Hc & Hi & name & ty & Hf & Ha) _ IH].
  - cbn [app fieldInits flat_map fst snd]. apply Hr.
  - cbn [fst snd] in *. cbn [app fieldInits flat_map structLitKeyVals fst snd].
    rewrite (toIntVal_const p k0 _ i0 Hc) by lia. cbn [rbind].
    pose proof (lookup_lt_Some _ _ _ Hf) as Hlt.
    destruct (Z.leb_spec (Z.of_nat (length fields)) i0); [lia|].
    destruct (Z.ltb_spec i0 0); [lia|].
    unfold index. rewrite Hf. cbn [rbind]. rewrite Ha. cbn [negb].
    unfold fieldInits in IH. rewrite IH. destruct r; [by destruct (Hno a)|reflexivity].
Qed.

(** X17: [StructLit] in key-value mode takes the fields by their index:
    when every key is an integer constant that is the index of a field and
    every value may be assigned to that field, the literal sets the fields
    by name, in the order given (an index may come twice and fields may be
    left out). A key at or above the number of fields panics with
    "invalid struct field index", and a negative key with a run-time error,
    not with a diagnostic. *)
Theorem StructLit_keyVal_by_index
    (p : CodeBuilder) (fields : list (string * types.type)) (rest : list internal.Elem)
    (inits : list (Z * internal.Elem * internal.Elem)) :
  stk p = internal.mkStack (rest ++ fieldInits inits) ->
  let typ := types.Struct fields in
  let arity := 2 * Z.of_nat (length inits) in
  (Forall (fieldInitOk p fields) inits ->
   StructLit (Some typ) arity true p
   = Ok (set_stk (internal.mkStack
           (rest ++ [compositeLit (toStructType (pkg p) typ)
                       (map (fun i => ast.KeyValueExpr (ast.Ident (fieldName fields i.1.1))
                                        (internal.Val i.2)) inits)
                       (Some typ)])) p)) /\
  (forall good i k v more,
     inits = good ++ (i, k, v) :: more -> Forall (fieldInitOk p fields) good ->
     internal.CVal k = Some (constant.Int i) -> - 2 ^ 63 <= i < 2 ^ 63 ->
     (Z.of_nat (length fields) <= i ->
      StructLit (Some typ) arity true p = Panic (PanicString "invalid struct field index")) /\
     (i < 0 ->
      StructLit (Some typ) arity true p = Panic (PanicRuntime "index out of range"))).
Proof.
  intros Hstk typ arity. subst typ arity.
  unfold StructLit, structLitType. cbn [rbind].
  rewrite Hstk, <- fieldInits_length, GetArgs_app. cbn [rbind runtime].
  rewrite fieldInits_length, land_double. cbn [Z.eqb negb].
  split.
  - intros Hall. rewrite (structLitKeyVals_ok p fields inits Hall). cbn [rbind].
    rewrite <- fieldInits_length, Ret_app. reflexivity.
  - intros good i k v more -> Hgood Hc Hi. split; intros Hout.
    + rewrite (structLitKeyVals_out p fields good more i k v
                 (Panic (PanicString "invalid struct field index")) Hgood);
        [reflexivity| |discriminate].
      intros rest0. cbn [structLitKeyVals]. rewrite (toIntVal_const p k _ i Hc Hi).
      cbn [rbind]. destruct (Z.leb_spec (Z.of_nat (length fields)) i); [reflexivity|lia].
    + rewrite (structLitKeyVals_out p fields good more i k v
                 (Panic (PanicRuntime "index out of range")) Hgood);
        [reflexivity| |discriminate].
      intros rest0. cbn [structLitKeyVals]. rewrite (toIntVal_const p k _ i Hc Hi).
      cbn [rbind]. destruct (Z.leb_spec (Z.of_nat (length fields)) i); [lia|].
      destruct (Z.ltb_spec i 0); [reflexivity|lia].
Qed.

Lemma mapEntries_length (entries : list (internal.Elem * internal.Elem)) :
  Z.of_nat (length (mapEntries entries)) = 2 * Z.of_nat (length entries).
Proof. induction entries as [|v vals IH]; simpl in *; lia. Qed.

Lemma mapLitElts_ok (p : CodeBuilder) (check : bool) (key val : types.type)
    (entries : list (internal.Elem * internal.Elem)) :
  (check = true ->
   Forall (fun e => AssignableTo (pkg p) (internal.Type_ e.1) key = true /\
                    AssignableTo (pkg p) (internal.Type_ e.2) val = true) entries) ->
  mapLitElts p check key val (mapEntries entries)
  = Ok (map (fun e => ast.KeyValueExpr (internal.Val e.1) (internal.Val e.2)) entries).
Proof.
  intros Hall. induction entries as [|[k v] entries IH]; [reflexivity|].
  cbn [mapEntries flat_map app mapLitElts fst snd map].
  replace (if check then _ else _) with (@Ok PanicValue unit tt).
  2:{ destruct check; [|reflexivity]. specialize (Hall eq_refl).
      inversion Hall as [|? ? [Hk Hv] _]; subst. cbn [fst snd] in *.
      by rewrite Hk, Hv. }
  cbn [rbind]. unfold mapEntries in IH. rewrite IH; [reflexivity|].
  intros Hc. specialize (Hall Hc). by inversion Hall.
Qed.

Lemma mapLitElts_bad (p : CodeBuilder) (key val : types.type)
    (good more : list (internal.Elem * internal.Elem)) (k v : internal.Elem)
    (r : Result (list ast.Expr)) :
  Forall (fun e => AssignableTo (pkg p) (internal.Type_ e.1) key = true /\
                   AssignableTo (pkg p) (internal.Type_ e.2) val = true) good ->
  (forall rest, mapLitElts p true key val (k :: v :: rest) = r) ->
  (forall x, r <> Ok x) ->
  mapLitElts p true key val (mapEntries (good ++ (k, v) :: more)) = r.
Proof.
  intros Hgood Hr Hno. induction Hgood as [|[k0 v0] good [Hk Hv] _ IH].
  - cbn [app mapEntries flat_map fst snd]. apply Hr.
  - cbn [fst snd] in *. cbn [app mapEntries flat_map mapLitElts fst snd].
    rewrite Hk, Hv. cbn [negb rbind]. unfold mapEntries in IH. rewrite IH.
    destruct r; [by destruct (Hno a)|reflexivity].
Qed.

(** X18: [MapLit] on a map type [map[key]val] with entries on the stack.
    When every key may be assigned to [key] and every value to [val], the
    operands are replaced by one literal with the entries in order. The
    first entry that fails panics, with "... in map key" at the key when the
    key is refused (the value is not looked at), else with "... in map
    value" at the value. An odd arity panics before any operand is read. *)
Theorem MapLit_typed
    (p : CodeBuilder) (key val : types.type) (rest : list internal.Elem)
    (entries : list (internal.Elem * internal.Elem)) :
  stk p = internal.mkStack (rest ++ mapEntries entries) ->
  let typ := types.Map key val in
  let arity := 2 * Z.of_nat (length entries) in
  let ok := fun e : internal.Elem * internal.Elem =>
    AssignableTo (pkg p) (internal.Type_ e.1) key = true /\
    AssignableTo (pkg p) (internal.Type_ e.2) val = true in
  (Forall ok entries ->
   MapLit (Some typ) arity p
   = Ok (set_stk (internal.mkStack
           (rest ++ [compositeLit (toMapType (pkg p) typ)
                       (map (fun e => ast.KeyValueExpr (internal.Val e.1) (internal.Val e.2))
                          entries)
                       (Some typ)])) p)) /\
  (forall good k v more,
     entries = good ++ (k, v) :: more -> Forall ok good ->
     (AssignableTo (pkg p) (internal.Type_ k) key = false ->
      MapLit (Some typ) arity p = Panic (PanicError (cannotUseInMap p k key "key"))) /\
     (AssignableTo (pkg p) (internal.Type_ k) key = true ->
      AssignableTo (pkg p) (internal.Type_ v) val = false ->
      MapLit (Some typ) arity p = Panic (PanicError (cannotUseInMap p v val "value")))) /\
  (forall n, Z.land n 1 <> 0 ->
     MapLit (Some typ) n p
     = Panic (PanicString ("MapLit: invalid arity, can't be odd -" +:+ " " +:+ pretty n +:+ newline))).
Proof.
  intros Hstk typ arity ok. subst typ arity ok. split; [|split].
  - intros Hall. unfold MapLit. cbn [rbind].
    destruct (Z.eqb_spec (2 * Z.of_nat (length entries)) 0) as [H0|_].
    { assert (entries = []) as -> by (destruct entries; [done|simpl in H0; lia]).
      rewrite Hstk. unfold internal.Push. cbn [internal.data mapEntries flat_map map].
      rewrite app_nil_r. reflexivity. }
    rewrite land_double. cbn [Z.eqb negb].
    rewrite Hstk, <- mapEntries_length, GetArgs_app. cbn [rbind runtime].
    rewrite mapLitElts_ok by (intros _; exact Hall). cbn [rbind].
    rewrite Ret_app. reflexivity.
  - intros good k v more -> Hgood. unfold MapLit. cbn [rbind].
    destruct (Z.eqb_spec (2 * Z.of_nat (length (good ++ (k, v) :: more))) 0) as [H0|_].
    { rewrite length_app in H0. simpl in H0. lia. }
    rewrite land_double. cbn [Z.eqb negb].
    rewrite Hstk, <- mapEntries_length, GetArgs_app. cbn [rbind runtime].
    split.
    + intros Hk.
      rewrite (mapLitElts_bad p key val good more k v
                 (Panic (PanicError (cannotUseInMap p k key "key"))) Hgood);
        [reflexivity| |discriminate].
      intros rest0. cbn [mapLitElts]. rewrite Hk. cbn [negb].
      unfold cannotUseInMap. destruct (loadExpr p (internal.Src k)). reflexivity.
    + intros Hk Hv.
      rewrite (mapLitElts_bad p key val good more k v
                 (Panic (PanicError (cannotUseInMap p v val "value"))) Hgood);
        [reflexivity| |discriminate].
      intros rest0. cbn [mapLitElts]. rewrite Hk, Hv. cbn [negb].
      unfold cannotUseInMap. destruct (loadExpr p (internal.Src v)). reflexivity.
  - intros n Hn. unfold MapLit. cbn [rbind].
    destruct (Z.eqb_spec n 0) as [->|_]; [done|].
    destruct (Z.eqb_spec (Z.land n 1) 0); [done|]. cbn [negb].
    reflexivity.
Qed.

(** ** Assignment of values *)

Lemma assignPairs_ok (p : CodeBuilder) (vars vals : list internal.Elem) :
  valuesAssignable p vars vals ->
  assignPairs p vars vals = Ok (map internal.Val vars, map internal.Val vals).
Proof.
  unfold valuesAssignable. induction 1 as [|v x vars vals Hv _ IH]; simpl.
  - reflexivity.
  - rewrite Hv, IH. reflexivity.
Qed.

(** X19: [doAssignWith] on [lhs] variables and [rhs] values that are not
    the one result of a call. With as many values as variables, each
    accepted by [checkAssignType] for its variable, it emits one assignment
    of the values to the variables in order and pops them all. With another
    number of values it panics with "assignment mismatch: <lhs> variables
    but <rhs> values" at the position of [src], and [Assign] without [rhs]
    takes as many values as variables. *)
Theorem doAssignWith_values
    (p : CodeBuilder) (src : option ast.Node) (rest vars vals : list internal.Elem) :
  stk p = internal.mkStack (rest ++ vars ++ vals) ->
  notOneTuple vals ->
  let lhs := Z.of_nat (length vars) in
  let rhs := Z.of_nat (length vals) in
  (lhs <> rhs ->
   doAssignWith lhs rhs src p
   = Panic (PanicError
              (newCodeError p (Some (nodePosition p src)) (mismatchValues lhs rhs)))) /\
  (lhs = rhs -> valuesAssignable p vars vals ->
   exists p',
     doAssignWith lhs rhs src p = Ok p' /\
     Assign lhs None p = Ok p' /\
     stk p' = internal.mkStack rest /\
     cb_stmts (cur p')
     = cb_stmts (cur p)
       ++ [labeled (cb_label (cur p))
             (ast.AssignStmt token.ASSIGN (map internal.Val vars) (map internal.Val vals))]).
Proof.
  intros Hstk Hnot lhs rhs.
  assert (Hlen : lhs + rhs = Z.of_nat (length (vars ++ vals)))
    by (rewrite length_app; lia).
  assert (Hk : Z.to_nat lhs = length vars) by lia.
  assert (Hgen : forall s,
    doAssignWith lhs rhs s p
    = if Z.eqb lhs rhs then
        r <- assignPairs p vars vals ;;;
        (let p1 := emitStmt (ast.AssignStmt token.ASSIGN r.1 r.2) p in
         s <- runtime (internal.PopN (lhs + rhs) (stk p1)) ;;; Ok (set_stk s p1))
      else panicCodeError p (nodePosition p s) (mismatchValues lhs rhs)).
  { intros s. unfold doAssignWith. rewrite Hstk, Hlen, GetArgs_app. cbn [rbind runtime].
    destruct (Z.ltb_spec lhs 0) as [Hneg|_]; [lia|].
    destruct (Z.ltb_spec rhs 0) as [Hneg|_]; [lia|]. cbn [orb].
    rewrite Hk, drop_app_length, take_app_length.
    destruct (Z.eqb_spec rhs 1) as [H1|_]; [|reflexivity].
    assert (exists x, vals = [x]) as [x Hvx].
    { unfold rhs in H1. clear -H1. destruct vals as [|x [|y vals']]; simpl in H1; try lia.
      by exists x. }
    rewrite Hvx.
    destruct (internal.Type_ x) as [[]|] eqn:Hx; try reflexivity.
    by destruct (Hnot x vars0 Hvx). }
  split.
  - intros Hne. rewrite Hgen. destruct (Z.eqb_spec lhs rhs); [lia|]. reflexivity.
  - intros He Hassign.
    assert (Hres : exists p',
      doAssignWith lhs rhs src p = Ok p' /\
      stk p' = internal.mkStack rest /\
      cb_stmts (cur p')
      = cb_stmts (cur p)
        ++ [labeled (cb_label (cur p))
              (ast.AssignStmt token.ASSIGN (map internal.Val vars) (map internal.Val vals))]).
    { rewrite Hgen. destruct (Z.eqb_spec lhs rhs); [|lia].
      rewrite (assignPairs_ok p vars vals Hassign). cbn [rbind fst snd].
      rewrite emitStmt_stk, Hstk, Hlen, PopN_app. cbn [rbind runtime].
      eexists. split; [reflexivity|]. split; [reflexivity|].
      change (cur (set_stk ?s ?q)) with (cur q). apply emitStmt_stmts. }
    destruct Hres as (p' & Hd & Hs & Hst). exists p'.
    split; [exact Hd|]. split; [|split; [exact Hs|exact Hst]].
    unfold Assign.
    replace (doAssignWith lhs lhs None p) with (doAssignWith lhs rhs None p)
      by (rewrite <- He; reflexivity).
    rewrite Hgen in Hd |- *. destruct (Z.eqb_spec lhs rhs); [exact Hd|lia].
Qed.

(** ** Operators *)

Lemma opMethod_pointers (p : CodeBuilder) (name : string) (k : nat) (N : types.NamedRef) :
  opMethod p name (pointers k (types.Named N)) = lookupMethod p N name.
Proof. induction k as [|k IH]; [reflexivity|exact IH]. Qed.

Lemma Ret_top1 (rest : list internal.Elem) (a e : internal.Elem) :
  internal.Ret 1 e (internal.mkStack (rest ++ [a])) = Ok (internal.mkStack (rest ++ [e])).
Proof. exact (Ret_app rest [a] e). Qed.

Lemma GetArgs_top1 (rest : list internal.Elem) (a : internal.Elem) :
  internal.GetArgs 1 (internal.mkStack (rest ++ [a])) = Ok [a].
Proof. exact (GetArgs_app rest [a]). Qed.

Lemma Ret_top2 (rest : list internal.Elem) (a0 a1 e : internal.Elem) :
  internal.Ret 2 e (internal.mkStack (rest ++ [a0; a1])) = Ok (internal.mkStack (rest ++ [e])).
Proof. exact (Ret_app rest [a0; a1] e). Qed.

(** X20: [callOpFunc] looks for the operator method on the named type
    under any number of pointers around the type of the first operand, and
    calls it on the operand as it is (no dereference is added). When that
    named type has no such method, the search does not go on to its
    underlying type: a comparison is built in place and any other operator
    is looked up in the builtin package, where a missing entry panics with
    "TODO: operator not matched". *)
Theorem callOpFunc_through_pointers
    (p : CodeBuilder) (op : token.Token) (tokenOps : token.Token -> option string)
    (sfx : string) (flags : InstrFlags) (a0 : internal.Elem) (more : list internal.Elem)
    (k : nat) (N : types.NamedRef) :
  tokenOps op = Some sfx ->
  internal.Type_ a0 = Some (pointers k (types.Named N)) ->
  let name := goxPrefix +:+ sfx in
  let args := a0 :: more in
  (forall lm, lookupMethod p N name = Some lm ->
     callOpFunc p op tokenOps args flags
     = matchFuncCall (pkg p) (methodFn a0 name lm) args flags) /\
  (lookupMethod p N name = None -> op <> token.EQL -> op <> token.NEQ ->
     callOpFunc p op tokenOps args flags
     = match builtin (pkg p) !! name with
       | Some b => matchFuncCall (pkg p) (toObject (pkg p) b None) args flags
       | None => Panic (PanicString "TODO: operator not matched")
       end).
Proof.
  intros Hop Ht name args. subst name args. unfold callOpFunc.
  rewrite Hop. cbn [rbind index lookup list_lookup]. rewrite Ht.
  cbn [mbind option_bind]. rewrite opMethod_pointers. split.
  - intros lm ->. reflexivity.
  - intros -> H1 H2. destruct op; try reflexivity; congruence.
Qed.

(** X21: what [BinaryOp] and [UnaryOp] do with the outcome of
    [callOpFunc]. A result replaces the operands it was computed from
    (the top two for [BinaryOp], the top one for [UnaryOp]), and [BinaryOp]
    alone stamps it with the source node. Whatever error the
    call gives, [BinaryOp] panics with the diagnostic "invalid operation:
    <src> (mismatched types <T0> and <T1>)" at the position of the source,
    while [UnaryOp] panics with the error itself. *)
Theorem operator_outcome
    (p : CodeBuilder) (op : token.Token) (src : option ast.Node) (twoValue : bool)
    (rest : list internal.Elem) (a0 a1 ret : internal.Elem) (err : string) :
  stk p = internal.mkStack (rest ++ [a0; a1]) ->
  let flags : InstrFlags := if twoValue then InstrFlagTwoValue else 0 in
  (callOpFunc p op binaryOps [a0; a1] 0 = Ok (inl ret) ->
   BinaryOp op src p = Ok (set_stk (internal.mkStack (rest ++ [setSrc src ret])) p)) /\
  (callOpFunc p op binaryOps [a0; a1] 0 = Ok (inr err) ->
   BinaryOp op src p = Panic (PanicError (invalidOperation p src a0 a1))) /\
  (callOpFunc p op unaryOps [a1] flags = Ok (inl ret) ->
   UnaryOp op twoValue p = Ok (set_stk (internal.mkStack (rest ++ [a0; ret])) p)) /\
  (callOpFunc p op unaryOps [a1] flags = Ok (inr err) ->
   UnaryOp op twoValue p = Panic (PanicErr err)).
Proof.
  intros H2 flags.
  assert (H1 : stk p = internal.mkStack ((rest ++ [a0]) ++ [a1]))
    by (by rewrite <- app_assoc).
  split; [|split; [|split]]; intros H.
  - unfold BinaryOp. rewrite H2 at 1. rewrite GetArgs_top2. cbn [rbind runtime].
    rewrite H. cbn [rbind finishBinaryOp]. rewrite H2, Ret_top2. reflexivity.
  - unfold BinaryOp. rewrite H2 at 1. rewrite GetArgs_top2. cbn [rbind runtime].
    rewrite H. cbn [rbind finishBinaryOp]. unfold invalidOperation.
    destruct (loadExpr p src). reflexivity.
  - unfold UnaryOp. rewrite H1 at 1. rewrite GetArgs_top1. cbn [rbind runtime].
    fold flags. rewrite H. cbn [rbind]. rewrite H1, Ret_top1, <- app_assoc. reflexivity.
  - unfold UnaryOp. rewrite H1 at 1. rewrite GetArgs_top1. cbn [rbind runtime].
    fold flags. rewrite H. reflexivity.
Qed.

(** ** Loading named types *)

(** X22: [ensureLoaded] calls the loader of a named type that has no
    method or no underlying type yet, also when it is given a pointer to
    the type, but not through two pointers. Unlike [getUnderlying] it asks
    again whenever the type is still without methods: a resolved named type
    that has no methods is loaded on every call, and once [ensureLoaded] has
    run and the type has an underlying type, [getUnderlying] does not load. *)
Theorem ensureLoaded_when
    (t : types.NamedRef) (p : CodeBuilder) :
  let p1 := ensureLoaded (types.Named t) p in
  (NumMethods t p = 0%nat \/ Underlying t p = None ->
   loaded p1 = loaded p ++ [t] /\
   nameds p1 = loadNamed p (pkg p) t (nameds p)) /\
  (NumMethods t p <> 0%nat -> Underlying t p <> None -> p1 = p) /\
  ensureLoaded (types.Pointer (types.Named t)) p = p1 /\
  ensureLoaded (types.Pointer (types.Pointer (types.Named t))) p = p /\
  (NumMethods t p1 = 0%nat -> loaded (ensureLoaded (types.Named t) p1) = loaded p1 ++ [t]) /\
  (Underlying t p1 <> None -> (getUnderlying t p1).2 = p1).
Proof.
  intros p1. subst p1. unfold ensureLoaded.
  split; [|split; [|split; [|split; [|split]]]]; try reflexivity.
  - intros [H|H]; rewrite H; [|rewrite orb_true_r]; by destruct_builder p.
  - intros Hm Hu. destruct (Nat.eqb_spec (NumMethods t p) 0); [done|].
    destruct (Underlying t p); done.
  - intros ->. by destruct_builder p.
  - intros Hu. unfold getUnderlying.
    destruct (Underlying t _); [reflexivity|done].
Qed.

(** ** The scope of a function body *)

Lemma find_snoc {A} (f : A -> bool) (l : list A) (x : A) :
  List.find f (l ++ [x])
  = match List.find f l with Some y => Some y | None => if f x then Some x else None end.
Proof.
  induction l as [|a l IH]; simpl; [reflexivity|]. destruct (f a); [reflexivity|exact IH].
Qed.

Lemma Scope_Insert_lookup (s : types.Scope) (o : types.Object) (name : string) :
  types.Scope_Lookup (types.Scope_Insert s o).1 name
  = match types.Scope_Lookup s name with
    | Some x => Some x
    | None => if String.eqb (types.obj_name o) name then Some o else None
    end.
Proof.
  unfold types.Scope_Insert. destruct (types.Scope_Lookup s (types.obj_name o)) eqn:E.
  - cbn [fst]. destruct (types.Scope_Lookup s name) eqn:En; [reflexivity|].
    destruct (String.eqb_spec (types.obj_name o) name) as [<-|]; [congruence|reflexivity].
  - destruct s as [parent comment es]. cbn [fst].
    unfold types.Scope_Lookup. cbn [types.scope_elems].
    exact (find_snoc (fun x => String.eqb (types.obj_name x) name) es o).
Qed.

Lemma Scope_Insert_parent (s : types.Scope) (o : types.Object) :
  scope_parent (types.Scope_Insert s o).1 = scope_parent s.
Proof.
  unfold types.Scope_Insert. destruct (types.Scope_Lookup s (types.obj_name o));
    [reflexivity|by destruct s].
Qed.

Lemma insertParams_lookup (params : list (string * types.type)) (sc : types.Scope)
    (name : string) :
  types.Scope_Lookup (insertParams sc params) name
  = match types.Scope_Lookup sc name with
    | Some x => Some x
    | None =>
        option_map asObject
          (List.find (fun v => String.eqb v.1 name)
             (List.filter (fun v => negb (String.eqb v.1 "")) params))
    end.
Proof.
  unfold insertParams. revert sc.
  induction params as [|v params IH]; intros sc; cbn [fold_left List.filter].
  - destruct (types.Scope_Lookup sc name); reflexivity.
  - rewrite IH. destruct (String.eqb v.1 "") eqn:Ev; cbn [negb]; [reflexivity|].
    rewrite Scope_Insert_lookup. cbn [types.obj_name List.find].
    destruct (types.Scope_Lookup sc name); [reflexivity|].
    destruct (String.eqb v.1 name); reflexivity.
Qed.

Lemma insertParams_parent (params : list (string * types.type)) (sc : types.Scope) :
  scope_parent (insertParams sc params) = scope_parent sc.
Proof.
  unfold insertParams. revert sc.
  induction params as [|v params IH]; intros sc; cbn [fold_left]; [reflexivity|].
  rewrite IH. destruct (String.eqb v.1 ""); [reflexivity|apply Scope_Insert_parent].
Qed.

Lemma find_app_first {A} (f : A -> bool) (l1 l2 : list A) :
  List.find f (l1 ++ l2)
  = match List.find f l1 with Some y => Some y | None => List.find f l2 end.
Proof.
  induction l1 as [|a l IH]; simpl; [reflexivity|]. destruct (f a); [reflexivity|exact IH].
Qed.

Lemma scope_set_scope (s : types.Scope) (c : codeBlockCtx) : cb_scope (set_scope s c) = s.
Proof. by destruct c. Qed.

(** X29: the body of a function gets a scope of its own, whose parent is
    the scope the builder was in. [startFuncBody] declares in it the named
    parameters, the named results and the receiver, in this order, and a
    lookup in the body's scope finds the first of them that has the name:
    a parameter or result without a name is not declared, and of two that
    share a name the earlier one is kept. *)
Theorem startFuncBody_scope
    (fn : Func) (sig : types.type) (p : CodeBuilder) :
  signatureOf fn = Ok sig ->
  exists p',
    startFuncBody fn p = Ok p' /\
    scope_parent (cb_scope (cur p')) = Some (cb_scope (cur p)) /\
    (forall name,
       types.Scope_Lookup (cb_scope (cur p')) name
       = option_map asObject (List.find (fun v => String.eqb v.1 name) (declaredBy sig))) /\
    cur_fn p' = Some fn.
Proof.
  intros Hsig. unfold startFuncBody. rewrite Hsig. cbn [rbind].
  eexists. split; [reflexivity|]. rewrite cur_set_cur.
  assert (Hsc : cb_scope (cur (startBlockStmt
                  (fun _ => funcBlock fn (mkFuncBodyCtx (cur p) (cur_fn p) ∅))
                  ("func " +:+ types.func_name (fn_obj fn)) (set_cur_fn (Some fn) p)))
                = types.NewScope (cb_scope (cur p))
                    ("func " +:+ types.func_name (fn_obj fn)))
    by (by destruct_builder p).
  rewrite Hsc. clear Hsc.
  rewrite scope_set_scope.
  split; [|split].
  - destruct (sigRecv sig); [rewrite Scope_Insert_parent|];
      rewrite !insertParams_parent; reflexivity.
  - intros name. unfold declaredBy. rewrite find_app_first, List.filter_app, find_app_first.
    destruct (sigRecv sig) as [recv|].
    + rewrite Scope_Insert_lookup, !insertParams_lookup.
      cbn [types.Scope_Lookup types.NewScope types.scope_elems List.find types.obj_name].
      destruct (List.find _ (List.filter _ (sigParams sig))); [reflexivity|].
      destruct (List.find _ (List.filter _ (sigResults sig))); [reflexivity|].
      cbn [option_map]. destruct (String.eqb recv.1 name); reflexivity.
    + rewrite !insertParams_lookup.
      cbn [types.Scope_Lookup types.NewScope types.scope_elems List.find].
      destruct (List.find _ (List.filter _ (sigParams sig))); [reflexivity|].
      destruct (List.find _ (List.filter _ (sigResults sig))); reflexivity.
  - by destruct_builder p.
Qed.

End Builder.

(** * Properties *)

(** ** The big-number operators allocate their result *)

Section BigintFrame.
Import Builtin.

Lemma Gop_istmp_false {A : Type} (a : A) : Gop_istmp a = false.
Proof. reflexivity. Qed.

Lemma new_Int_fresh (h : heap) : h !! (new_Int h).1 = None.
Proof.
  unfold new_Int; simpl. apply not_elem_of_dom, is_fresh.
Qed.

Lemma tmpint_new (a b : Gop_bigint) (h : heap) :
  tmpint a b h = (mkBigint (Some (fresh (dom h))), <[fresh (dom h) := 0]> h).
Proof. reflexivity. Qed.

Lemma tmpint1_new (a : Gop_bigint) (h : heap) :
  tmpint1 a h = (mkBigint (Some (fresh (dom h))), <[fresh (dom h) := 0]> h).
Proof. reflexivity. Qed.

(** Storing at a location that was free leaves every old cell as it was. *)
Lemma fresh_insert_frame (h : heap) (v : Z) (l : loc) (w : Z) :
  h !! l = Some w -> <[fresh (dom h) := v]> h !! l = Some w.
Proof.
  intros Hl. rewrite lookup_insert_ne; [exact Hl|].
  intros E. subst l. pose proof (new_Int_fresh h) as Hf. simpl in Hf. congruence.
Qed.

Lemma Int_set2_fresh (f : Z -> Z -> Result Z) (h : heap) (la lb : loc) (va vb v : Z) :
  h !! la = Some va -> h !! lb = Some vb -> f va vb = Ok v ->
  Int_set2 f (Some (fresh (dom h))) (Some la) (Some lb) (<[fresh (dom h) := 0]> h)
  = Ok (Some (fresh (dom h)), <[fresh (dom h) := v]> h).
Proof.
  intros Ha Hb Hf. unfold Int_set2, deref.
  rewrite (fresh_insert_frame h 0 la va Ha), (fresh_insert_frame h 0 lb vb Hb).
  simpl. rewrite lookup_insert_eq. simpl. rewrite Hf. simpl.
  by rewrite insert_insert_eq.
Qed.

Lemma Int_set1_fresh (f : Z -> Z) (h : heap) (la : loc) (va : Z) :
  h !! la = Some va ->
  Int_set1 f (Some (fresh (dom h))) (Some la) (<[fresh (dom h) := 0]> h)
  = Ok (Some (fresh (dom h)), <[fresh (dom h) := f va]> h).
Proof.
  intros Ha. unfold Int_set1, deref.
  rewrite (fresh_insert_frame h 0 la va Ha).
  simpl. rewrite lookup_insert_eq. simpl.
  by rewrite insert_insert_eq.
Qed.

Lemma Gop_binary_alloc (op : binop) (a b : Gop_bigint) (h : heap) (la lb : loc) (va vb : Z) :
  Int a = Some la -> Int b = Some lb ->
  h !! la = Some va -> h !! lb = Some vb -> divides_ok op vb ->
  Gop_binary op a b h
  = Ok (mkBigint (Some (fresh (dom h))), <[fresh (dom h) := binop_val op va vb]> h).
Proof.
  intros Ea Eb Ha Hb Hd.
  destruct op; simpl; unfold Gop_Add, Gop_Sub, Gop_Mul, Gop_Quo, Gop_Rem, Gop_Or,
    Gop_Xor, Gop_And, Gop_AndNot; rewrite tmpint_new, Ea, Eb; simpl;
  unfold Int_Add, Int_Sub, Int_Mul, Int_Quo, Int_Rem, Int_Or, Int_Xor, Int_And, Int_AndNot;
  (erewrite Int_set2_fresh; [reflexivity | exact Ha | exact Hb | ]);
  try reflexivity;
  simpl in Hd; apply Z.eqb_neq in Hd; rewrite Hd; reflexivity.
Qed.

Lemma Gop_shift_alloc (op : shiftop) (a : Gop_bigint) (n : Gop_ninteger) (h : heap) (la : loc) (va : Z) :
  Int a = Some la -> h !! la = Some va ->
  Gop_shift op a n h
  = Ok (mkBigint (Some (fresh (dom h))), <[fresh (dom h) := shiftop_val op va n]> h).
Proof.
  intros Ea Ha.
  destruct op; simpl; unfold Gop_Lsh, Gop_Rsh; rewrite tmpint1_new, Ea; simpl;
  unfold Int_Lsh, Int_Rsh; rewrite (Int_set1_fresh _ h la va Ha); reflexivity.
Qed.

Lemma Gop_unary_alloc (op : unop) (a : Gop_bigint) (h : heap) (la : loc) (va : Z) :
  Int a = Some la -> h !! la = Some va ->
  Gop_unary op a h
  = Ok (mkBigint (Some (fresh (dom h))), <[fresh (dom h) := unop_val op va]> h).
Proof.
  intros Ea Ha.
  destruct op; simpl; unfold Gop_Neg, Gop_Not; rewrite tmpint1_new, Ea; simpl;
  unfold Int_Neg, Int_Not; rewrite (Int_set1_fresh _ h la va Ha); reflexivity.
Qed.

Lemma fresh_result_intro (h : heap) (la lb : loc) (va vb v : Z) :
  h !! la = Some va -> h !! lb = Some vb ->
  fresh_result h la lb va vb v
    (Ok (mkBigint (Some (fresh (dom h))), <[fresh (dom h) := v]> h)).
Proof.
  intros Ha Hb. exists (fresh (dom h)), (<[fresh (dom h) := v]> h).
  pose proof (new_Int_fresh h) as Hf; simpl in Hf.
  repeat split.
  - exact Hf.
  - intros E; rewrite E in Hf; congruence.
  - intros E; rewrite E in Hf; congruence.
  - apply lookup_insert_eq.
  - by apply fresh_insert_frame.
  - by apply fresh_insert_frame.
  - intros l Hl. by rewrite lookup_insert_ne.
Qed.

(** C9: for bigint operands [a], [b] (non-nil, and a divisor that is not
    zero for Quo and Rem), every binary operator, both shifts and both
    unary operators return a [big.Int] at a location that was not in the
    store, holding the operator's value; the integers at [a] and [b], and
    every other cell, are as before. [Gop_istmp] is constantly false. *)
Theorem bigint_ops_allocate_fresh_result
    (a b : Gop_bigint) (h : heap) (la lb : loc) (va vb : Z) :
  Int a = Some la -> Int b = Some lb ->
  h !! la = Some va -> h !! lb = Some vb ->
  (forall (A : Type) (x : A), Gop_istmp x = false) /\
  (forall op : binop, divides_ok op vb ->
     fresh_result h la lb va vb (binop_val op va vb) (Gop_binary op a b h)) /\
  (forall (op : shiftop) (n : Gop_ninteger),
     fresh_result h la la va va (shiftop_val op va n) (Gop_shift op a n h)) /\
  (forall op : unop,
     fresh_result h la la va va (unop_val op va) (Gop_unary op a h)).
Proof.
  intros Ea Eb Ha Hb. split; [reflexivity|]. repeat split.
  - intros op Hd. rewrite (Gop_binary_alloc op a b h la lb va vb); auto.
    by apply fresh_result_intro.
  - intros op n. rewrite (Gop_shift_alloc op a n h la va); auto.
    by apply fresh_result_intro.
  - intros op. rewrite (Gop_unary_alloc op a h la va); auto.
    by apply fresh_result_intro.
Qed.

End BigintFrame.

(** The operands [a = 6] at location 1 and [b = 4] at location 2. *)
Lemma bigint_ops_allocate_fresh_result_witness :
  let h : gmap positive Z := <[2%positive := 4]> (<[1%positive := 6]> ∅) in
  Builtin.fresh_result h 1%positive 2%positive 6 4 1
    (Builtin.Gop_binary Builtin.Quo (Builtin.mkBigint (Some 1%positive))
       (Builtin.mkBigint (Some 2%positive)) h).
Proof.
  intros h.
  refine (proj1 (proj2 (bigint_ops_allocate_fresh_result
    (Builtin.mkBigint (Some 1%positive)) (Builtin.mkBigint (Some 2%positive))
    h 1%positive 2%positive 6 4 eq_refl eq_refl _ _)) Builtin.Quo _).
  - reflexivity.
  - reflexivity.
  - simpl. lia.
Defined.

(** * The instructions on concrete builders *)

(** The instructions with the concrete collaborators. *)
Abbreviation run_callOpFunc :=
  (callOpFunc "Gop_" id demo_matchFuncCall demo_toObject demo_ComparableTo demo_binaryOp id).
Abbreviation run_BinaryOp :=
  (BinaryOp "Gop_" demo_typeString id demo_matchFuncCall demo_toObject demo_ComparableTo
     demo_binaryOp id).
Abbreviation run_StructLit :=
  (StructLit demo_typeString demo_typeString demo_toNamedType demo_toType demo_AssignableTo).
Abbreviation run_End :=
  (End_ false demo_closureFlagInline demo_regrow map_to_list demo_setStmtComments demo_toExpr
     demo_isInline demo_getParamLen demo_endFuncDecl).
Abbreviation run_emitStmt := (emitStmt demo_setStmtComments).
Abbreviation run_doAssignWith := (doAssignWith demo_setStmtComments demo_checkAssignType).

Lemma demo_regrow_len (s s' : internal.Stack) (n : Z) :
  demo_regrow s n = Ok s' -> internal.Len s' = n.
Proof.
  unfold demo_regrow. destruct (Z.ltb_spec (internal.Len s) n); [|discriminate].
  intros H0. injection H0 as <-. unfold internal.Len in *. simpl.
  rewrite length_app, length_replicate. lia.
Qed.

Lemma map_to_list_perm (m : gmap string LabelRef) : map_to_list m ≡ₚ map_to_list m.
Proof. reflexivity. Qed.

(** ** C1 *)

(** C1 fails as stated: for [x + y] with [x] of type [T1], which has no
    method [Gop_Add], and [y] of type [T2], which has one, the operator is
    resolved to the builtin [Gop_Add] and not to the method of [T2]. *)
Lemma BinaryOp_skips_method_of_second_operand :
  lookupMethod demo_ops_cb 1%positive "Gop_Add" = None /\
  lookupMethod demo_ops_cb 2%positive "Gop_Add"
  = Some (types.mkFunc "Gop_Add" (opSignature 2%positive)) /\
  run_callOpFunc demo_ops_cb token.ADD binaryOps [demo_x; demo_y] 0
  = demo_matchFuncCall demo_pkg
      (demo_toObject demo_pkg (types.mkObject "Gop_Add" (opSignature 1%positive)) None)
      [demo_x; demo_y] 0 /\
  run_callOpFunc demo_ops_cb token.ADD binaryOps [demo_x; demo_y] 0
  <> demo_matchFuncCall demo_pkg
       (methodFn id demo_y "Gop_Add" (types.mkFunc "Gop_Add" (opSignature 2%positive)))
       [demo_x; demo_y] 0 /\
  run_BinaryOp token.ADD None demo_ops_cb
  = Ok (set_stk (internal.mkStack
                   [internal.mkElem (ast.Ident "Gop_Add") (Some (opSignature 1%positive)) None None])
          demo_ops_cb).
Proof.
  split; [reflexivity|]. split; [reflexivity|]. split; [reflexivity|].
  split; [|reflexivity]. vm_compute. discriminate.
Qed.

(** With [y] first, the method of [T2] is the one called. *)
Lemma BinaryOp_resolution_witness :
  run_BinaryOp token.ADD None demo_ops_cb'
  = (r <- demo_matchFuncCall demo_pkg
            (methodFn id demo_y "Gop_Add" (types.mkFunc "Gop_Add" (opSignature 2%positive)))
            [demo_y; demo_x] 0 ;;;
     finishBinaryOp demo_typeString None [demo_y; demo_x] demo_ops_cb' r).
Proof.
  apply (proj1 (BinaryOp_resolution "Gop_" demo_typeString id demo_matchFuncCall demo_toObject
           demo_ComparableTo demo_binaryOp id demo_ops_cb' token.ADD "Add" None
           [] demo_y demo_x 2%positive 1%positive eq_refl eq_refl eq_refl eq_refl)).
  reflexivity.
Defined.

(** ** C2 *)

(** C2 fails as stated: for the struct type with the one field [x int],
    [StructLit] with no operand (0 is not the number of fields) reports
    nothing and pushes the empty literal. *)
Lemma StructLit_zero_arity_accepted :
  0 <> Z.of_nat (length [("x", intType)]) /\
  run_StructLit (Some demo_struct) 0 false demo_cb
  = Ok (set_stk (internal.mkStack
                   [compositeLit (demo_toType demo_pkg demo_struct) [] (Some demo_struct)])
          demo_cb).
Proof. split; [simpl; lia | reflexivity]. Qed.

(** One operand for the one field: the literal holds it. *)
Lemma StructLit_positional_arity_witness :
  run_StructLit (Some demo_struct) 1 false (set_stk (internal.mkStack [demo_one]) demo_cb)
  = Ok (set_stk (internal.mkStack
                   [compositeLit (demo_toType demo_pkg demo_struct) [ast.BasicLit "1"]
                      (Some demo_struct)])
          (set_stk (internal.mkStack [demo_one]) demo_cb)).
Proof.
  refine (proj1 (StructLit_positional_arity demo_typeString demo_typeString demo_toNamedType
            demo_toType demo_AssignableTo
            (set_stk (internal.mkStack [demo_one]) demo_cb)
            (set_stk (internal.mkStack [demo_one]) demo_cb)
            (Some demo_struct) [("x", intType)] (demo_toType demo_pkg demo_struct)
            [] [demo_one] eq_refl eq_refl) eq_refl _).
  repeat constructor.
Defined.

(** ** C3 *)

(** C3 fails as stated: the body of the inline call of [func() int] is
    opened (by [startFuncBody], as [CallInlineClosureStart] does) on an empty
    stack, so its base is 0; [End], which for this block is
    [inlineClosureEnd], returns with one operand on the stack, the result of
    the call. *)
Lemma End_of_inline_closure_leaves_result :
  exists p1 p2,
    startFuncBody demo_closure demo_inline_cb = Ok p1 /\
    cb_base (cur p1) = 0 /\
    internal.Len (stk p1) = 0 /\
    inlineClosureEnd demo_closureFlagInline demo_regrow map_to_list demo_setStmtComments
      demo_toExpr demo_getParamLen demo_closure (mkFuncBodyCtx demo_ctx None ∅) p1 = Ok p2 /\
    run_End p1 = Ok p2 /\
    internal.data (stk p2)
    = [internal.mkElem (ast.Ident "_autoGo_1") (Some intType) None None] /\
    internal.Len (stk p2) <> cb_base (cur p1).
Proof.
  eexists. eexists. split; [reflexivity|]. split; [reflexivity|]. split; [reflexivity|].
  split; [vm_compute; reflexivity|]. split; [reflexivity|]. split; [reflexivity|].
  vm_compute. discriminate.
Qed.

(** A plain block opened on a stack of one operand, with one more operand
    left in it: [End] returns and brings the stack back to one operand. *)
Lemma End_stack_length_witness :
  exists p',
    run_End (set_stk (internal.mkStack [demo_one; demo_one])
               (Block (set_stk (internal.mkStack [demo_one]) demo_cb))) = Ok p' /\
    internal.Len (stk p') = 1.
Proof.
  destruct (End_stack_length false demo_closureFlagInline demo_regrow
              demo_regrow_len map_to_list demo_setStmtComments demo_toExpr demo_isInline
              demo_getParamLen demo_endFuncDecl
              (set_stk (internal.mkStack [demo_one; demo_one])
                 (Block (set_stk (internal.mkStack [demo_one]) demo_cb))))
    as (_ & _ & Hblock & _ & _).
  destruct (Hblock demo_ctx eq_refl) as [Hreturns Hlen].
  destruct Hreturns as [p' Hp'].
  - vm_compute. split; discriminate.
  - left. reflexivity.
  - exists p'. split; [exact Hp'|]. exact (Hlen p' Hp').
Defined.

(** ** C4 *)

(** The label [L] of [demo_label_cb] is not used: closing the body reports it. *)
Lemma unused_label_reported_iff_not_used_witness :
  exists (p1 : CodeBuilder) (news : list CodeError),
    checkLabels map_to_list demo_label_cb = Ok p1 /\
    reported p1 = reported demo_label_cb ++ news /\
    (mkCodeError "label L defined and not used" (Some token.zeroPosition) universe
       (Some demo_fn) ∈ news <-> used demo_L = false) /\
    (forall stmts p2,
       endFuncBody demo_regrow map_to_list demo_setStmtComments
         (mkFuncBodyCtx demo_ctx None ∅) demo_label_cb = Ok (stmts, p2) ->
       reported p2 = reported p1).
Proof.
  apply (unused_label_reported_iff_not_used demo_regrow map_to_list map_to_list_perm
           demo_setStmtComments demo_label_cb (mkFuncBodyCtx demo_ctx None ∅)
           "L" 1%positive demo_L).
  - intros e. reflexivity.
  - intros n r Hn. change (cur_labels demo_label_cb) with ({[ "L" := 1%positive ]} : gmap string LabelRef) in Hn.
    apply lookup_singleton_Some in Hn as [_ <-]. exists demo_L. reflexivity.
  - reflexivity.
  - reflexivity.
Defined.

(** ** C5 *)

(** [Label(L)], then two statements: the first one carries the label. *)
Lemma Label_attaches_to_next_statement_witness :
  cb_stmts (cur (run_emitStmt (ast.ExprStmt (ast.Ident "b"))
                   (run_emitStmt (ast.ExprStmt (ast.Ident "a"))
                      (set_cur (set_label (Some ("L", None)) (cur demo_label_cb)) demo_label_cb))))
  = [ast.LabeledStmt "L" (Some (ast.ExprStmt (ast.Ident "a"))); ast.ExprStmt (ast.Ident "b")].
Proof.
  apply (Label_attaches_to_next_statement demo_setStmtComments demo_label_cb
           (set_cur (set_label (Some ("L", None)) (cur demo_label_cb)) demo_label_cb)
           (set_cur (set_label (Some ("L", None)) (cur demo_label_cb)) demo_label_cb)
           1%positive demo_L (ast.ExprStmt (ast.Ident "a")) (ast.ExprStmt (ast.Ident "b"))).
  - reflexivity.
  - reflexivity.
  - reflexivity.
Defined.

(** ** C6 *)

(** [x, y = f()] where [f] has three results, and where it has two. *)
Lemma doAssignWith_call_results_witness :
  run_doAssignWith 2 1 None (demo_assign_cb demo_call3)
  = Panic (PanicError
             (mkCodeError "assignment mismatch: 2 variables but f returns 3 values"
                (Some token.zeroPosition) universe None)) /\
  exists p',
    run_doAssignWith 2 1 None (demo_assign_cb demo_call2) = Ok p' /\
    stk p' = internal.mkStack [] /\
    cb_stmts (cur p')
    = [ast.AssignStmt token.ASSIGN [ast.Ident "x"; ast.Ident "y"]
         [ast.CallExpr (ast.Ident "f") []]].
Proof.
  split.
  - apply (proj1 (doAssignWith_call_results demo_setStmtComments demo_checkAssignType
                    (demo_assign_cb demo_call3) None [] [demo_var "x"; demo_var "y"] demo_call3
                    [("", intType); ("", intType); ("", intType)] eq_refl eq_refl)).
    simpl. lia.
  - apply (proj2 (doAssignWith_call_results demo_setStmtComments demo_checkAssignType
                    (demo_assign_cb demo_call2) None [] [demo_var "x"; demo_var "y"] demo_call2
                    [("", intType); ("", intType)] eq_refl eq_refl)).
    + reflexivity.
    + repeat constructor.
Defined.

(** ** C8 *)

(** [T1] is not loaded: the first call loads it, the second one does not. *)
Lemma getUnderlying_idempotent_witness :
  let '(u1, p1) := getUnderlying 1%positive demo_lazy_cb in
  let '(u2, p2) := getUnderlying 1%positive p1 in
  u1 <> None /\ u2 = u1 /\ p2 = p1 /\ loaded p2 = loaded p1 /\
  (Underlying 1%positive demo_lazy_cb <> None -> loaded p1 = loaded demo_lazy_cb) /\
  (Underlying 1%positive demo_lazy_cb = None -> loaded p1 = loaded demo_lazy_cb ++ [1%positive]).
Proof.
  apply (getUnderlying_idempotent 1%positive demo_lazy_cb).
  intros _. vm_compute. discriminate.
Defined.

(** ** C10 *)

(** One operand above the base: [EndStmt] returns. *)
Lemma EndStmt_by_operand_count_witness :
  exists p', EndStmt demo_setStmtComments (set_stk (internal.mkStack [demo_one]) demo_cb) = Ok p'.
Proof.
  apply (EndStmt_by_operand_count demo_setStmtComments
           (set_stk (internal.mkStack [demo_one]) demo_cb)).
  - vm_compute. discriminate.
  - vm_compute. discriminate.
Defined.

(** * More instructions on concrete builders *)

Abbreviation run_ArrayLit :=
  (ArrayLit demo_typeString demo_typeString demo_toNamedType demo_AssignableTo demo_toType).
Abbreviation run_SliceLit :=
  (SliceLit demo_typeString demo_typeString demo_toNamedType demo_boundElementType
     (fun _ t => t) demo_toType demo_AssignableConv).
Abbreviation run_MapLit :=
  (MapLit demo_typeString demo_typeString demo_toNamedType demo_toType demo_AssignableTo
     demo_boundElementType (fun _ t => t)).
Abbreviation run_UnaryOp :=
  (UnaryOp "Gop_" id demo_matchFuncCall demo_toObject demo_ComparableTo demo_binaryOp id 1).

(** The first of three statements is committed: it becomes the last one. *)
Lemma commitStmt_moves_to_end_witness :
  exists p',
    commitStmt 0 demo_stmts_cb = Ok p' /\
    cb_stmts (cur p') = [demo_stmt "b"; demo_stmt "c"; demo_stmt "a"].
Proof.
  destruct (commitStmt_moves_to_end demo_stmts_cb [] [demo_stmt "b"; demo_stmt "c"]
              (demo_stmt "a") eq_refl) as [(p' & H1 & H2 & _) _].
  exists p'. split; [exact H1|exact H2].
Defined.

(** [a] is started, [b] is emitted, then [a] is committed: [b] comes first. *)
Lemma startStmtAt_commitStmt_witness :
  exists q',
    commitStmt (startStmtAt demo_setStmtComments (demo_stmt "a") demo_cb).1
      (set_cur (set_stmts [demo_stmt "a"; demo_stmt "b"] demo_ctx) demo_cb) = Ok q' /\
    cb_stmts (cur q') = [demo_stmt "b"; demo_stmt "a"].
Proof.
  exact (startStmtAt_commitStmt demo_setStmtComments demo_cb
           (set_cur (set_stmts [demo_stmt "a"; demo_stmt "b"] demo_ctx) demo_cb)
           (demo_stmt "a") [demo_stmt "b"] eq_refl).
Defined.

(** One of two operands is returned. *)
Lemma returnResults_pops_results_witness :
  exists p',
    returnResults demo_setStmtComments 1 demo_two_cb = Ok p' /\
    stk p' = internal.mkStack [demo_one] /\
    cb_stmts (cur p') = [ast.ReturnStmt [ast.BasicLit "1"]].
Proof.
  destruct (returnResults_pops_results demo_setStmtComments demo_two_cb [demo_one] [demo_one]
              eq_refl) as [H _].
  apply H. discriminate.
Defined.

(** The block ends while [L] waits: [L] labels an empty statement. *)
Lemma endBlockStmt_pending_label_witness :
  exists p',
    endBlockStmt demo_regrow demo_setStmtComments demo_ctx demo_pending_cb
    = Ok ([ast.LabeledStmt "L" (Some ast.EmptyStmt)], 0, p') /\
    cur p' = demo_ctx /\ internal.data (stk p') = [].
Proof.
  apply (endBlockStmt_pending_label demo_regrow demo_setStmtComments demo_pending_cb demo_ctx).
  vm_compute. split; discriminate.
Defined.

(** [M] is new in the body that has [L]. *)
Lemma NewLabel_then_LookupLabel_witness :
  exists l p',
    NewLabel demo_positionString 9 "M" demo_label_cb = Ok (Some l, p') /\
    LookupLabel "M" p' = Some l /\
    LookupLabel "L" p' = Some 1%positive.
Proof.
  destruct (NewLabel_then_LookupLabel demo_positionString demo_label_cb demo_fn 9 "M"
              eq_refl eq_refl) as (l & p' & H1 & H2 & _ & _ & H5 & _).
  exists l, p'. split; [exact H1|]. split; [exact H2|].
  rewrite (H5 "L"); [reflexivity|discriminate].
Defined.

(** [L] is defined a second time. *)
Lemma NewLabel_duplicate_witness :
  exists p',
    NewLabel demo_positionString 9 "L" demo_label_cb = Ok (None, p') /\
    reported p'
    = [newCodePosError demo_label_cb 9 "label L already defined at -"] /\
    cur_labels p' = cur_labels demo_label_cb.
Proof.
  destruct (NewLabel_duplicate demo_positionString demo_label_cb 9 "L" 1%positive demo_L
              eq_refl eq_refl) as (_ & H & _).
  destruct H as (p' & H1 & H2 & H3 & _); [discriminate|reflexivity|].
  exists p'. split; [exact H1|]. split; [exact H2|exact H3].
Defined.

(** A body is opened in the builder that has [L]: [L] is still there. *)
Lemma labels_outlive_function_body_witness :
  exists p1,
    startFuncBody demo_fn demo_label_cb = Ok p1 /\
    LookupLabel "L" p1 = Some 1%positive.
Proof.
  assert (E : exists p1, startFuncBody demo_fn demo_label_cb = Ok p1)
    by (eexists; reflexivity).
  destruct E as [p1 E]. exists p1. split; [exact E|].
  unfold LookupLabel.
  rewrite (proj1 (labels_outlive_function_body demo_regrow map_to_list demo_setStmtComments
                    demo_label_cb p1 demo_fn E)).
  reflexivity.
Defined.


(** [[...]int{1, 1}] gets the length 2. *)
Lemma ArrayLit_positional_witness :
  run_ArrayLit (Some (types.Array intType (-1))) 2 false demo_two_cb
  = Ok (set_stk (internal.mkStack
                   [compositeLit (demo_toType demo_pkg (types.Array intType (-1)))
                      [ast.BasicLit "1"; ast.BasicLit "1"] (Some (types.Array intType 2))])
          demo_two_cb).
Proof.
  refine (proj1 (ArrayLit_positional demo_typeString demo_typeString demo_toNamedType
                   demo_AssignableTo demo_toType demo_two_cb intType (-1) []
                   [demo_one; demo_one] eq_refl _) _).
  - repeat constructor.
  - reflexivity.
Defined.

(** Two values without keys for [[1]int]: the second one is out of bounds. *)
Lemma ArrayLit_keyVal_unkeyed_witness :
  run_ArrayLit (Some (types.Array intType 1)) 4 true
    (set_stk (internal.mkStack (unkeyed [demo_one; demo_one])) demo_cb)
  = Panic (PanicError
             (newCodeError demo_cb (Some token.zeroPosition)
                "array index 1 out of bounds [0:1]")).
Proof.
  destruct (ArrayLit_keyVal_unkeyed demo_typeString demo_typeString demo_toNamedType
              demo_AssignableTo demo_toType
              (set_stk (internal.mkStack (unkeyed [demo_one; demo_one])) demo_cb)
              intType 1 [] [demo_one; demo_one] eq_refl) as (_ & _ & H).
  - repeat constructor.
  - destruct H as (v & Hv & H); [simpl; lia|].
    injection Hv as <-. exact H.
Defined.

(** Without a type, a key-value slice literal panics and a positional one
    is a [[]interface{}]. *)
Lemma SliceLit_untyped_witness :
  run_SliceLit None 2 true demo_two_cb = nil_deref /\
  run_SliceLit None 2 false demo_two_cb
  = Ok (set_stk (internal.mkStack
                   [compositeLit (demo_toType demo_pkg (types.Slice TyEmptyInterface))
                      [ast.BasicLit "1"; ast.BasicLit "1"]
                      (Some (types.Slice TyEmptyInterface))])
          demo_two_cb).
Proof.
  destruct (SliceLit_untyped demo_typeString demo_typeString demo_toNamedType
              demo_boundElementType (fun _ t => t) demo_toType demo_AssignableConv
              demo_two_cb [] [demo_one; demo_one] eq_refl) as (_ & H1 & _ & H2).
  split; [exact (H1 eq_refl)|]. apply H2. discriminate.
Defined.

(** The operand without type is refused in [[]int{1, u}]. *)
Lemma SliceLit_typed_positional_witness :
  run_SliceLit (Some (types.Slice intType)) 2 false
    (set_stk (internal.mkStack [demo_one; demo_untyped]) demo_cb)
  = Panic (PanicError
             (newCodeError demo_cb (Some token.zeroPosition)
                "cannot use  (type <nil>) as type int in slice literal")).
Proof.
  refine (proj2 (SliceLit_typed_positional demo_typeString demo_typeString demo_toNamedType
                   demo_boundElementType (fun _ t => t) demo_toType demo_AssignableConv
                   (set_stk (internal.mkStack [demo_one; demo_untyped]) demo_cb)
                   intType [] [demo_one; demo_untyped] eq_refl)
            [demo_one] demo_untyped [] eq_refl _ eq_refl).
  repeat constructor.
Defined.

(** [[]int{1}] on a stack of two operands leaves the lower one. *)
Lemma literal_stack_effect_witness :
  exists p' typExpr elts t,
    run_SliceLit (Some (types.Slice intType)) 1 false demo_two_cb = Ok p' /\
    internal.data (stk p') = [demo_one; compositeLit typExpr elts t].
Proof.
  assert (E : exists p', run_SliceLit (Some (types.Slice intType)) 1 false demo_two_cb = Ok p')
    by (eexists; reflexivity).
  destruct E as [p' E].
  destruct (literal_stack_effect demo_typeString demo_typeString demo_toNamedType
              demo_toType demo_toType demo_AssignableTo demo_boundElementType (fun _ t => t)
              demo_toType demo_toType demo_AssignableConv
              (Some (types.Slice intType)) 1 false demo_two_cb p'
              (or_intror (or_intror (or_intror E))))
    as (_ & (typExpr & elts & t & H) & _).
  exists p', typExpr, elts, t. split; [exact E|exact H].
Defined.

(** [struct{x, y int}{1: 1, 0: 1}]: the fields are set by name, [y] first. *)
Lemma StructLit_keyVal_by_index_witness :
  run_StructLit (Some demo_struct2) 4 true
    (set_stk (internal.mkStack [demo_key 1; demo_one; demo_key 0; demo_one]) demo_cb)
  = Ok (set_stk (internal.mkStack
                   [compositeLit (demo_toType demo_pkg demo_struct2)
                      [ast.KeyValueExpr (ast.Ident "y") (ast.BasicLit "1");
                       ast.KeyValueExpr (ast.Ident "x") (ast.BasicLit "1")]
                      (Some demo_struct2)])
          (set_stk (internal.mkStack [demo_key 1; demo_one; demo_key 0; demo_one]) demo_cb)).
Proof.
  refine (proj1 (StructLit_keyVal_by_index demo_typeString demo_typeString demo_toNamedType
                   demo_toType demo_AssignableTo
                   (set_stk (internal.mkStack [demo_key 1; demo_one; demo_key 0; demo_one])
                      demo_cb)
                   [("x", intType); ("y", intType)] []
                   [(1, demo_key 1, demo_one); (0, demo_key 0, demo_one)] eq_refl) _).
  repeat constructor; try (cbn; lia); by eexists _, _.
Defined.

(** [map[string]int{"a": 1}]. *)
Lemma MapLit_typed_witness :
  run_MapLit (Some (types.Map (types.Basic types.String) intType)) 2
    (set_stk (internal.mkStack [demo_str "a"; demo_one]) demo_cb)
  = Ok (set_stk (internal.mkStack
                   [compositeLit
                      (demo_toType demo_pkg (types.Map (types.Basic types.String) intType))
                      [ast.KeyValueExpr (ast.BasicLit "a") (ast.BasicLit "1")]
                      (Some (types.Map (types.Basic types.String) intType))])
          (set_stk (internal.mkStack [demo_str "a"; demo_one]) demo_cb)).
Proof.
  refine (proj1 (MapLit_typed demo_typeString demo_typeString demo_toNamedType demo_toType
                   demo_AssignableTo demo_boundElementType (fun _ t => t)
                   (set_stk (internal.mkStack [demo_str "a"; demo_one]) demo_cb)
                   (types.Basic types.String) intType [] [(demo_str "a", demo_one)] eq_refl) _).
  repeat constructor.
Defined.

(** [x, y = 1, 1]. *)
Lemma doAssignWith_values_witness :
  exists p',
    run_doAssignWith 2 2 None
      (set_stk (internal.mkStack [demo_var "x"; demo_var "y"; demo_one; demo_one]) demo_cb)
    = Ok p' /\
    stk p' = internal.mkStack [] /\
    cb_stmts (cur p')
    = [ast.AssignStmt token.ASSIGN [ast.Ident "x"; ast.Ident "y"]
         [ast.BasicLit "1"; ast.BasicLit "1"]].
Proof.
  destruct (doAssignWith_values demo_setStmtComments demo_checkAssignType
              (set_stk (internal.mkStack [demo_var "x"; demo_var "y"; demo_one; demo_one])
                 demo_cb)
              None [] [demo_var "x"; demo_var "y"] [demo_one; demo_one] eq_refl)
    as [_ H].
  - intros x rhsVals E. discriminate E.
  - destruct H as (p' & H1 & _ & H2 & H3); [reflexivity|repeat constructor|].
    exists p'. split; [exact H1|]. split; [exact H2|exact H3].
Defined.

(** [ppy + x] for [ppy] of type [**T2]: the method [Gop_Add] of [T2] is
    found through the two pointers. *)
Lemma callOpFunc_through_pointers_witness :
  run_callOpFunc demo_ops_cb token.ADD binaryOps [demo_ppy; demo_x] 0
  = demo_matchFuncCall demo_pkg
      (methodFn id demo_ppy "Gop_Add" (types.mkFunc "Gop_Add" (opSignature 2%positive)))
      [demo_ppy; demo_x] 0.
Proof.
  refine (proj1 (callOpFunc_through_pointers "Gop_" id demo_matchFuncCall demo_toObject
                   demo_ComparableTo demo_binaryOp id demo_ops_cb token.ADD binaryOps "Add" 0
                   demo_ppy [demo_x] 2 2%positive eq_refl eq_refl) _ eq_refl).
Defined.

(** [y + x]: the result of the call replaces both operands. *)
Lemma operator_outcome_witness :
  run_BinaryOp token.ADD (Some 5%nat) demo_ops_cb'
  = Ok (set_stk (internal.mkStack
                   [setSrc (Some 5%nat)
                      (methodFn id demo_y "Gop_Add"
                         (types.mkFunc "Gop_Add" (opSignature 2%positive)))])
          demo_ops_cb').
Proof.
  refine (proj1 (operator_outcome "Gop_" demo_typeString id demo_matchFuncCall demo_toObject
                   demo_ComparableTo demo_binaryOp id 1 demo_ops_cb' token.ADD (Some 5%nat)
                   false [] demo_y demo_x
                   (methodFn id demo_y "Gop_Add"
                      (types.mkFunc "Gop_Add" (opSignature 2%positive)))
                   "" eq_refl) eq_refl).
Defined.

(** In the body of [demo_method], [a] is the first parameter, the receiver
    and the result are declared, and the empty name is not. *)
Lemma startFuncBody_scope_witness :
  exists p',
    startFuncBody demo_method demo_cb = Ok p' /\
    types.Scope_Lookup (cb_scope (cur p')) "a" = Some (types.mkObject "a" intType) /\
    types.Scope_Lookup (cb_scope (cur p')) "r"
    = Some (types.mkObject "r" (types.Named 1%positive)) /\
    types.Scope_Lookup (cb_scope (cur p')) "err"
    = Some (types.mkObject "err" (types.Basic types.String)) /\
    types.Scope_Lookup (cb_scope (cur p')) "" = None.
Proof.
  destruct (startFuncBody_scope demo_method (types.func_type (fn_obj demo_method)) demo_cb
              eq_refl) as (p' & H1 & _ & H2 & _).
  exists p'. split; [exact H1|]. rewrite !H2. repeat split; reflexivity.
Defined.

(** * More properties of the big-number operators *)

Section BigintMore.
Import Builtin.

Lemma Int_Cmp_values (h : heap) (la lb : loc) (va vb : Z) :
  h !! la = Some va -> h !! lb = Some vb ->
  Int_Cmp (Some la) (Some lb) h
  = Ok (match Z.compare va vb with Lt => -1 | Eq => 0 | Gt => 1 end).
Proof.
  intros Ha Hb. unfold Int_Cmp. destruct (decide (Some la = Some lb)) as [E|_].
  - injection E as ->. rewrite Ha in Hb. injection Hb as ->.
    by rewrite Z.compare_refl.
  - unfold deref. rewrite Ha, Hb. reflexivity.
Qed.

(** X23: the comparisons of [Gop_bigint] compare the integers the operands
    hold, whatever the pointers are (two cells with one value are equal, and
    so is a cell with itself); they return the order of Z on the values. *)
Theorem bigint_comparisons
    (a b : Gop_bigint) (h : heap) (la lb : loc) (va vb : Z) :
  Int a = Some la -> Int b = Some lb ->
  h !! la = Some va -> h !! lb = Some vb ->
  Gop_LT a b h = Ok (va <? vb) /\ Gop_LE a b h = Ok (va <=? vb) /\
  Gop_GT a b h = Ok (vb <? va) /\ Gop_GE a b h = Ok (vb <=? va) /\
  Gop_EQ a b h = Ok (va =? vb) /\ Gop_NE a b h = Ok (negb (va =? vb)).
Proof.
  intros Ea Eb Ha Hb.
  unfold Gop_LT, Gop_LE, Gop_GT, Gop_GE, Gop_EQ, Gop_NE.
  rewrite Ea, Eb, (Int_Cmp_values h la lb va vb Ha Hb). cbn [rbind].
  destruct (Z.compare_spec va vb) as [E|L|G]; cbn.
  - subst vb. rewrite Z.ltb_irrefl, Z.leb_refl, Z.eqb_refl. done.
  - destruct (Z.ltb_spec va vb); [|lia]. destruct (Z.leb_spec va vb); [|lia].
    destruct (Z.ltb_spec vb va); [lia|]. destruct (Z.leb_spec vb va); [lia|].
    destruct (Z.eqb_spec va vb); [lia|]. done.
  - destruct (Z.ltb_spec va vb); [lia|]. destruct (Z.leb_spec va vb); [lia|].
    destruct (Z.ltb_spec vb va); [|lia]. destruct (Z.leb_spec vb va); [|lia].
    destruct (Z.eqb_spec va vb); [lia|]. done.
Qed.

(** X24: [Copy] gives a new big integer that holds the value of [a]: its
    cell was not in use, so it is not the cell of [a]; no cell that was in
    use changes, and the copy compares equal to [a]. [Copy] of a nil bigint
    panics. *)
Theorem bigint_Copy
    (a : Gop_bigint) (h : heap) (la : loc) (va : Z) :
  Int a = Some la -> h !! la = Some va ->
  (exists (r : loc) (h' : heap),
     Copy a h = Ok (mkBigint (Some r), h') /\
     h !! r = None /\ r <> la /\ h' !! r = Some va /\
     (forall l, l <> r -> h' !! l = h !! l) /\
     Gop_EQ a (mkBigint (Some r)) h' = Ok true) /\
  (forall n, IsNil n = true ->
     Copy n h = Panic "invalid memory address or nil pointer dereference").
Proof.
  intros Ea Ha. split.
  - exists (fresh (dom h)), (<[fresh (dom h) := va]> h).
    pose proof (new_Int_fresh h) as Hf. cbn [new_Int fst] in Hf.
    assert (Hne : fresh (dom h) <> la) by (intros E; rewrite E in Hf; congruence).
    split; [|split; [exact Hf|split; [exact Hne|split; [apply lookup_insert_eq|split]]]].
    + unfold Copy, new_Int, Int_Set, Int_set1, wrap, deref. rewrite Ea.
      rewrite lookup_insert_ne by done. rewrite Ha. cbn [rbind].
      rewrite lookup_insert_eq. cbn [rbind fst snd]. rewrite insert_insert_eq. reflexivity.
    + intros l Hl. by rewrite lookup_insert_ne.
    + unfold Gop_EQ. rewrite Ea. cbn [Int].
      rewrite (Int_Cmp_values _ la (fresh (dom h)) va va).
      * cbn [rbind]. by rewrite Z.compare_refl.
      * by rewrite lookup_insert_ne.
      * apply lookup_insert_eq.
  - intros [[l|]] Hn; [discriminate|]. reflexivity.
Qed.

(** X25: the operators compose without recycling: in [(a op1 b) op2 c]
    the intermediate result and the final result are two new cells, the
    final one holds the value of the expression, the intermediate one keeps
    its value, the three operands keep theirs, and nothing else is added
    to the store. *)
Theorem bigint_expression
    (op1 op2 : binop) (a b c : Gop_bigint) (h : heap) (la lb lc : loc) (va vb vc : Z) :
  Int a = Some la -> Int b = Some lb -> Int c = Some lc ->
  h !! la = Some va -> h !! lb = Some vb -> h !! lc = Some vc ->
  divides_ok op1 vb -> divides_ok op2 vc ->
  exists (r1 r2 : loc) (h1 h2 : heap),
    Gop_binary op1 a b h = Ok (mkBigint (Some r1), h1) /\
    Gop_binary op2 (mkBigint (Some r1)) c h1 = Ok (mkBigint (Some r2), h2) /\
    h !! r1 = None /\ h !! r2 = None /\ r1 <> r2 /\
    h2 !! r2 = Some (binop_val op2 (binop_val op1 va vb) vc) /\
    h2 !! r1 = Some (binop_val op1 va vb) /\
    h2 !! la = Some va /\ h2 !! lb = Some vb /\ h2 !! lc = Some vc /\
    (forall l, l <> r1 -> l <> r2 -> h2 !! l = h !! l).
Proof.
  intros Ea Eb Ec Ha Hb Hc Hd1 Hd2.
  set (r1 := fresh (dom h)). set (h1 := <[r1 := binop_val op1 va vb]> h).
  set (r2 := fresh (dom h1)). set (h2 := <[r2 := binop_val op2 (binop_val op1 va vb) vc]> h1).
  assert (Hf1 : h !! r1 = None) by (apply not_elem_of_dom, is_fresh).
  assert (Hf2 : h1 !! r2 = None) by (apply not_elem_of_dom, is_fresh).
  assert (Hr : r1 <> r2).
  { intros E. rewrite <- E in Hf2. unfold h1 in Hf2. by rewrite lookup_insert_eq in Hf2. }
  assert (H1r1 : h1 !! r1 = Some (binop_val op1 va vb)) by apply lookup_insert_eq.
  assert (H1c : h1 !! lc = Some vc) by (by apply fresh_insert_frame).
  exists r1, r2, h1, h2.
  split; [exact (Gop_binary_alloc op1 a b h la lb va vb Ea Eb Ha Hb Hd1)|].
  split; [exact (Gop_binary_alloc op2 (mkBigint (Some r1)) c h1 r1 lc _ vc
                   eq_refl Ec H1r1 H1c Hd2)|].
  split; [exact Hf1|].
  split; [unfold h1 in Hf2; by rewrite lookup_insert_ne in Hf2|].
  split; [exact Hr|]. split; [apply lookup_insert_eq|].
  split; [by apply fresh_insert_frame|].
  split; [by do 2 apply fresh_insert_frame|].
  split; [by do 2 apply fresh_insert_frame|].
  split; [by apply fresh_insert_frame|].
  intros l Hl1 Hl2. unfold h2, h1. by rewrite !lookup_insert_ne.
Qed.

End BigintMore.

Section BigratProps.
Import Builtin.

Lemma new_Rat_fresh (h : bigrat.rheap) : h !! fresh (dom h) = None.
Proof. apply not_elem_of_dom, is_fresh. Qed.

Lemma fresh_ne (h : bigrat.rheap) (l : loc) (v : bigrat.Qc) :
  h !! l = Some v -> fresh (dom h) <> l.
Proof. intros Hl E. pose proof (new_Rat_fresh h) as Hf. rewrite E in Hf. congruence. Qed.

Lemma Rat_set2_fresh (f : bigrat.Qc -> bigrat.Qc -> Result bigrat.Qc) (h : bigrat.rheap)
    (la lb : loc) (va vb v : bigrat.Qc) :
  h !! la = Some va -> h !! lb = Some vb -> f va vb = Ok v ->
  bigrat.Rat_set2 f (Some (fresh (dom h))) (Some la) (Some lb)
    (<[fresh (dom h) := bigrat.Qc0]> h)
  = Ok (Some (fresh (dom h)), <[fresh (dom h) := v]> h).
Proof.
  intros Ha Hb Hf. unfold bigrat.Rat_set2, bigrat.rderef.
  rewrite !lookup_insert_ne by (by eapply fresh_ne).
  rewrite Ha, Hb. cbn [rbind]. rewrite lookup_insert_eq. cbn [rbind]. rewrite Hf.
  cbn [rbind]. by rewrite insert_insert_eq.
Qed.

Lemma Rat_set1_fresh (f : bigrat.Qc -> Result bigrat.Qc) (h : bigrat.rheap)
    (la : loc) (va v : bigrat.Qc) :
  h !! la = Some va -> f va = Ok v ->
  bigrat.Rat_set1 f (Some (fresh (dom h))) (Some la) (<[fresh (dom h) := bigrat.Qc0]> h)
  = Ok (Some (fresh (dom h)), <[fresh (dom h) := v]> h).
Proof.
  intros Ha Hf. unfold bigrat.Rat_set1, bigrat.rderef.
  rewrite !lookup_insert_ne by (by eapply fresh_ne).
  rewrite Ha. cbn [rbind]. rewrite lookup_insert_eq. cbn [rbind]. rewrite Hf.
  cbn [rbind]. by rewrite insert_insert_eq.
Qed.

Lemma bigrat_binary_alloc (op : bigrat.ratop) (a b : bigrat.Gop_bigrat) (h : bigrat.rheap)
    (la lb : loc) (va vb : bigrat.Qc) :
  bigrat.Rat a = Some la -> bigrat.Rat b = Some lb ->
  h !! la = Some va -> h !! lb = Some vb ->
  (op = bigrat.RQuo -> vb <> bigrat.Qc0) ->
  bigrat.Gop_binary op a b h
  = Ok (bigrat.mkBigrat (Some (fresh (dom h))),
        <[fresh (dom h) := bigrat.ratop_val op va vb]> h).
Proof.
  intros Ea Eb Ha Hb Hd.
  destruct op; cbn [bigrat.Gop_binary bigrat.ratop_val];
    unfold bigrat.Gop_Add, bigrat.Gop_Sub, bigrat.Gop_Mul, bigrat.Gop_Quo,
      bigrat.tmprat, bigrat.new_Rat, bigrat.Rat_Add, bigrat.Rat_Sub, bigrat.Rat_Mul,
      bigrat.Rat_Quo;
    cbn [Gop_istmp bigrat.Rat]; rewrite Ea, Eb;
    (erewrite Rat_set2_fresh; [reflexivity|exact Ha|exact Hb|]); try reflexivity.
  destruct (decide (vb = bigrat.Qc0)) as [E|_]; [by destruct (Hd eq_refl)|reflexivity].
Qed.

Lemma bigrat_Neg_alloc (a : bigrat.Gop_bigrat) (h : bigrat.rheap) (la : loc) (va : bigrat.Qc) :
  bigrat.Rat a = Some la -> h !! la = Some va ->
  bigrat.Gop_Neg a h
  = Ok (bigrat.mkBigrat (Some (fresh (dom h))), <[fresh (dom h) := Qcanon.Qcopp va]> h).
Proof.
  intros Ea Ha. unfold bigrat.Gop_Neg, bigrat.tmprat1, bigrat.new_Rat, bigrat.Rat_Neg.
  cbn [Gop_istmp bigrat.Rat]. rewrite Ea.
  erewrite Rat_set1_fresh; [reflexivity|exact Ha|reflexivity].
Qed.

Lemma bigrat_Inv_alloc (a : bigrat.Gop_bigrat) (h : bigrat.rheap) (la : loc) (va : bigrat.Qc) :
  bigrat.Rat a = Some la -> h !! la = Some va -> va <> bigrat.Qc0 ->
  bigrat.Gop_Inv a h
  = Ok (bigrat.mkBigrat (Some (fresh (dom h))), <[fresh (dom h) := Qcanon.Qcinv va]> h).
Proof.
  intros Ea Ha Hz. unfold bigrat.Gop_Inv, bigrat.tmprat1, bigrat.new_Rat, bigrat.Rat_Inv.
  cbn [Gop_istmp bigrat.Rat]. rewrite Ea.
  erewrite Rat_set1_fresh; [reflexivity|exact Ha|].
  destruct (decide (va = bigrat.Qc0)); [done|reflexivity].
Qed.

(** X26: [Gop_Assign] of [Gop_bigrat] assigns by value. The rational [a]
    points to takes the value of [b]; [a] keeps its pointer and no cell is
    added, so every holder of that pointer sees the new value; [b] is not
    shared: assigning to [b] afterwards leaves [a] as it is. A nil operand
    on either side panics. *)
Theorem bigrat_Assign_by_value
    (a b : bigrat.Gop_bigrat) (h : bigrat.rheap) (la lb : loc) (va vb : bigrat.Qc) :
  bigrat.Rat a = Some la -> bigrat.Rat b = Some lb ->
  h !! la = Some va -> h !! lb = Some vb ->
  bigrat.Gop_Assign a b h = Ok (<[la := vb]> h) /\
  dom (<[la := vb]> h) = dom h /\
  (forall c lc vc, la <> lb -> bigrat.Rat c = Some lc -> h !! lc = Some vc -> lc <> la ->
     exists h2, bigrat.Gop_Assign b c (<[la := vb]> h) = Ok h2 /\
                h2 !! lb = Some vc /\ h2 !! la = Some vb) /\
  (forall n, bigrat.IsNil n = true ->
     bigrat.Gop_Assign a n h = Panic "invalid memory address or nil pointer dereference" /\
     bigrat.Gop_Assign n a h = Panic "invalid memory address or nil pointer dereference").
Proof.
  intros Ea Eb Ha Hb.
  assert (Hassign : forall (x y : bigrat.Gop_bigrat) (g : bigrat.rheap) lx ly vx vy,
    bigrat.Rat x = Some lx -> bigrat.Rat y = Some ly ->
    g !! lx = Some vx -> g !! ly = Some vy ->
    bigrat.Gop_Assign x y g = Ok (<[lx := vy]> g)).
  { intros x y g lx ly vx vy Ex Ey Hx Hy.
    unfold bigrat.Gop_Assign, bigrat.Rat_Set, bigrat.Rat_set1, bigrat.rderef.
    cbn [Gop_istmp]. rewrite Ex, Ey, Hx, Hy. reflexivity. }
  split; [exact (Hassign a b h la lb va vb Ea Eb Ha Hb)|].
  split.
  { apply set_eq. intros l. rewrite !elem_of_dom.
    destruct (decide (l = la)) as [->|Hne].
    - rewrite lookup_insert_eq, Ha. split; eauto.
    - by rewrite lookup_insert_ne. }
  split.
  - intros c lc vc Hab Ec Hc Hca. exists (<[lb := vc]> (<[la := vb]> h)).
    split; [|split].
    + apply (Hassign b c _ lb lc vb vc Eb Ec).
      * by rewrite lookup_insert_ne.
      * by rewrite lookup_insert_ne.
    + apply lookup_insert_eq.
    + rewrite lookup_insert_ne by done. apply lookup_insert_eq.
  - intros [[l|]] Hn; [discriminate|]. split.
    + unfold bigrat.Gop_Assign, bigrat.Rat_Set, bigrat.Rat_set1, bigrat.rderef.
      cbn [Gop_istmp bigrat.Rat]. reflexivity.
    + unfold bigrat.Gop_Assign, bigrat.Rat_Set, bigrat.Rat_set1, bigrat.rderef.
      cbn [Gop_istmp bigrat.Rat]. rewrite Ea, Ha. reflexivity.
Qed.

(** X27: the arithmetic of [Gop_bigrat] is exact and allocates: for
    non-nil operands (and a divisor that is not zero) [Gop_Add], [Gop_Sub],
    [Gop_Mul] and [Gop_Quo] return a new rational, in a cell that was not in
    use, that holds the sum, difference, product or quotient in the
    rationals; every cell that was in use keeps its value. [Gop_Quo] by
    zero and [Gop_Inv] of zero panic with "division by zero". *)
Theorem bigrat_arithmetic
    (a b : bigrat.Gop_bigrat) (h : bigrat.rheap) (la lb : loc) (va vb : bigrat.Qc) :
  bigrat.Rat a = Some la -> bigrat.Rat b = Some lb ->
  h !! la = Some va -> h !! lb = Some vb ->
  (forall op, (op = bigrat.RQuo -> vb <> bigrat.Qc0) ->
     exists (r : loc) (h' : bigrat.rheap),
       bigrat.Gop_binary op a b h = Ok (bigrat.mkBigrat (Some r), h') /\
       h !! r = None /\
       h' !! r = Some (bigrat.ratop_val op va vb) /\
       (forall l, l <> r -> h' !! l = h !! l)) /\
  (vb = bigrat.Qc0 ->
     bigrat.Gop_Quo a b h = Panic div_by_zero /\ bigrat.Gop_Inv b h = Panic div_by_zero).
Proof.
  intros Ea Eb Ha Hb. split.
  - intros op Hd. exists (fresh (dom h)), (<[fresh (dom h) := bigrat.ratop_val op va vb]> h).
    split; [exact (bigrat_binary_alloc op a b h la lb va vb Ea Eb Ha Hb Hd)|].
    split; [apply new_Rat_fresh|]. split; [apply lookup_insert_eq|].
    intros l Hl. by rewrite lookup_insert_ne.
  - intros Hz. split.
    + unfold bigrat.Gop_Quo, bigrat.tmprat, bigrat.new_Rat, bigrat.Rat_Quo,
        bigrat.Rat_set2, bigrat.rderef.
      cbn [Gop_istmp bigrat.Rat]. rewrite Ea, Eb.
      rewrite !lookup_insert_ne by (by eapply fresh_ne).
      rewrite Ha, Hb. cbn [rbind]. rewrite lookup_insert_eq. cbn [rbind].
      destruct (decide (vb = bigrat.Qc0)); [reflexivity|done].
    + unfold bigrat.Gop_Inv, bigrat.tmprat1, bigrat.new_Rat, bigrat.Rat_Inv,
        bigrat.Rat_set1, bigrat.rderef.
      cbn [Gop_istmp bigrat.Rat]. rewrite Eb.
      rewrite !lookup_insert_ne by (by eapply fresh_ne).
      rewrite Hb. cbn [rbind]. rewrite lookup_insert_eq. cbn [rbind].
      destruct (decide (vb = bigrat.Qc0)); [reflexivity|done].
Qed.

(** X28: round trips of the [Gop_bigrat] operators, computed through the
    store: dividing by [b] and multiplying by [b] again, adding [b] and
    subtracting it again, inverting twice and negating twice each end with
    a rational equal to [a] (for the first, [b] not zero; for the third,
    [a] not zero). *)
Theorem bigrat_round_trips
    (a b : bigrat.Gop_bigrat) (h : bigrat.rheap) (la lb : loc) (va vb : bigrat.Qc) :
  bigrat.Rat a = Some la -> bigrat.Rat b = Some lb ->
  h !! la = Some va -> h !! lb = Some vb ->
  (vb <> bigrat.Qc0 ->
   bigrat.ratValue (r <- bigrat.Gop_Quo a b h ;;; bigrat.Gop_Mul r.1 b r.2) = Some va) /\
  bigrat.ratValue (r <- bigrat.Gop_Add a b h ;;; bigrat.Gop_Sub r.1 b r.2) = Some va /\
  (va <> bigrat.Qc0 ->
   bigrat.ratValue (r <- bigrat.Gop_Inv a h ;;; bigrat.Gop_Inv r.1 r.2) = Some va) /\
  bigrat.ratValue (r <- bigrat.Gop_Neg a h ;;; bigrat.Gop_Neg r.1 r.2) = Some va.
Proof.
  intros Ea Eb Ha Hb.
  assert (Hb1 : forall v : bigrat.Qc, <[fresh (dom h) := v]> h !! lb = Some vb).
  { intros v. rewrite lookup_insert_ne by (by eapply fresh_ne). exact Hb. }
  change bigrat.Gop_Quo with (bigrat.Gop_binary bigrat.RQuo).
  change bigrat.Gop_Mul with (bigrat.Gop_binary bigrat.RMul).
  change bigrat.Gop_Add with (bigrat.Gop_binary bigrat.RAdd).
  change bigrat.Gop_Sub with (bigrat.Gop_binary bigrat.RSub).
  split; [|split; [|split]].
  - intros Hz.
    rewrite (bigrat_binary_alloc bigrat.RQuo a b h la lb va vb Ea Eb Ha Hb (fun _ => Hz)).
    cbn [rbind fst snd bigrat.ratop_val].
    rewrite (bigrat_binary_alloc bigrat.RMul (bigrat.mkBigrat (Some (fresh (dom h)))) b _ (fresh (dom h)) lb
               (Qcanon.Qcdiv va vb) vb eq_refl Eb (lookup_insert_eq _ _ _) (Hb1 _));
      [|discriminate].
    cbn [bigrat.ratValue bigrat.Rat bigrat.ratop_val]. rewrite lookup_insert_eq. f_equal.
    rewrite Qcanon.Qcmult_comm. by apply Qcanon.Qcmult_div_r.
  - rewrite (bigrat_binary_alloc bigrat.RAdd a b h la lb va vb Ea Eb Ha Hb);
      [|discriminate].
    cbn [rbind fst snd bigrat.ratop_val].
    rewrite (bigrat_binary_alloc bigrat.RSub (bigrat.mkBigrat (Some (fresh (dom h)))) b _ (fresh (dom h)) lb
               (Qcanon.Qcplus va vb) vb eq_refl Eb (lookup_insert_eq _ _ _) (Hb1 _));
      [|discriminate].
    cbn [bigrat.ratValue bigrat.Rat bigrat.ratop_val]. rewrite lookup_insert_eq. f_equal.
    unfold Qcanon.Qcminus. rewrite <- Qcanon.Qcplus_assoc, Qcanon.Qcplus_opp_r.
    apply Qcanon.Qcplus_0_r.
  - intros Hz. rewrite (bigrat_Inv_alloc a h la va Ea Ha Hz). cbn [rbind fst snd].
    assert (Hi : Qcanon.Qcinv va <> bigrat.Qc0).
    { intros E. apply (f_equal (Qcanon.Qcmult va)) in E.
      rewrite Qcanon.Qcmult_inv_r in E by exact Hz.
      unfold bigrat.Qc0 in E. rewrite Qcanon.Qcmult_0_r in E. discriminate. }
    rewrite (bigrat_Inv_alloc (bigrat.mkBigrat (Some (fresh (dom h)))) _ (fresh (dom h)) (Qcanon.Qcinv va) eq_refl
               (lookup_insert_eq _ _ _) Hi).
    cbn [bigrat.ratValue bigrat.Rat]. rewrite lookup_insert_eq. f_equal.
    rewrite <- (Qcanon.Qcmult_1_l (Qcanon.Qcinv (Qcanon.Qcinv va))).
    rewrite <- (Qcanon.Qcmult_inv_r va Hz), <- Qcanon.Qcmult_assoc.
    rewrite (Qcanon.Qcmult_inv_r (Qcanon.Qcinv va) Hi). apply Qcanon.Qcmult_1_r.
  - rewrite (bigrat_Neg_alloc a h la va Ea Ha). cbn [rbind fst snd].
    rewrite (bigrat_Neg_alloc (bigrat.mkBigrat (Some (fresh (dom h)))) _ (fresh (dom h)) (Qcanon.Qcopp va) eq_refl
               (lookup_insert_eq _ _ _)).
    cbn [bigrat.ratValue bigrat.Rat]. rewrite lookup_insert_eq. f_equal.
    apply Qcanon.Qcopp_involutive.
Qed.

(** X30: the comparisons of [Gop_bigrat] on non-nil operands return the
    order of the rationals the operands hold, whatever the pointers are:
    [Gop_LT] says whether the first value is strictly below the second,
    [Gop_EQ] whether the two values are equal, and the other four are
    [Gop_GE = not LT], [Gop_NE = not EQ], [Gop_LE = LT or EQ] and
    [Gop_GT = not LE]. *)
Theorem bigrat_comparisons
    (a b : bigrat.Gop_bigrat) (h : bigrat.rheap) (la lb : loc) (va vb : bigrat.Qc) :
  bigrat.Rat a = Some la -> bigrat.Rat b = Some lb ->
  h !! la = Some va -> h !! lb = Some vb ->
  exists lt eq : bool,
    bigrat.Gop_LT a b h = Ok lt /\ bigrat.Gop_GE a b h = Ok (negb lt) /\
    bigrat.Gop_EQ a b h = Ok eq /\ bigrat.Gop_NE a b h = Ok (negb eq) /\
    bigrat.Gop_LE a b h = Ok (lt || eq)%bool /\
    bigrat.Gop_GT a b h = Ok (negb (lt || eq))%bool /\
    (lt = true <-> Qcanon.Qclt va vb) /\ (eq = true <-> va = vb).
Proof.
  intros Ea Eb Ha Hb.
  unfold bigrat.Gop_LT, bigrat.Gop_LE, bigrat.Gop_GT, bigrat.Gop_GE, bigrat.Gop_EQ,
    bigrat.Gop_NE, bigrat.Rat_Cmp, bigrat.rderef.
  rewrite Ea, Eb, Ha, Hb. cbn [rbind].
  pose proof (Qcanon.Qclt_alt va vb) as Hlt. pose proof (Qcanon.Qceq_alt va vb) as Heq.
  destruct (Qcanon.Qccompare va vb).
  - exists false, true. repeat split; try reflexivity; try discriminate.
    + intros H. apply Hlt in H. discriminate.
    + intros _. by apply Heq.
  - exists true, false. repeat split; try reflexivity; try discriminate.
    + intros _. by apply Hlt.
    + intros H. apply Heq in H. discriminate.
  - exists false, false. repeat split; try reflexivity; try discriminate.
    + intros H. apply Hlt in H. discriminate.
    + intros H. apply Heq in H. discriminate.
Qed.

End BigratProps.

(** ** The big-number operators on concrete stores *)

Lemma demo_Qc_4_nonzero : demo_Qc 4 <> Builtin.bigrat.Qc0.
Proof.
  intros E. apply (f_equal (fun q => QArith_base.Qnum (Qcanon.this q))) in E.
  vm_compute in E. discriminate E.
Qed.

Lemma demo_Qc_6_nonzero : demo_Qc 6 <> Builtin.bigrat.Qc0.
Proof.
  intros E. apply (f_equal (fun q => QArith_base.Qnum (Qcanon.this q))) in E.
  vm_compute in E. discriminate E.
Qed.

(** 6 is not below 4. *)
Lemma bigint_comparisons_witness :
  Builtin.Gop_LT (demo_bigint 1) (demo_bigint 2) demo_heap = Ok false /\
  Builtin.Gop_GE (demo_bigint 1) (demo_bigint 2) demo_heap = Ok true.
Proof.
  destruct (bigint_comparisons (demo_bigint 1) (demo_bigint 2) demo_heap 1%positive 2%positive
              6 4 eq_refl eq_refl eq_refl eq_refl) as (H1 & _ & _ & H4 & _).
  split; [exact H1|exact H4].
Defined.

Lemma bigint_Copy_witness :
  exists (r : positive) (h' : gmap positive Z),
    Builtin.Copy (demo_bigint 1) demo_heap = Ok (Builtin.mkBigint (Some r), h') /\
    r <> 1%positive /\ h' !! r = Some 6.
Proof.
  destruct (bigint_Copy (demo_bigint 1) demo_heap 1%positive 6 eq_refl eq_refl)
    as [(r & h' & H1 & _ & H2 & H3 & _) _].
  exists r, h'. split; [exact H1|]. split; [exact H2|exact H3].
Defined.

(** (6 + 4) * 3 *)
Lemma bigint_expression_witness :
  exists (r1 r2 : positive) (h1 h2 : gmap positive Z),
    Builtin.Gop_Add (demo_bigint 1) (demo_bigint 2) demo_heap
    = Ok (Builtin.mkBigint (Some r1), h1) /\
    Builtin.Gop_Mul (Builtin.mkBigint (Some r1)) (demo_bigint 3) h1
    = Ok (Builtin.mkBigint (Some r2), h2) /\
    h2 !! r2 = Some 30 /\ h2 !! r1 = Some 10 /\ h2 !! 1%positive = Some 6.
Proof.
  destruct (bigint_expression Builtin.Add Builtin.Mul (demo_bigint 1) (demo_bigint 2)
              (demo_bigint 3) demo_heap 1%positive 2%positive 3%positive 6 4 3
              eq_refl eq_refl eq_refl eq_refl eq_refl eq_refl I I)
    as (r1 & r2 & h1 & h2 & H1 & H2 & _ & _ & _ & H3 & H4 & H5 & _).
  exists r1, r2, h1, h2.
  split; [exact H1|]. split; [exact H2|]. split; [exact H3|]. split; [exact H4|exact H5].
Defined.

(** 4 is assigned to the rational that held 6. *)
Lemma bigrat_Assign_by_value_witness :
  Builtin.bigrat.Gop_Assign (demo_bigrat 1) (demo_bigrat 2) demo_rheap
  = Ok (<[1%positive := demo_Qc 4]> demo_rheap).
Proof.
  exact (proj1 (bigrat_Assign_by_value (demo_bigrat 1) (demo_bigrat 2) demo_rheap
                  1%positive 2%positive (demo_Qc 6) (demo_Qc 4)
                  eq_refl eq_refl eq_refl eq_refl)).
Defined.

(** 6 / 4 *)
Lemma bigrat_arithmetic_witness :
  exists (r : positive) (h' : gmap positive Qcanon.Qc),
    Builtin.bigrat.Gop_Quo (demo_bigrat 1) (demo_bigrat 2) demo_rheap
    = Ok (Builtin.bigrat.mkBigrat (Some r), h') /\
    h' !! r = Some (Qcanon.Qcdiv (demo_Qc 6) (demo_Qc 4)) /\
    h' !! 1%positive = Some (demo_Qc 6).
Proof.
  destruct (bigrat_arithmetic (demo_bigrat 1) (demo_bigrat 2) demo_rheap
              1%positive 2%positive (demo_Qc 6) (demo_Qc 4)
              eq_refl eq_refl eq_refl eq_refl) as [H _].
  destruct (H Builtin.bigrat.RQuo) as (r & h' & H1 & H2 & H3 & H4).
  - intros _. exact demo_Qc_4_nonzero.
  - exists r, h'. split; [exact H1|]. split; [exact H3|].
    rewrite H4; [reflexivity|]. intros E. rewrite <- E in H2. discriminate H2.
Defined.

(** 1 / (1 / 6) is 6. *)
Lemma bigrat_round_trips_witness :
  Builtin.bigrat.ratValue
    (r <- Builtin.bigrat.Gop_Inv (demo_bigrat 1) demo_rheap ;;;
     Builtin.bigrat.Gop_Inv r.1 r.2)
  = Some (demo_Qc 6).
Proof.
  destruct (bigrat_round_trips (demo_bigrat 1) (demo_bigrat 2) demo_rheap
              1%positive 2%positive (demo_Qc 6) (demo_Qc 4)
              eq_refl eq_refl eq_refl eq_refl) as (_ & _ & H & _).
  apply H. exact demo_Qc_6_nonzero.
Defined.

(** 6 is not below 4 and not equal to it. *)
Lemma bigrat_comparisons_witness :
  exists lt eq : bool,
    Builtin.bigrat.Gop_LT (demo_bigrat 1) (demo_bigrat 2) demo_rheap = Ok lt /\
    Builtin.bigrat.Gop_EQ (demo_bigrat 1) (demo_bigrat 2) demo_rheap = Ok eq /\
    Builtin.bigrat.Gop_GT (demo_bigrat 1) (demo_bigrat 2) demo_rheap
    = Ok (negb (lt || eq))%bool.
Proof.
  destruct (bigrat_comparisons (demo_bigrat 1) (demo_bigrat 2) demo_rheap
              1%positive 2%positive (demo_Qc 6) (demo_Qc 4)
              eq_refl eq_refl eq_refl eq_refl)
    as (lt & eq & H1 & _ & H2 & _ & _ & H3 & _).
  exists lt, eq. split; [exact H1|]. split; [exact H2|exact H3].
Defined.
